(** * stream_scryfall_blocks: a shallow embedding of the card streamer

    The script reads a JSON array of card records piece by piece
    ([iter_json_array]), decides for each record whether it is a playable
    card ([is_non_playable]) and renders the playable ones as text blocks
    ([build_block]); [main] prints every block followed by a separator
    line.

    Text is modelled on the first 256 code points (Latin-1), one [ascii]
    per character; Python's [str] predicates are written out for that
    range, where lowering a text keeps every character in its place.
    [Wide] has the marker search on texts of any code points, where it
    does not.  Dictionaries are stdpp finite maps. *)

From Stdlib Require Import Ascii String NArith Lia.
From stdpp Require Import gmap strings list fin_maps.

(** ** Python's [str] on Latin-1 text *)

Module Text.

Definition code (c : ascii) : N := N_of_ascii c.

Definition between (lo hi n : N) : bool :=
  (lo <=? n)%N && (n <=? hi)%N.

(** [c.isalpha()]: the letters of Latin-1. *)
Definition char_isalpha (c : ascii) : bool :=
  let n := code c in
  between 65 90 n || between 97 122 n
  || (n =? 170)%N || (n =? 181)%N || (n =? 186)%N
  || between 192 214 n || between 216 246 n || between 248 255 n.

(** [c.isspace()]: tab to carriage return, the four separators
    FS GS RS US, space, NEL and the no-break space. *)
Definition char_isspace (c : ascii) : bool :=
  let n := code c in
  between 9 13 n || between 28 32 n || (n =? 133)%N || (n =? 160)%N.

(** [c.lower()]: capital letters move up by 32, everything else stays. *)
Definition char_lower (c : ascii) : ascii :=
  let n := code c in
  if between 65 90 n || between 192 214 n || between 216 222 n
  then ascii_of_N (n + 32)
  else c.

Fixpoint all_chars (p : ascii -> bool) (s : string) : bool :=
  match s with
  | EmptyString => true
  | String c s' => p c && all_chars p s'
  end.

(** [s.isalpha()]: false on the empty string. *)
Definition isalpha (s : string) : bool :=
  match s with
  | EmptyString => false
  | _ => all_chars char_isalpha s
  end.

Fixpoint lower (s : string) : string :=
  match s with
  | EmptyString => EmptyString
  | String c s' => String (char_lower c) (lower s')
  end.

Fixpoint lstrip (s : string) : string :=
  match s with
  | EmptyString => EmptyString
  | String c s' => if char_isspace c then lstrip s' else s
  end.

Fixpoint rstrip (s : string) : string :=
  match s with
  | EmptyString => EmptyString
  | String c s' =>
      match rstrip s' with
      | EmptyString => if char_isspace c then EmptyString else String c EmptyString
      | r => String c r
      end
  end.

Definition strip (s : string) : string := lstrip (rstrip s).

(** [s.startswith(p)] *)
Definition startswith (s p : string) : bool := String.prefix p s.

(** [text.find(sub, start)]: the lowest index at or after [start] where
    [sub] occurs; [None] stands for Python's [-1]. *)
Definition find (text sub : string) (start : nat) : option nat :=
  String.index start sub text.

(** [text[i]] as a one-character string.  The callers only index in
    range ([getitem_in_range] below); out of range the model gives the
    empty string where Python raises. *)
Definition getitem (text : string) (i : nat) : string :=
  match String.get i text with
  | Some c => String c EmptyString
  | None => EmptyString
  end.

(** [s[i:]] *)
Fixpoint slice_from (s : string) (i : nat) : string :=
  match i, s with
  | O, _ => s
  | S _, EmptyString => EmptyString
  | S i', String _ s' => slice_from s' i'
  end.

(** [s[:n]] *)
Fixpoint slice_to (s : string) (n : nat) : string :=
  match n, s with
  | O, _ => EmptyString
  | S _, EmptyString => EmptyString
  | S n', String c s' => String c (slice_to s' n')
  end.

(** [sub in s] *)
Fixpoint contains (s sub : string) : bool :=
  String.prefix sub s
  || match s with
     | EmptyString => false
     | String _ s' => contains s' sub
     end.

(** Truth value of a string: non-empty. *)
Definition truthy (s : string) : bool :=
  match s with
  | EmptyString => false
  | _ => true
  end.

End Text.

(** ** Records

    A card is a decoded JSON object.  Its attributes are kept by the type
    the card schema gives them: the text attributes ([name], [mana_cost],
    [type_line], [oracle_text], [power], [toughness], [loyalty],
    [defense], [border_color], [layout]) in one dictionary keyed by
    attribute name, and [has_acorn], [legalities] and [card_faces] as
    fields of their own.  [None] is Python's [None]: what [dict.get]
    returns for a key that is missing or holds JSON [null]. *)

Definition face := gmap string string.

Record card := Card {
  text_attrs : gmap string string;
  has_acorn : option bool;
  legalities : option (gmap string string);
  card_faces : option (list (gmap string string))
}.

(** [d.get(key)] on a text attribute. *)
Definition get (d : gmap string string) (key : string) : option string :=
  d !! key.

(** Truth value of an optional string: present and non-empty. *)
Definition truthy (v : option string) : bool :=
  match v with
  | Some s => Text.truthy s
  | None => false
  end.

(** [a or b] on optional strings. *)
Definition or_else (a b : option string) : option string :=
  if truthy a then a else b.

(** [v or e], with [e] the empty text. *)
Definition or_empty (v : option string) : string :=
  match or_else v (Some EmptyString) with
  | Some s => s
  | None => EmptyString
  end.

(** ** pick_field *)

Definition pick_field (c : card) (f : option face) (key : string)
  : option string :=
  let value := get (text_attrs c) key in
  match value with
  | Some _ => value
  | None =>
      match f with
      | Some f => get f key
      | None => None
      end
  end.

(** ** Digital-only oracle markers *)

Definition DIGITAL_ONLY_ORACLE_MARKERS : list string :=
  [ "boon"; "conjure"; "double team"; "draft"; "heist"; "incorporate";
    "intensity"; "intensify"; "perpetually"; "seek"; "specialize";
    "spellbook" ].

(** The [while start != -1] loop of [contains_marker_with_boundaries].
    Every turn moves [start] forward, so the loop is run on a budget of
    turns; [None] is an exhausted budget. *)
Fixpoint marker_loop (turns : nat) (text marker : string) (start : option nat)
  : option bool :=
  match turns with
  | O => None
  | S turns' =>
      match start with
      | None => Some false
      | Some start =>
          let before :=
            if (0 <? start)%nat then Text.getitem text (start - 1)
            else EmptyString in
          let after_index := (start + String.length marker)%nat in
          let after :=
            if (after_index <? String.length text)%nat
            then Text.getitem text after_index
            else EmptyString in
          let before_is_letter := Text.isalpha before in
          let after_is_letter := Text.isalpha after in
          if negb before_is_letter && negb after_is_letter then Some true
          else marker_loop turns' text marker
                 (Text.find text marker (start + 1))
      end
  end.

(** The budget the loop is run with: [start] stays at most
    [length text], so [length text + 2] turns always suffice
    ([marker_loop_returns]). *)
Definition contains_marker_with_boundaries (text marker : string) : bool :=
  match marker_loop (String.length text + 2) text marker
          (Text.find text marker 0) with
  | Some b => b
  | None => false
  end.

Definition has_digital_only_oracle_marker (oracle_text : string) : bool :=
  let lower := Text.lower oracle_text in
  existsb (fun marker => contains_marker_with_boundaries lower marker)
          DIGITAL_ONLY_ORACLE_MARKERS.

(** ** The marker search on any text

    [str.lower] does not keep every character in place: the capital I
    with a dot above (U+0130) becomes an [i] followed by the combining
    dot above (U+0307), which is no letter.  [Wide] is the marker search
    on texts of code points, for any alphabet and any lowering; the
    tables of the interpreter are written out for Latin-1 and these two
    code points. *)

Module Wide.

Definition text := list N.

Definition of_string (s : string) : text :=
  Text.code <$> list_ascii_of_string s.

Fixpoint eqb (t u : text) : bool :=
  match t, u with
  | [], [] => true
  | a :: t, b :: u => (a =? b)%N && eqb t u
  | _, _ => false
  end.

(** [t.startswith(p)] *)
Fixpoint startswith (t p : text) : bool :=
  match p, t with
  | [], _ => true
  | _ :: _, [] => false
  | b :: p, a :: t => (a =? b)%N && startswith t p
  end.

(** The lowest index of [sub] in [t], counted from [i]. *)
Fixpoint find_at (t sub : text) (i : nat) : option nat :=
  if startswith t sub then Some i
  else
    match t with
    | [] => None
    | _ :: t' => find_at t' sub (S i)
    end.

(** [text.find(sub, start)]; [None] stands for Python's [-1]. *)
Definition find (t sub : text) (start : nat) : option nat :=
  if (start <=? length t)%nat then find_at (drop start t) sub start
  else None.

(** [text[i]] as a one-character string; the callers index in range. *)
Definition getitem (t : text) (i : nat) : text :=
  match t !! i with
  | Some c => [c]
  | None => []
  end.

Section Tables.

(** What the interpreter knows of the code points: which of them are
    letters ([c.isalpha()]), and the lowering of a text ([s.lower()]). *)
Variable char_isalpha : N -> bool.
Variable lower : text -> text.

(** [s.isalpha()]: false on the empty string. *)
Definition isalpha (t : text) : bool :=
  match t with
  | [] => false
  | _ => forallb char_isalpha t
  end.

Fixpoint marker_loop (turns : nat) (t marker : text) (start : option nat)
  : option bool :=
  match turns with
  | O => None
  | S turns' =>
      match start with
      | None => Some false
      | Some start =>
          let before :=
            if (0 <? start)%nat then getitem t (start - 1) else [] in
          let after_index := (start + length marker)%nat in
          let after :=
            if (after_index <? length t)%nat then getitem t after_index
            else [] in
          let before_is_letter := isalpha before in
          let after_is_letter := isalpha after in
          if negb before_is_letter && negb after_is_letter then Some true
          else marker_loop turns' t marker (find t marker (start + 1))
      end
  end.

Definition contains_marker_with_boundaries (t marker : text) : bool :=
  match marker_loop (length t + 2) t marker (find t marker 0) with
  | Some b => b
  | None => false
  end.

Definition has_digital_only_oracle_marker (oracle_text : text) : bool :=
  let lower := lower oracle_text in
  existsb (fun marker =>
             contains_marker_with_boundaries lower (of_string marker))
          DIGITAL_ONLY_ORACLE_MARKERS.

(** There is a letter at index [i] of [t]. *)
Definition letter_at (t : text) (i : nat) : Prop :=
  exists c, t !! i = Some c /\ char_isalpha c = true.

(** Neither the character before the occurrence at [i] nor the one after
    it is a letter; a missing character counts as no letter. *)
Definition at_word_boundaries (t marker : text) (i : nat) : Prop :=
  (i = 0 \/ ~ letter_at t (i - 1)) /\ ~ letter_at t (i + length marker).

End Tables.

(** [marker] occurs in [t] at index [i]. *)
Definition occurs_at (t marker : text) (i : nat) : Prop :=
  take (length marker) (drop i t) = marker.

(** The entries of the tables for Latin-1 and for two code points more:
    the capital I with a dot above (U+0130), a letter, is lowered to an
    [i] and the combining dot above (U+0307), which is no letter.  The
    examples stay within these code points; the other entries are not
    those of the interpreter. *)
Definition CAPITAL_I_DOT : N := 304.
Definition COMBINING_DOT : N := 775.

Definition sample_isalpha (c : N) : bool :=
  if (c <? 256)%N then Text.char_isalpha (ascii_of_N c)
  else (c =? CAPITAL_I_DOT)%N.

Definition sample_char_lower (c : N) : text :=
  if (c <? 256)%N then [Text.code (Text.char_lower (ascii_of_N c))]
  else if (c =? CAPITAL_I_DOT)%N then [Text.code "i"; COMBINING_DOT]
  else [c].

Definition sample_lower (t : text) : text := flat_map sample_char_lower t.

End Wide.

(** ** is_non_playable *)

Definition NON_PLAYABLE_LAYOUTS : list string :=
  [ "token"; "double_faced_token"; "emblem"; "planar"; "scheme";
    "vanguard"; "art_series"; "reversible_card" ].

Definition non_playable_types : list string :=
  [ "Token"; "Emblem"; "Plane"; "Scheme"; "Vanguard"; "Phenomenon";
    "Conspiracy"; "Dungeon"; "Attraction"; "Contraption" ].

(** [x in collection] for a collection of strings. *)
Definition member (x : string) (l : list string) : bool :=
  existsb (String.eqb x) l.

(** [all(value == "not_legal" for value in legalities.values())] *)
Definition all_not_legal (m : gmap string string) : bool :=
  forallb (fun value => String.eqb value "not_legal") (map_to_list m).*2.

(** The conditions of the [if]s of [is_non_playable], in the order of the
    source. *)

Definition silver_border (c : card) : bool :=
  let border_color :=
    Text.lower (Text.strip (or_empty (get (text_attrs c) "border_color"))) in
  String.eqb border_color "silver".

Definition acorn (c : card) : bool :=
  match has_acorn c with
  | Some b => b
  | None => false
  end.

Definition no_legal_format (c : card) : bool :=
  let legalities := default ∅ (legalities c) in
  negb (bool_decide (legalities = ∅)) && all_not_legal legalities.

Definition non_playable_layout (c : card) : bool :=
  let layout :=
    Text.lower (Text.strip (or_empty (get (text_attrs c) "layout"))) in
  member layout NON_PLAYABLE_LAYOUTS.

Definition non_playable_type (type_line : option string) : bool :=
  match type_line with
  | Some type_line =>
      Text.truthy type_line
      && (existsb (fun label => Text.contains type_line label)
                  non_playable_types
          || String.eqb (Text.strip type_line) "Card")
  | None => false
  end.

Definition theme_card (oracle_text : option string) : bool :=
  match oracle_text with
  | Some oracle_text =>
      Text.truthy oracle_text && Text.contains oracle_text "Theme color"
  | None => false
  end.

Definition digital_only (oracle_text : option string) : bool :=
  match oracle_text with
  | Some oracle_text =>
      Text.truthy oracle_text && has_digital_only_oracle_marker oracle_text
  | None => false
  end.

Definition is_non_playable (c : card) (type_line oracle_text : option string)
  : bool :=
  if silver_border c then true
  else if acorn c then true
  else if no_legal_format c then true
  else if non_playable_layout c then true
  else if non_playable_type type_line then true
  else if theme_card oracle_text then true
  else if digital_only oracle_text then true
  else false.

(** ** build_block *)

Definition newline : string := String (ascii_of_nat 10) EmptyString.

(** [faces[0] if faces else None] *)
Definition first_face (c : card) : option face :=
  let faces := default [] (card_faces c) in
  match faces with
  | f :: _ => Some f
  | [] => None
  end.

(** [card.get("name") or (face or {}).get("name")] *)
Definition resolve_name (c : card) (f : option face) : option string :=
  or_else (get (text_attrs c) "name") (get (default ∅ f) "name").

Definition build_block (c : card) : option string :=
  let face := first_face c in
  let name := resolve_name c face in
  match name with
  | None => None
  | Some name =>
  if negb (Text.truthy name) then None
  else
    let mana_cost := pick_field c face "mana_cost" in
    let type_line := pick_field c face "type_line" in
    let oracle_text := pick_field c face "oracle_text" in
    let power := pick_field c face "power" in
    let toughness := pick_field c face "toughness" in
    let loyalty := pick_field c face "loyalty" in
    let defense := pick_field c face "defense" in
    if is_non_playable c type_line oracle_text then None
    else
      let lines := [ "Name: " +:+ name ] in
      let lines :=
        match mana_cost with
        | Some m => if Text.truthy m then lines ++ ["Mana cost: " +:+ m] else lines
        | None => lines
        end in
      let lines :=
        match type_line with
        | Some t => if Text.truthy t then lines ++ ["Type: " +:+ t] else lines
        | None => lines
        end in
      let lines :=
        match power, toughness with
        | Some p, Some t => lines ++ ["Power/Toughness: " +:+ p +:+ "/" +:+ t]
        | _, _ => lines
        end in
      let lines :=
        match loyalty with
        | Some l => lines ++ ["Loyalty: " +:+ l]
        | None => lines
        end in
      let lines :=
        match defense with
        | Some d => lines ++ ["Defense: " +:+ d]
        | None => lines
        end in
      let lines :=
        match oracle_text with
        | Some o => if Text.truthy o then lines ++ [o] else lines
        | None => lines
        end in
      Some (String.concat newline lines)
  end.


(** ** Exceptions and results *)

Inductive exn :=
| JSONDecodeError
| RecursionError
| ValueError.

Inductive result (A : Type) :=
| Ok (a : A)
| Raise (e : exn).
Arguments Ok {A} a.
Arguments Raise {A} e.

(** ** JSON values and the decoder

    [Json.raw_decode_with] models [json.JSONDecoder().raw_decode] on
    Latin-1 text: the value that starts at the head of the text and the
    number of characters it takes.  Decoded strings are lists of code
    points, since an escape can name any of them.  Integers decode to
    [Z]; a number with a fraction or an exponent keeps its literal.

    Two limits of the interpreter reach the caller of the decoder.  Each
    array or object the decoder enters takes one level of recursion, and
    entering one with no level left raises [RecursionError]; [depth] is
    the number of levels left when the decoder is called.  The
    conversion of an integer literal raises [ValueError] when the
    literal has more digits than [sys.get_int_max_str_digits()] allows;
    [max_digits] is that number, 0 for no limit.  [Json.raw_decode] is
    the decoder under the limits of a default interpreter. *)

Module Json.

Abbreviation ustring := (list N).

#[warnings="-register-all"]
Inductive json :=
| JNull
| JBool (b : bool)
| JInt (z : Z)
| JFloat (literal : string)
| JStr (s : ustring)
| JArr (items : list json)
| JObj (members : gmap ustring json).

Definition is_ws (c : ascii) : bool :=
  match c with
  | " " | "009" | "010" | "013" => true
  | _ => false
  end%char.

Definition is_digit (c : ascii) : bool := Text.between 48 57 (Text.code c).

Definition hex_value (c : ascii) : option N :=
  let n := Text.code c in
  if Text.between 48 57 n then Some (n - 48)%N
  else if Text.between 65 70 n then Some (n - 55)%N
  else if Text.between 97 102 n then Some (n - 87)%N
  else None.

Fixpoint skip_ws (s : string) : string :=
  match s with
  | EmptyString => EmptyString
  | String c s' => if is_ws c then skip_ws s' else s
  end.

(** The longest run of digits at the head, and what follows it. *)
Fixpoint span_digits (s : string) : string * string :=
  match s with
  | EmptyString => (EmptyString, EmptyString)
  | String c s' =>
      if is_digit c
      then let (d, r) := span_digits s' in (String c d, r)
      else (EmptyString, s)
  end.

(** The integer part: an optional minus sign, then [0] or a run of
    digits that does not start with [0]. *)
Definition match_integer (s : string) : option (string * string) :=
  let (sign, s1) :=
    match s with
    | String "-" s' => ("-", s')
    | _ => (EmptyString, s)
    end in
  match s1 with
  | EmptyString => None
  | String "0" r => Some (sign +:+ "0", r)
  | String c _ =>
      if is_digit c
      then let (d, r) := span_digits s1 in Some (sign +:+ d, r)
      else None
  end.

(** The optional fraction: a dot and at least one digit. *)
Definition match_frac (s : string) : string * string :=
  match s with
  | String "." s' =>
      match span_digits s' with
      | (EmptyString, _) => (EmptyString, s)
      | (d, r) => ("." +:+ d, r)
      end
  | _ => (EmptyString, s)
  end.

(** The optional exponent: [e] or [E], an optional sign, at least one
    digit. *)
Definition match_exp (s : string) : string * string :=
  match s with
  | String e s' =>
      if Ascii.eqb e "e" || Ascii.eqb e "E" then
        let (sign, s2) :=
          match s' with
          | String c s'' =>
              if Ascii.eqb c "+" || Ascii.eqb c "-"
              then (String c EmptyString, s'')
              else (EmptyString, s')
          | EmptyString => (EmptyString, s')
          end in
        match span_digits s2 with
        | (EmptyString, _) => (EmptyString, s)
        | (d, r) => (String e (sign +:+ d), r)
        end
      else (EmptyString, s)
  | EmptyString => (EmptyString, s)
  end.

Fixpoint digits_value (acc : Z) (s : string) : Z :=
  match s with
  | EmptyString => acc
  | String c s' =>
      digits_value (10 * acc + (Z.of_N (Text.code c) - 48))%Z s'
  end.

(** The digits of an integer literal, without its sign. *)
Definition int_digits (lit : string) : string :=
  match lit with
  | String "-" d => d
  | d => d
  end.

(** The conversion only counts the digits of literals longer than this
    ([_PY_LONG_MAX_STR_DIGITS_THRESHOLD]); a limit other than 0 cannot be
    set below it. *)
Definition INT_MAX_STR_DIGITS_THRESHOLD : nat := 640.

(** [int(integer)] *)
Definition int_of_literal (max_digits : nat) (lit : string) : result Z :=
  let digits := String.length (int_digits lit) in
  if (INT_MAX_STR_DIGITS_THRESHOLD <? digits)%nat
     && (0 <? max_digits)%nat && (max_digits <? digits)%nat
  then Raise ValueError
  else
    Ok match lit with
       | String "-" d => (- digits_value 0 d)%Z
       | d => digits_value 0 d
       end.

(** The number at the head of the text, if the text starts with one,
    and what follows it. *)
Definition match_number (max_digits : nat) (s : string)
  : option (result json * string) :=
  match match_integer s with
  | None => None
  | Some (integer, r1) =>
      let (frac, r2) := match_frac r1 in
      let (exp, r3) := match_exp r2 in
      if Text.truthy frac || Text.truthy exp
      then Some (Ok (JFloat (integer +:+ frac +:+ exp)), r3)
      else
        match int_of_literal max_digits integer with
        | Ok z => Some (Ok (JInt z), r3)
        | Raise e => Some (Raise e, r3)
        end
  end.

(** The character an escape letter stands for. *)
Definition unescape (esc : ascii) : option N :=
  match esc with
  | "034" => Some 34
  | "\" => Some 92
  | "/" => Some 47
  | "b" => Some 8
  | "f" => Some 12
  | "n" => Some 10
  | "r" => Some 13
  | "t" => Some 9
  | _ => None
  end%char%N.

Definition hex4 (h1 h2 h3 h4 : ascii) : option N :=
  match hex_value h1, hex_value h2, hex_value h3, hex_value h4 with
  | Some a, Some b, Some c, Some d => Some (((a * 16 + b) * 16 + c) * 16 + d)%N
  | _, _, _, _ => None
  end.

(** A [\\uXXXX] escape at the head of the text. *)
Definition match_u (s : string) : option (N * string) :=
  match s with
  | String "\" (String "u" (String h1 (String h2 (String h3 (String h4 r))))) =>
      match hex4 h1 h2 h3 h4 with
      | Some uni => Some (uni, r)
      | None => None
      end
  | _ => None
  end.

Definition cons_char (c : N) (r : result (ustring * string))
  : result (ustring * string) :=
  match r with
  | Ok (str, rest) => Ok (c :: str, rest)
  | Raise e => Raise e
  end.

(** [scanstring]: the text after an opening quote, up to the closing
    one; strict mode, so a control character is an error. *)
Fixpoint scanstring (s : string) : result (ustring * string) :=
  match s with
  | EmptyString => Raise JSONDecodeError
  | String c s' =>
      if Ascii.eqb c "034" then Ok ([], s')
      else if Ascii.eqb c "\" then
        match s' with
        | EmptyString => Raise JSONDecodeError
        | String esc s'' =>
            if Ascii.eqb esc "u" then
              match s'' with
              | String h1 (String h2 (String h3 (String h4 s4))) =>
                  match hex4 h1 h2 h3 h4 with
                  | None => Raise JSONDecodeError
                  | Some uni =>
                      match
                        (if Text.between 55296 56319 uni
                         then match_u s4 else None)
                      with
                      | Some (uni2, _) =>
                          if Text.between 56320 57343 uni2 then
                            match s4 with
                            | String _ (String _ (String _ (String _
                                (String _ (String _ s10))))) =>
                                cons_char
                                  (65536 + (N.lor (N.shiftl (uni - 55296) 10)
                                                  (uni2 - 56320)))%N
                                  (scanstring s10)
                            | _ => Raise JSONDecodeError
                            end
                          else cons_char uni (scanstring s4)
                      | None => cons_char uni (scanstring s4)
                      end
                  end
              | _ => Raise JSONDecodeError
              end
            else
              match unescape esc with
              | Some ch => cons_char ch (scanstring s'')
              | None => Raise JSONDecodeError
              end
        end
      else if (Text.code c <? 32)%N then Raise JSONDecodeError
      else cons_char (Text.code c) (scanstring s')
  end.

Definition keyword (s kw : string) (v : json) : option (json * string) :=
  if Text.startswith s kw
  then Some (v, Text.slice_from s (String.length kw))
  else None.

(** The literals and the numbers: what [scan_once] tries when the text
    opens neither a string nor an object nor an array. *)
Definition scan_atom (max_digits : nat) (s : string)
  : result (json * string) :=
  match keyword s "null" JNull with
  | Some r => Ok r
  | None =>
  match keyword s "true" (JBool true) with
  | Some r => Ok r
  | None =>
  match keyword s "false" (JBool false) with
  | Some r => Ok r
  | None =>
  match match_number max_digits s with
  | Some (Ok v, r) => Ok (v, r)
  | Some (Raise e, _) => Raise e
  | None =>
  match keyword s "NaN" (JFloat "NaN") with
  | Some r => Ok r
  | None =>
  match keyword s "Infinity" (JFloat "Infinity") with
  | Some r => Ok r
  | None =>
  match keyword s "-Infinity" (JFloat "-Infinity") with
  | Some r => Ok r
  | None => Raise JSONDecodeError
  end end end end end end end.

(** The array loop, at the start of an item; [scan] decodes an item.
    Every turn takes at least one character, so the loop is run on a
    budget [n] that is at least the length of the text: when it is
    spent the text is empty, and no value starts there. *)
Fixpoint array_items (scan : string -> result (json * string))
    (n : nat) (s : string) (values : list json) : result (json * string) :=
  match n with
  | O => Raise JSONDecodeError
  | S n =>
      match scan s with
      | Raise e => Raise e
      | Ok (value, r) =>
          let values := values ++ [value] in
          match skip_ws r with
          | String "]" r' => Ok (JArr values, r')
          | String "," r' => array_items scan n (skip_ws r') values
          | _ => Raise JSONDecodeError
          end
      end
  end.

(** The object loop, just after the opening quote of a key, on a budget
    of the same kind. *)
Fixpoint object_items (scan : string -> result (json * string))
    (n : nat) (s : string) (pairs : gmap ustring json)
  : result (json * string) :=
  match n with
  | O => Raise JSONDecodeError
  | S n =>
      match scanstring s with
      | Raise e => Raise e
      | Ok (key, r) =>
          match skip_ws r with
          | String ":" r' =>
              match scan (skip_ws r') with
              | Raise e => Raise e
              | Ok (value, r) =>
                  let pairs := <[key := value]> pairs in
                  match skip_ws r with
                  | String "}" r' => Ok (JObj pairs, r')
                  | String "," r' =>
                      match skip_ws r' with
                      | String "034" r'' => object_items scan n r'' pairs
                      | _ => Raise JSONDecodeError
                      end
                  | _ => Raise JSONDecodeError
                  end
              end
          | _ => Raise JSONDecodeError
          end
      end
  end.

(** [scan_once]: entering an object or an array takes one of the
    [depth] levels of recursion that are left. *)
Fixpoint scan_once (depth max_digits : nat) (s : string) {struct depth}
  : result (json * string) :=
  match s with
  | EmptyString => Raise JSONDecodeError
  | String c s' =>
      if Ascii.eqb c "034" then
        match scanstring s' with
        | Ok (str, r) => Ok (JStr str, r)
        | Raise e => Raise e
        end
      else if Ascii.eqb c "{" then
        match depth with
        | O => Raise RecursionError
        | S depth =>
            match skip_ws s' with
            | String "}" r => Ok (JObj ∅, r)
            | String "034" r =>
                object_items (scan_once depth max_digits)
                  (String.length r) r ∅
            | _ => Raise JSONDecodeError
            end
        end
      else if Ascii.eqb c "[" then
        match depth with
        | O => Raise RecursionError
        | S depth =>
            match skip_ws s' with
            | String "]" r => Ok (JArr [], r)
            | r =>
                array_items (scan_once depth max_digits)
                  (String.length r) r []
            end
        end
      else scan_atom max_digits s
  end.

(** [decoder.raw_decode(s)]: the value at the head of [s] and the index
    where it ends. *)
Definition raw_decode_with (depth max_digits : nat) (s : string)
  : result (json * nat) :=
  match scan_once depth max_digits s with
  | Ok (obj, rest) => Ok (obj, String.length s - String.length rest)
  | Raise e => Raise e
  end.

(** [json.loads(s)]: one value, white space around it, nothing else. *)
Definition loads_with (depth max_digits : nat) (s : string) : result json :=
  let s := skip_ws s in
  match scan_once depth max_digits s with
  | Ok (obj, rest) =>
      match skip_ws rest with
      | EmptyString => Ok obj
      | _ => Raise JSONDecodeError
      end
  | Raise e => Raise e
  end.

(** The limits of a default interpreter: with the recursion limit of
    1000, the script leaves 995 levels to the decoder (CPython 3.11);
    integer literals may have 4300 digits.  [loads] is given the same
    limits. *)
Definition RECURSION_LEFT : nat := 995.

Definition INT_MAX_STR_DIGITS : nat := 4300.

Definition raw_decode : string -> result (json * nat) :=
  raw_decode_with RECURSION_LEFT INT_MAX_STR_DIGITS.

Definition loads : string -> result json :=
  loads_with RECURSION_LEFT INT_MAX_STR_DIGITS.

End Json.

(** ** iter_json_array

    The generator is modelled by the list of the values it yields and the
    way it ends.  A file is the text that is still to be read. *)

Inductive ending :=
| Returned
| Raised (e : exn)
| Exhausted.

(** How the inner [while True] loop is left: by [break], with the buffer
    as it stands, or by ending the generator. *)
Inductive inner_exit :=
| Break (buf : string)
| Stop (e : ending).

(** [f.read(n)]: the next [n] characters, fewer at the end of the file,
    and the file after them. *)
Definition read (f : string) (n : nat) : string * string :=
  (Text.slice_to f n, Text.slice_from f n).

Section ArrayStreamer.

Context {value : Type}.

(** [decoder.raw_decode] *)
Variable raw_decode : string -> result (value * nat).

(** The size of the reads of the second loop (65536 in the source). *)
Variable size : nat.

(** The first loop: read one character at a time up to the first [[]. *)
Fixpoint find_array_start (f : string) : option string :=
  match f with
  | EmptyString => None
  | String ch f' =>
      if Text.char_isspace ch then find_array_start f'
      else if Ascii.eqb ch "[" then Some f'
      else find_array_start f'
  end.

(** The inner loop.  Every turn that does not leave the loop shortens
    the buffer, as long as the decoder takes at least one character, so
    it is run on a budget of turns; [Exhausted] is a spent budget, which
    does not happen with such a decoder ([iter_json_array_ends]). *)
Fixpoint drain (turns : nat) (buf : string) : list value * inner_exit :=
  match turns with
  | O => ([], Stop Exhausted)
  | S turns' =>
      let buf := Text.lstrip buf in
      if negb (Text.truthy buf) then ([], Break buf)
      else if Text.startswith buf "]" then ([], Stop Returned)
      else if Text.startswith buf "," then
        drain turns' (Text.slice_from buf 1)
      else
        match raw_decode buf with
        | Raise JSONDecodeError => ([], Break buf)
        | Raise e => ([], Stop (Raised e))
        | Ok (obj, idx) =>
            let (yielded, exit) := drain turns' (Text.slice_from buf idx) in
            (obj :: yielded, exit)
        end
  end.

(** The second loop: read a chunk, add it to the buffer, drain. *)
Fixpoint fill (turns : nat) (f buf : string) : list value * ending :=
  match turns with
  | O => ([], Exhausted)
  | S turns' =>
      let (chunk, f) := read f size in
      if negb (Text.truthy chunk) then ([], Returned)
      else
        let buf := buf +:+ chunk in
        match drain (String.length buf + 1) buf with
        | (yielded, Break buf) =>
            let (more, e) := fill turns' f buf in
            (yielded ++ more, e)
        | (yielded, Stop e) => (yielded, e)
        end
  end.

(** The generator on the text of the file at [path]. *)
Definition iter_json_array_sized (f : string) : list value * ending :=
  match find_array_start f with
  | None => ([], Returned)
  | Some f => fill (String.length f + 1) f EmptyString
  end.

End ArrayStreamer.

(** The size of the reads in the source. *)
#[warnings="-abstract-large-number"]
Definition CHUNK : nat := 65536.

Definition iter_json_array {value : Type}
    (raw_decode : string -> result (value * nat)) (f : string)
  : list value * ending :=
  iter_json_array_sized raw_decode CHUNK f.

(** ** main

    The loop of [main] over the cards the generator yields; the output is
    the list of the strings handed to [print].  The cards are records of
    the card schema; an item of the array that is no object has no
    [get], so that [build_block] raises [AttributeError] on it and
    [main] ends there, which is left out of the model. *)

Fixpoint print_blocks (cards : list card) : list string :=
  match cards with
  | [] => []
  | c :: cards =>
      let block := build_block c in
      if negb (truthy block) then print_blocks cards
      else
        match block with
        | Some block => block :: "---" :: print_blocks cards
        | None => print_blocks cards
        end
  end.

(** * The vocabulary of the properties

    The predicates the statements below are written with, and the inputs
    of the examples. *)

(** There is a letter at index [i] of [text]. *)
Definition letter_at (text : string) (i : nat) : Prop :=
  exists c, String.get i text = Some c /\ Text.char_isalpha c = true.

(** [marker] occurs in [text] at index [i]. *)
Definition occurs_at (text marker : string) (i : nat) : Prop :=
  String.substring i (String.length marker) text = marker.

(** Neither the character before the occurrence at [i] nor the one after
    it is a letter; a missing character counts as no letter. *)
Definition at_word_boundaries (text marker : string) (i : nat) : Prop :=
  (i = 0 \/ ~ letter_at text (i - 1))
  /\ ~ letter_at text (i + String.length marker).

(** The test of the loop body. *)
Definition boundaries_clear (text marker : string) (start : nat) : bool :=
  let before :=
    if (0 <? start)%nat then Text.getitem text (start - 1) else EmptyString in
  let after_index := (start + String.length marker)%nat in
  let after :=
    if (after_index <? String.length text)%nat
    then Text.getitem text after_index
    else EmptyString in
  negb (Text.isalpha before) && negb (Text.isalpha after).

(** The rule in the words of the specification: the type line contains
    one of the labels, or is ["Card"] once trimmed. *)
Definition type_line_excluded (type_line : string) : Prop :=
  (exists label pre post,
      In label non_playable_types /\ type_line = pre +:+ label +:+ post)
  \/ Text.strip type_line = "Card".

(** A silver-bordered instant. *)
Definition silver_instant : card :=
  Card
    (<["name" := "Bolt"]> (<["type_line" := "Instant"]>
      {[ "border_color" := "silver" ]}))
    None None None.

(** A card that is legal nowhere. *)
Definition banned_everywhere : card :=
  Card {[ "name" := "Bolt" ]} None
    (Some (<["standard" := "not_legal"]> {[ "modern" := "not_legal" ]}))
    None.

(** The lines of a block in the words of the specification: the name
    line, then each optional line when its value is there. *)
Definition when_nonempty (label : string) (v : option string) : list string :=
  match v with
  | Some s => if Text.truthy s then [label +:+ s] else []
  | None => []
  end.

Definition when_present (label : string) (v : option string) : list string :=
  match v with
  | Some s => [label +:+ s]
  | None => []
  end.

Definition when_both (label : string) (v w : option string) : list string :=
  match v, w with
  | Some p, Some t => [label +:+ p +:+ "/" +:+ t]
  | _, _ => []
  end.

Definition block_lines (name : string)
    (mana_cost type_line power toughness loyalty defense oracle_text
      : option string) : list string :=
  ["Name: " +:+ name]
  ++ when_nonempty "Mana cost: " mana_cost
  ++ when_nonempty "Type: " type_line
  ++ when_both "Power/Toughness: " power toughness
  ++ when_present "Loyalty: " loyalty
  ++ when_present "Defense: " defense
  ++ when_nonempty EmptyString oracle_text.

(** The lines of the block of a card whose name resolves to [name]. *)
Definition card_lines (c : card) (name : string) : list string :=
  let f := first_face c in
  block_lines name (pick_field c f "mana_cost") (pick_field c f "type_line")
    (pick_field c f "power") (pick_field c f "toughness")
    (pick_field c f "loyalty") (pick_field c f "defense")
    (pick_field c f "oracle_text").

(** All white space. *)
Definition blank (ws : string) : Prop :=
  Text.all_chars Text.char_isspace ws = true.

(** [t] is the text of the value [v], and says so by itself: it decodes
    to [v] whatever follows it, and no shorter beginning of it decodes. *)
Record delimited {value : Type} (raw_decode : string -> result (value * nat))
    (t : string) (v : value) : Prop := Delimited {
  delimited_head :
    exists c t', t = String c t' /\ Text.char_isspace c = false
                 /\ Ascii.eqb c "]" = false /\ Ascii.eqb c "," = false;
  delimited_whole :
    forall rest, raw_decode (t +:+ rest) = Ok (v, String.length t);
  delimited_part :
    forall n, 0 < n < String.length t ->
      raw_decode (Text.slice_to t n) = Raise JSONDecodeError
}.

(** What may follow the opening bracket: values and commas with white
    space between them, up to a closing bracket; anything after it. *)
Inductive array_body {value : Type}
    (raw_decode : string -> result (value * nat))
  : string -> list value -> Prop :=
| body_close ws rest :
    blank ws -> array_body raw_decode (ws +:+ String "]" rest) []
| body_comma ws b vs :
    blank ws -> array_body raw_decode b vs ->
    array_body raw_decode (ws +:+ String "," b) vs
| body_value ws t v b vs :
    blank ws -> delimited raw_decode t v -> array_body raw_decode b vs ->
    array_body raw_decode (ws +:+ t +:+ b) (v :: vs).

(** A two-faced card without a mana cost of its own. *)
Definition two_faced : card :=
  Card {[ "name" := "Delver" ]} None None
    (Some [ {[ "mana_cost" := "{U}" ]}; {[ "mana_cost" := "{G}" ]} ]).

(** A record with an empty top-level name and a named first face. *)
Definition nameless_with_face : card :=
  Card {[ "name" := EmptyString ]} None None
    (Some [ {[ "name" := "Face" ]} ]).

(** The record of the specification's scenario. *)
Definition bolt : card :=
  Card
    (<["name" := "Bolt"]> (<["mana_cost" := "{R}"]>
      (<["type_line" := "Instant"]> (<["oracle_text" := "Deal 3 damage."]>
        {[ "border_color" := "black" ]}))))
    None (Some {[ "standard" := "legal" ]}) None.

(** A creature: power and toughness, neither loyalty nor defense. *)
Definition bear : card :=
  Card
    (<["name" := "Bear"]> (<["type_line" := "Creature"]>
      (<["power" := "2"]> {[ "toughness" := "3" ]})))
    None None None.

(** The text up to the first newline. *)
Fixpoint first_line (s : string) : string :=
  match s with
  | EmptyString => EmptyString
  | String c s' =>
      if Ascii.eqb c (ascii_of_nat 10) then EmptyString
      else String c (first_line s')
  end.

(** A token, by its layout. *)
Definition token_card : card :=
  Card (<["name" := "Goblin"]> {[ "layout" := " Token " ]}) None None None.

(** A record with a type line and no name. *)
Definition nameless_card : card :=
  Card {[ "type_line" := "Instant" ]} None None None.

(** [n] spaces. *)
Fixpoint spaces (n : nat) : string :=
  match n with
  | O => EmptyString
  | S n => String " " (spaces n)
  end.

(** The text attributes the functions read. *)
Definition READ_KEYS : list string :=
  [ "name"; "mana_cost"; "type_line"; "oracle_text"; "power"; "toughness";
    "loyalty"; "defense"; "border_color"; "layout" ].

(** Two records that differ only in what [build_block] does not look
    at: other text attributes, the faces after the first, a missing
    against an empty list of faces or mapping of legalities, a missing
    against a false acorn flag. *)
Definition same_reads (c c' : card) : Prop :=
  (forall key, In key READ_KEYS ->
     get (text_attrs c) key = get (text_attrs c') key)
  /\ acorn c = acorn c'
  /\ default ∅ (legalities c) = default ∅ (legalities c')
  /\ first_face c = first_face c'.

(** The scenario record with a rarity, an empty list of faces and an
    acorn flag that is false. *)
Definition bolt_with_more : card :=
  Card (<["rarity" := "common"]> (text_attrs bolt)) (Some false)
    (legalities bolt) (Some []).

(** A card given by one face. *)
Definition front_face : face :=
  <["name" := "Delver"]> (<["mana_cost" := "{U}"]> {[ "power" := "1" ]}).

(** What [main] prints for a list of blocks: each block, then the
    separator line. *)
Definition separated (blocks : list string) : list string :=
  flat_map (fun block => [block; "---"]) blocks.

(** A line that opens a block: the name line, and whatever follows it. *)
Definition opens_with_name (block : string) : Prop :=
  exists name rest, name <> EmptyString /\ block = "Name: " +:+ name +:+ rest.

(** A card whose only oracle text is on its first face. *)
Definition seeker_faces : card :=
  Card {[ "name" := "Seeker" ]} None None
    (Some [ {[ "oracle_text" := "Seek a card." ]} ]).


(** The condition of the specification on a text of code points, in
    its words: the characters from [i] to [i + n] are the marker, letter
    case aside, with no letter right before them and no letter right
    after them. *)
Definition stated_occurrence (t marker : Wide.text) (i n : nat) : bool :=
  Wide.eqb (Wide.sample_lower (take n (drop i t))) marker
  && negb ((0 <? i)%nat
           && Wide.isalpha Wide.sample_isalpha (Wide.getitem t (i - 1)))
  && negb (Wide.isalpha Wide.sample_isalpha (Wide.getitem t (i + n))).

Definition stated_exclusion (t : Wide.text) : bool :=
  existsb (fun marker =>
    existsb (fun i =>
      existsb (fun n => stated_occurrence t (Wide.of_string marker) i n)
              (seq 0 (S (length t))))
            (seq 0 (S (length t))))
    DIGITAL_ONLY_ORACLE_MARKERS.

(** The marker [seek] after a capital I with a dot above. *)
Definition dotted_seek : Wide.text :=
  Wide.CAPITAL_I_DOT :: Wide.of_string "seek".

(** A record whose name holds a line break. *)
Definition two_line_name : card :=
  Card {[ "name" := "A" +:+ newline +:+ "B" ]} None None None.

Import Json.

(** A character that ends the value before it: white space, a comma or
    a closing bracket or brace. *)
Definition stops (c : ascii) : bool :=
  is_ws c || Ascii.eqb c "," || Ascii.eqb c "]" || Ascii.eqb c "}".

Definition stop_head (r : string) : bool :=
  match r with
  | String c _ => stops c
  | EmptyString => false
  end.

(** The text opens a string, an object or an array. *)
Definition opens_container (t : string) : bool :=
  match t with
  | String c _ => Ascii.eqb c "034" || Ascii.eqb c "{" || Ascii.eqb c "["
  | EmptyString => false
  end.

(** The number of digits at the head of the text. *)
Fixpoint digit_run (s : string) : nat :=
  match s with
  | String c s' => if is_digit c then S (digit_run s') else 0
  | EmptyString => 0
  end.

(** No run of digits in the text is longer than [m]. *)
Fixpoint digit_runs_within (m : nat) (s : string) : bool :=
  match s with
  | EmptyString => true
  | String _ s' => (digit_run s <=? m)%nat && digit_runs_within m s'
  end.

(** The integer literals of the text are within the limit of the
    conversion: there is no limit, or no run of digits is longer than
    it. *)
Definition numbers_fit (max_digits : nat) (s : string) : bool :=
  (max_digits =? 0)%nat || digit_runs_within max_digits s.









(** White space of JSON: space, tab, line feed, carriage return. *)
Definition json_blank (ws : string) : Prop :=
  Text.all_chars is_ws ws = true.




(** [n] opening brackets. *)
Fixpoint brackets (n : nat) : string :=
  match n with
  | O => EmptyString
  | S n => String "[" (brackets n)
  end.

(** The digit [1], [n] times. *)
Fixpoint ones (n : nat) : string :=
  match n with
  | O => EmptyString
  | S n => String "1" (ones n)
  end.

(** The literal fits the conversion to an integer. *)
Definition literal_fits (max_digits : nat) (d : string) : bool :=
  (max_digits =? 0)%nat || (String.length d <=? max_digits)%nat.

(** The literal of a positive integer: digits, the first of them not a
    zero. *)
Definition positive_literal (d : string) : bool :=
  match d with
  | String c d' =>
      is_digit c && negb (Ascii.eqb c "0") && Text.all_chars is_digit d'
  | EmptyString => false
  end.



(** * Properties *)

(** ** Text *)

Section TextFacts.

Lemma app_nil_l (s : string) : EmptyString +:+ s = s.
Proof. reflexivity. Qed.

Lemma app_cons (c : ascii) (s t : string) :
  String c s +:+ t = String c (s +:+ t).
Proof. reflexivity. Qed.

Lemma app_nil_r (s : string) : s +:+ EmptyString = s.
Proof. induction s as [|c s IH]; [done|]. by rewrite app_cons, IH. Qed.

Lemma app_assoc (s t u : string) : (s +:+ t) +:+ u = s +:+ (t +:+ u).
Proof.
  induction s as [|c s IH]; [done|]. by rewrite !app_cons, IH.
Qed.

Lemma length_app (s t : string) :
  String.length (s +:+ t) = String.length s + String.length t.
Proof.
  induction s as [|c s IH]; [done|]. rewrite app_cons. simpl. by rewrite IH.
Qed.

Lemma truthy_false (s : string) : Text.truthy s = false <-> s = EmptyString.
Proof. destruct s; simpl; split; congruence. Qed.

Lemma truthy_true (s : string) : Text.truthy s = true <-> s <> EmptyString.
Proof. destruct s; simpl; split; congruence. Qed.

Lemma prefix_nil (s : string) : String.prefix EmptyString s = true.
Proof. by destruct s. Qed.

Lemma prefix_cons (a b : ascii) (p s : string) :
  String.prefix (String a p) (String b s)
  = if ascii_dec a b then String.prefix p s else false.
Proof. simpl. by destruct (ascii_dec a b). Qed.

(** [prefix] finds exactly the texts that start with the given one. *)
Lemma prefix_app (p s : string) :
  String.prefix p s = true <-> exists post, s = p +:+ post.
Proof.
  revert s. induction p as [|a p IH]; intros s.
  - rewrite prefix_nil. split; [intros _; exists s; reflexivity | done].
  - destruct s as [|b s].
    + split; [done | intros [post H]; by rewrite app_cons in H].
    + rewrite prefix_cons. destruct (ascii_dec a b) as [->|Hne].
      * rewrite IH. split; intros [post H]; exists post.
        -- by rewrite app_cons, H.
        -- rewrite app_cons in H. congruence.
      * split; [done | intros [post H]]. rewrite app_cons in H. congruence.
Qed.

Lemma contains_nil (sub : string) :
  Text.contains EmptyString sub = String.prefix sub EmptyString.
Proof. simpl. by rewrite orb_false_r. Qed.

Lemma contains_cons (c : ascii) (s sub : string) :
  Text.contains (String c s) sub
  = String.prefix sub (String c s) || Text.contains s sub.
Proof. reflexivity. Qed.

(** [sub in s]: [s] is some text, then [sub], then some text. *)
Lemma contains_spec (s sub : string) :
  Text.contains s sub = true
  <-> exists pre post, s = pre +:+ sub +:+ post.
Proof.
  induction s as [|c s IH].
  - rewrite contains_nil, prefix_app. split.
    + intros [post H]. exists EmptyString, post. exact H.
    + intros (pre & post & H). destruct pre as [|a pre].
      * by exists post.
      * by rewrite app_cons in H.
  - rewrite contains_cons, orb_true_iff, prefix_app, IH. split.
    + intros [[post H] | (pre & post & H)].
      * exists EmptyString, post. exact H.
      * exists (String c pre), post. by rewrite app_cons, H.
    + intros (pre & post & H). destruct pre as [|a pre].
      * left. by exists post.
      * right. rewrite app_cons in H. injection H as _ H. by exists pre, post.
Qed.

End TextFacts.

(** ** pick_field *)

(** C8: [pick_field] returns the record's own value when it is present
    and not null; otherwise the value of the first face when there is
    one (which may itself be missing); otherwise [None]. *)
Theorem pick_field_resolution (c : card) (f : option face) (key : string) :
  (forall v, get (text_attrs c) key = Some v -> pick_field c f key = Some v)
  /\ (forall f', get (text_attrs c) key = None -> f = Some f' ->
        pick_field c f key = get f' key)
  /\ (get (text_attrs c) key = None -> f = None -> pick_field c f key = None).
Proof.
  unfold pick_field. repeat split.
  - intros v Hv. by rewrite Hv.
  - intros f' Hv ->. by rewrite Hv.
  - intros Hv ->. by rewrite Hv.
Qed.

(** The mana cost of a two-faced card without one of its own is the one
    of its first face. *)
Lemma two_faced_mana_cost :
  pick_field two_faced (first_face two_faced) "mana_cost" = Some "{U}"
  /\ pick_field two_faced (first_face two_faced) "name" = Some "Delver"
  /\ pick_field two_faced None "mana_cost" = None.
Proof.
  pose proof (pick_field_resolution two_faced (first_face two_faced)
                "mana_cost") as (_ & Hface & _).
  split; [|split; vm_compute; reflexivity].
  rewrite (Hface {[ "mana_cost" := "{U}" ]});
    [vm_compute; reflexivity | reflexivity | reflexivity].
Defined.

(** ** Markers between word boundaries *)

Lemma marker_loop_step (turns : nat) (text marker : string) (start : nat) :
  marker_loop (S turns) text marker (Some start)
  = if boundaries_clear text marker start then Some true
    else marker_loop turns text marker (Text.find text marker (start + 1)).
Proof. reflexivity. Qed.

Section Indexing.

Lemma get_None (s : string) (i : nat) :
  String.get i s = None <-> String.length s <= i.
Proof.
  revert i. induction s as [|c s IH]; intros i; simpl.
  - split; [lia | done].
  - destruct i as [|i]; [split; [done | lia]|]. rewrite IH. lia.
Qed.

(** The callers of [getitem] stay in range. *)
Lemma getitem_in_range (text : string) (i : nat) :
  i < String.length text ->
  exists c, String.get i text = Some c
            /\ Text.getitem text i = String c EmptyString.
Proof.
  intros Hi. unfold Text.getitem.
  destruct (String.get i text) as [c|] eqn:Hget; [by exists c|].
  apply get_None in Hget. lia.
Qed.

Lemma isalpha_getitem (text : string) (i : nat) :
  Text.isalpha (Text.getitem text i) = true <-> letter_at text i.
Proof.
  unfold Text.getitem, letter_at.
  destruct (String.get i text) as [c|]; simpl.
  - rewrite andb_true_r. split; [by exists c | by intros (? & [= <-] & ?)].
  - split; [done | by intros (? & ? & ?)].
Qed.

Lemma boundaries_clear_spec (text marker : string) (i : nat) :
  boundaries_clear text marker i = true <-> at_word_boundaries text marker i.
Proof.
  unfold boundaries_clear, at_word_boundaries.
  rewrite andb_true_iff, !negb_true_iff, <- !not_true_iff_false.
  assert (Hafter :
    Text.isalpha
      (if (i + String.length marker <? String.length text)%nat
       then Text.getitem text (i + String.length marker)
       else EmptyString) = true
    <-> letter_at text (i + String.length marker)).
  { destruct (Nat.ltb_spec (i + String.length marker) (String.length text))
      as [Hlt|Hge]; [apply isalpha_getitem|].
    split; [done|]. intros (c & Hget & _).
    apply get_None in Hge. congruence. }
  rewrite Hafter. destruct i as [|i]; simpl.
  - split; [intros [_ H]; split; [by left | done] | intros [_ H]; by split].
  - rewrite Nat.sub_0_r, isalpha_getitem.
    split; [intros [H1 H2]; split; [by right | done]|].
    intros [[H1|H1] H2]; [done | by split].
Qed.

Lemma length_substring (s : string) (n m : nat) :
  String.length (String.substring n m s) = Nat.min m (String.length s - n).
Proof.
  revert n m. induction s as [|c s IH]; intros [|n] [|m];
    cbn [String.substring String.length]; rewrite ?IH; lia.
Qed.

(** An occurrence of a non-empty marker lies inside the text. *)
Lemma occurs_at_bound (text marker : string) (i : nat) :
  marker <> EmptyString -> occurs_at text marker i ->
  i + String.length marker <= String.length text.
Proof.
  intros Hne Hocc. unfold occurs_at in Hocc.
  assert (H := length_substring text i (String.length marker)).
  rewrite Hocc in H.
  assert (0 < String.length marker) by (destruct marker; simpl; [done|lia]).
  lia.
Qed.

Lemma find_ge (text sub : string) (k m : nat) :
  Text.find text sub k = Some m -> k <= m.
Proof.
  unfold Text.find. revert k m.
  induction text as [|c text IH]; intros [|k] m; simpl; try lia; try done.
  destruct (String.index k sub text) as [j|] eqn:Hj; [|done].
  intros [= <-]. apply IH in Hj. lia.
Qed.

End Indexing.

(** The loop ends within its budget, and says [true] exactly when some
    occurrence at or after the first search position stands between word
    boundaries. *)
Lemma marker_loop_spec (text marker : string) :
  marker <> EmptyString ->
  forall turns k,
    String.length text + 2 - k <= turns -> k <= String.length text + 1 ->
    exists b,
      marker_loop turns text marker (Text.find text marker k) = Some b
      /\ (b = true
          <-> exists i, k <= i /\ occurs_at text marker i
                        /\ at_word_boundaries text marker i).
Proof.
  intros Hne. induction turns as [|turns IH]; intros k Hturns Hk; [lia|].
  destruct (Text.find text marker k) as [m|] eqn:Hfind.
  - assert (Hge := find_ge _ _ _ _ Hfind).
    assert (Hocc : occurs_at text marker m)
      by (eapply String.index_correct1; exact Hfind).
    assert (Hm := occurs_at_bound _ _ _ Hne Hocc).
    assert (Hbefore : forall i, k <= i -> i < m -> ~ occurs_at text marker i)
      by (intros i; eapply String.index_correct2; exact Hfind).
    rewrite marker_loop_step.
    destruct (boundaries_clear text marker m) eqn:Hclear.
    + exists true. split; [done|]. split; [intros _|done].
      exists m. by rewrite <- boundaries_clear_spec.
    + destruct (IH (m + 1)) as (b & Hloop & Hb); [lia | lia |].
      exists b. split; [done|]. rewrite Hb. split.
      * intros (i & Hi & H). exists i. split; [lia | done].
      * intros (i & Hi & Hocci & Hbi). exists i. split; [|done].
        destruct (Nat.lt_trichotomy i m) as [Hlt|[->|Hgt]]; [|  |lia].
        -- by destruct (Hbefore i Hi Hlt).
        -- apply boundaries_clear_spec in Hbi. congruence.
  - exists false. split; [done|]. split; [done|].
    intros (i & Hi & Hocc & _). exfalso.
    eapply String.index_correct3; [exact Hfind | exact Hne | exact Hi | exact Hocc].
Qed.

Lemma contains_marker_with_boundaries_spec (text marker : string) :
  marker <> EmptyString ->
  contains_marker_with_boundaries text marker = true
  <-> exists i, occurs_at text marker i /\ at_word_boundaries text marker i.
Proof.
  intros Hne. unfold contains_marker_with_boundaries.
  destruct (marker_loop_spec text marker Hne (String.length text + 2) 0)
    as (b & -> & Hb); [lia | lia |].
  rewrite Hb. split.
  - intros (i & _ & H). by exists i.
  - intros (i & H). exists i. split; [lia | done].
Qed.

(** The loop never runs out of turns. *)
Lemma marker_loop_returns (text marker : string) :
  marker <> EmptyString ->
  marker_loop (String.length text + 2) text marker (Text.find text marker 0)
  <> None.
Proof.
  intros Hne.
  destruct (marker_loop_spec text marker Hne (String.length text + 2) 0)
    as (b & -> & _); [lia | lia | done].
Qed.

Section Lowering.

(** On Latin-1 text lowering keeps every character in its place, so an
    index of the lowered text is an index of the text; beyond Latin-1 it
    does not ([Wide]). *)

(** Lowering a letter gives a letter, and lowering anything else
    changes nothing. *)
Lemma isalpha_lower (c : ascii) :
  Text.char_isalpha (Text.char_lower c) = Text.char_isalpha c.
Proof. destruct c as [[] [] [] [] [] [] [] []]; vm_compute; reflexivity. Qed.

Lemma lower_substring (s : string) (i n : nat) :
  Text.lower (String.substring i n s) = String.substring i n (Text.lower s).
Proof.
  revert i n. induction s as [|c s IH]; intros [|i] [|n]; simpl;
    rewrite ?IH; reflexivity.
Qed.

Lemma get_lower (s : string) (i : nat) :
  String.get i (Text.lower s) = Text.char_lower <$> String.get i s.
Proof.
  revert i. induction s as [|c s IH]; intros [|i]; simpl; done.
Qed.

Lemma letter_at_lower (s : string) (i : nat) :
  letter_at (Text.lower s) i <-> letter_at s i.
Proof.
  unfold letter_at. rewrite get_lower.
  destruct (String.get i s) as [c|]; simpl.
  - split; intros (c' & [= <-] & H).
    + exists c. by rewrite isalpha_lower in H.
    + exists (Text.char_lower c). by rewrite isalpha_lower.
  - split; by intros (? & ? & ?).
Qed.

Lemma at_word_boundaries_lower (s marker : string) (i : nat) :
  at_word_boundaries (Text.lower s) marker i <-> at_word_boundaries s marker i.
Proof. unfold at_word_boundaries. by rewrite !letter_at_lower. Qed.

End Lowering.

Lemma marker_not_empty (marker : string) :
  In marker DIGITAL_ONLY_ORACLE_MARKERS -> marker <> EmptyString.
Proof.
  simpl. intros H. repeat (destruct H as [<-|H]; [done|]). done.
Qed.

(** The marker rule as a whole: some marker of the list is found between
    word boundaries in the lowered text. *)
Lemma digital_only_spec (oracle_text : string) :
  digital_only (Some oracle_text) = true
  <-> exists marker,
        In marker DIGITAL_ONLY_ORACLE_MARKERS
        /\ contains_marker_with_boundaries (Text.lower oracle_text) marker
           = true.
Proof.
  unfold digital_only, has_digital_only_oracle_marker.
  destruct oracle_text as [|a s].
  - split; [done|]. intros (marker & Hin & H). simpl in Hin.
    repeat (destruct Hin as [<-|Hin]; [by vm_compute in H|]). done.
  - change (Text.truthy (String a s)) with true. rewrite andb_true_l.
    apply existsb_exists.
Qed.

(** The two boundary cases of the specification, and a text whose first
    occurrence is inside a word while a later one is not. *)
Example seeker_not_excluded :
  contains_marker_with_boundaries (Text.lower "Seeker") "seek" = false
  /\ digital_only (Some "Seeker") = false
  /\ digital_only (Some "Seek a card") = true
  /\ digital_only (Some "The seeker will seek.") = true.
Proof. repeat split; vm_compute; reflexivity. Qed.

(** ** Name resolution *)

(** C4 does not hold as stated: with an empty top-level name, the rule of
    [pick_field] keeps the empty name, while [build_block] takes the
    name of the first face and renders a block with it. *)
Lemma empty_name_falls_back_to_face :
  pick_field nameless_with_face (first_face nameless_with_face) "name"
    = Some EmptyString
  /\ resolve_name nameless_with_face (first_face nameless_with_face)
    = Some "Face"
  /\ build_block nameless_with_face = Some "Name: Face".
Proof. repeat split; vm_compute; reflexivity. Qed.

Lemma build_block_None (c : card) :
  build_block c = None
  <-> truthy (resolve_name c (first_face c)) = false
      \/ is_non_playable c (pick_field c (first_face c) "type_line")
           (pick_field c (first_face c) "oracle_text") = true.
Proof.
  unfold build_block.
  destruct (resolve_name c (first_face c)) as [name|]; simpl; [|tauto].
  destruct (Text.truthy name); simpl; [|tauto].
  destruct (is_non_playable _ _ _); [tauto|].
  split; [done | intros [?|?]; done].
Qed.

(** C4, amended: [build_block] resolves the name by truth value, not by
    presence.  Unless the top-level name is the empty string the result
    is the one [pick_field] would give; an empty top-level name falls
    back to the name of the first face.  No block is returned exactly
    when the name so resolved is missing or empty, or the record is not
    playable. *)
Theorem build_block_name_resolution (c : card) :
  (get (text_attrs c) "name" <> Some EmptyString ->
     resolve_name c (first_face c) = pick_field c (first_face c) "name")
  /\ (get (text_attrs c) "name" = Some EmptyString ->
        resolve_name c (first_face c)
        = match first_face c with
          | Some f => get f "name"
          | None => None
          end)
  /\ (build_block c = None
      <-> truthy (resolve_name c (first_face c)) = false
          \/ is_non_playable c (pick_field c (first_face c) "type_line")
               (pick_field c (first_face c) "oracle_text") = true).
Proof.
  split; [|split; [|apply build_block_None]].
  - intros Hne. unfold resolve_name, pick_field, or_else.
    destruct (get (text_attrs c) "name") as [[|a s]|]; simpl; try done.
    destruct (first_face c); simpl; [done|]. apply lookup_empty.
  - intros H. unfold resolve_name, or_else. rewrite H. simpl.
    destruct (first_face c); simpl; [done|]. apply lookup_empty.
Qed.

(** ** The exclusion rules *)

(** The rules are independent: the order of the tests does not matter. *)
Lemma is_non_playable_rules (c : card) (type_line oracle_text : option string) :
  is_non_playable c type_line oracle_text
  = silver_border c || acorn c || no_legal_format c || non_playable_layout c
    || non_playable_type type_line || theme_card oracle_text
    || digital_only oracle_text.
Proof.
  unfold is_non_playable.
  destruct (silver_border c), (acorn c), (no_legal_format c),
    (non_playable_layout c), (non_playable_type type_line),
    (theme_card oracle_text), (digital_only oracle_text); reflexivity.
Qed.

(** The marker rule on the lowered text: some marker of the list occurs
    there between word boundaries. *)
Lemma has_marker_spec (oracle_text : string) :
  has_digital_only_oracle_marker oracle_text = true
  <-> exists marker i,
        In marker DIGITAL_ONLY_ORACLE_MARKERS
        /\ occurs_at (Text.lower oracle_text) marker i
        /\ at_word_boundaries (Text.lower oracle_text) marker i.
Proof.
  unfold has_digital_only_oracle_marker. rewrite existsb_exists. split.
  - intros (marker & Hin & H). exists marker.
    apply contains_marker_with_boundaries_spec in H as (i & Hocc & Hb);
      [|by apply marker_not_empty].
    by exists i.
  - intros (marker & i & Hin & Hocc & Hb). exists marker. split; [done|].
    apply contains_marker_with_boundaries_spec;
      [by apply marker_not_empty | by exists i].
Qed.

(** The marker search on texts of code points, whatever the alphabet
    and the lowering. *)
Section WideMarkers.

Variable char_isalpha : N -> bool.
Variable lower : Wide.text -> Wide.text.

Lemma wide_startswith_spec (t p : Wide.text) :
  Wide.startswith t p = true <-> take (length p) t = p.
Proof.
  revert t. induction p as [|b p IH]; intros [|a t]; simpl; try done.
  rewrite andb_true_iff, N.eqb_eq, IH. split.
  - by intros [-> ->].
  - by intros [= -> ->].
Qed.

Lemma wide_find_at_Some (t sub : Wide.text) (i m : nat) :
  Wide.find_at t sub i = Some m ->
  exists j, m = i + j
            /\ Wide.startswith (drop j t) sub = true
            /\ forall j', j' < j -> Wide.startswith (drop j' t) sub = false.
Proof.
  revert i. induction t as [|a t IH]; intros i; cbn [Wide.find_at].
  - destruct (Wide.startswith [] sub) eqn:Hs; [|done].
    intros [= <-]. exists 0. split; [lia|]. split; [done | lia].
  - destruct (Wide.startswith (a :: t) sub) eqn:Hs.
    + intros [= <-]. exists 0. split; [lia|]. split; [done | lia].
    + intros (j & -> & Hj & Hbefore)%IH. exists (S j).
      split; [lia|]. split; [done|].
      intros [|j'] Hj'; [done|]. apply Hbefore. lia.
Qed.

Lemma wide_find_at_None (t sub : Wide.text) (i : nat) :
  Wide.find_at t sub i = None ->
  forall j, Wide.startswith (drop j t) sub = false.
Proof.
  revert i. induction t as [|a t IH]; intros i; cbn [Wide.find_at].
  - destruct (Wide.startswith [] sub) eqn:Hs; [done|].
    intros _ j. by rewrite drop_nil.
  - destruct (Wide.startswith (a :: t) sub) eqn:Hs; [done|].
    intros H [|j]; [done|]. by apply (IH (S i)).
Qed.

Lemma wide_occurs_at_bound (t marker : Wide.text) (i : nat) :
  marker <> [] -> Wide.occurs_at t marker i -> i + length marker <= length t.
Proof.
  intros Hne Hocc. unfold Wide.occurs_at in Hocc.
  apply (f_equal length) in Hocc.
  rewrite length_take, length_drop in Hocc.
  destruct marker; [done|]. cbn [length] in Hocc |- *. lia.
Qed.

Lemma wide_find_Some (t sub : Wide.text) (k m : nat) :
  Wide.find t sub k = Some m ->
  k <= m /\ Wide.occurs_at t sub m
  /\ forall i, k <= i -> i < m -> ~ Wide.occurs_at t sub i.
Proof.
  unfold Wide.find. destruct (k <=? length t)%nat; [|done].
  intros (j & -> & Hj & Hbefore)%wide_find_at_Some.
  split; [lia|]. split.
  - apply wide_startswith_spec in Hj. by rewrite drop_drop in Hj.
  - intros i Hk Hi Hocc.
    specialize (Hbefore (i - k) ltac:(lia)).
    rewrite drop_drop in Hbefore. replace (k + (i - k)) with i in Hbefore by lia.
    apply wide_startswith_spec in Hocc. congruence.
Qed.

Lemma wide_find_None (t sub : Wide.text) (k : nat) :
  sub <> [] -> Wide.find t sub k = None ->
  forall i, k <= i -> ~ Wide.occurs_at t sub i.
Proof.
  unfold Wide.find. intros Hne Hfind i Hk Hocc.
  assert (Hbound := wide_occurs_at_bound _ _ _ Hne Hocc).
  destruct (Nat.leb_spec k (length t)) as [Hle|Hgt]; [|lia].
  apply wide_find_at_None with (j := i - k) in Hfind.
  rewrite drop_drop in Hfind. replace (k + (i - k)) with i in Hfind by lia.
  apply wide_startswith_spec in Hocc. congruence.
Qed.

Lemma wide_isalpha_getitem (t : Wide.text) (i : nat) :
  Wide.isalpha char_isalpha (Wide.getitem t i) = true
  <-> Wide.letter_at char_isalpha t i.
Proof.
  unfold Wide.getitem, Wide.letter_at.
  destruct (t !! i) as [c|]; simpl.
  - rewrite andb_true_r. split; [by exists c | by intros (? & [= <-] & ?)].
  - split; [done | by intros (? & ? & ?)].
Qed.

Lemma wide_marker_loop_step (turns : nat) (t marker : Wide.text) (i : nat) :
  Wide.marker_loop char_isalpha (S turns) t marker (Some i)
  = if negb (Wide.isalpha char_isalpha
               (if (0 <? i)%nat then Wide.getitem t (i - 1) else []))
       && negb (Wide.isalpha char_isalpha
                  (if (i + length marker <? length t)%nat
                   then Wide.getitem t (i + length marker) else []))
    then Some true
    else Wide.marker_loop char_isalpha turns t marker
           (Wide.find t marker (i + 1)).
Proof. reflexivity. Qed.

Lemma wide_boundaries_spec (t marker : Wide.text) (i : nat) :
  negb (Wide.isalpha char_isalpha
          (if (0 <? i)%nat then Wide.getitem t (i - 1) else []))
  && negb (Wide.isalpha char_isalpha
             (if (i + length marker <? length t)%nat
              then Wide.getitem t (i + length marker) else [])) = true
  <-> Wide.at_word_boundaries char_isalpha t marker i.
Proof.
  unfold Wide.at_word_boundaries.
  rewrite andb_true_iff, !negb_true_iff, <- !not_true_iff_false.
  assert (Hafter :
    Wide.isalpha char_isalpha
      (if (i + length marker <? length t)%nat
       then Wide.getitem t (i + length marker) else []) = true
    <-> Wide.letter_at char_isalpha t (i + length marker)).
  { destruct (Nat.ltb_spec (i + length marker) (length t))
      as [Hlt|Hge]; [apply wide_isalpha_getitem|].
    split; [done|]. intros (c & Hget & _).
    apply lookup_lt_Some in Hget. lia. }
  rewrite Hafter. destruct i as [|i]; simpl.
  - split; [intros [_ H]; split; [by left | done] | intros [_ H]; by split].
  - rewrite Nat.sub_0_r, wide_isalpha_getitem.
    split; [intros [H1 H2]; split; [by right | done]|].
    intros [[H1|H1] H2]; [done | by split].
Qed.

Lemma wide_marker_loop_spec (t marker : Wide.text) :
  marker <> [] ->
  forall turns k,
    length t + 2 - k <= turns -> k <= length t + 1 ->
    exists b,
      Wide.marker_loop char_isalpha turns t marker (Wide.find t marker k)
      = Some b
      /\ (b = true
          <-> exists i, k <= i /\ Wide.occurs_at t marker i
                        /\ Wide.at_word_boundaries char_isalpha t marker i).
Proof.
  intros Hne. induction turns as [|turns IH]; intros k Hturns Hk; [lia|].
  destruct (Wide.find t marker k) as [m|] eqn:Hfind.
  - destruct (wide_find_Some _ _ _ _ Hfind) as (Hge & Hocc & Hbefore).
    assert (Hm := wide_occurs_at_bound _ _ _ Hne Hocc).
    rewrite wide_marker_loop_step.
    destruct (negb _ && negb _) eqn:Hclear.
    + exists true. split; [done|]. split; [intros _|done].
      exists m. by rewrite <- wide_boundaries_spec.
    + destruct (IH (m + 1)) as (b & Hloop & Hb); [lia | lia |].
      exists b. split; [done|]. rewrite Hb. split.
      * intros (i & Hi & H). exists i. split; [lia | done].
      * intros (i & Hi & Hocci & Hbi). exists i. split; [|done].
        destruct (Nat.lt_trichotomy i m) as [Hlt|[->|Hgt]]; [|  |lia].
        -- by destruct (Hbefore i Hi Hlt).
        -- apply wide_boundaries_spec in Hbi. congruence.
  - exists false. split; [done|]. split; [done|].
    intros (i & Hi & Hocc & _). exfalso.
    by eapply wide_find_None.
Qed.

Lemma wide_contains_marker_spec (t marker : Wide.text) :
  marker <> [] ->
  Wide.contains_marker_with_boundaries char_isalpha t marker = true
  <-> exists i, Wide.occurs_at t marker i
                /\ Wide.at_word_boundaries char_isalpha t marker i.
Proof.
  intros Hne. unfold Wide.contains_marker_with_boundaries.
  destruct (wide_marker_loop_spec t marker Hne (length t + 2) 0)
    as (b & -> & Hb); [lia | lia |].
  rewrite Hb. split.
  - intros (i & _ & H). by exists i.
  - intros (i & H). exists i. split; [lia | done].
Qed.

Lemma wide_marker_not_empty (marker : string) :
  In marker DIGITAL_ONLY_ORACLE_MARKERS -> Wide.of_string marker <> [].
Proof.
  simpl. intros H. repeat (destruct H as [<-|H]; [done|]). done.
Qed.

Lemma wide_has_marker_spec (t : Wide.text) :
  Wide.has_digital_only_oracle_marker char_isalpha lower t = true
  <-> exists marker i,
        In marker DIGITAL_ONLY_ORACLE_MARKERS
        /\ Wide.occurs_at (lower t) (Wide.of_string marker) i
        /\ Wide.at_word_boundaries char_isalpha (lower t)
             (Wide.of_string marker) i.
Proof.
  unfold Wide.has_digital_only_oracle_marker. rewrite existsb_exists. split.
  - intros (marker & Hin & H). exists marker.
    apply wide_contains_marker_spec in H as (i & Hocc & Hb);
      [|by apply wide_marker_not_empty].
    by exists i.
  - intros (marker & i & Hin & Hocc & Hb). exists marker. split; [done|].
    apply wide_contains_marker_spec;
      [by apply wide_marker_not_empty | by exists i].
Qed.

End WideMarkers.

(** The counterexample to C3 as stated: lowering a capital I with a dot
    above gives an [i] and a combining dot, which is no letter; the text
    made of that capital and the marker [seek] is excluded, although in
    it the one occurrence of the marker, letter case aside, has a letter
    right before it.  On the two texts of the specification the search
    answers as the specification asks. *)
Lemma dotted_capital_excluded :
  Wide.sample_isalpha Wide.CAPITAL_I_DOT = true
  /\ Wide.sample_lower dotted_seek
     = Text.code "i" :: Wide.COMBINING_DOT :: Wide.of_string "seek"
  /\ Wide.has_digital_only_oracle_marker Wide.sample_isalpha Wide.sample_lower
       dotted_seek = true
  /\ stated_exclusion dotted_seek = false
  /\ Wide.has_digital_only_oracle_marker Wide.sample_isalpha Wide.sample_lower
       (Wide.of_string "Seek a card") = true
  /\ stated_exclusion (Wide.of_string "Seek a card") = true
  /\ Wide.has_digital_only_oracle_marker Wide.sample_isalpha Wide.sample_lower
       (Wide.of_string "Seeker") = false
  /\ stated_exclusion (Wide.of_string "Seeker") = false.
Proof. repeat split; vm_compute; reflexivity. Qed.

(** C3, amended: the oracle text triggers the marker rule exactly when
    some marker of the list occurs in the lowered text with no letter
    right before it and no letter right after it there (the start and
    the end of the text count as no letter); any occurrence will do, not
    only the first.  A text that is not empty and triggers the rule is
    excluded, and when no other rule applies the record is excluded
    exactly when its oracle text triggers the rule.  The condition on
    the lowered text is the one of the search on texts of any code
    points, whatever the alphabet and the lowering. *)
Theorem marker_exclusion (oracle_text : string) :
  (has_digital_only_oracle_marker oracle_text = true
   <-> exists marker i,
         In marker DIGITAL_ONLY_ORACLE_MARKERS
         /\ occurs_at (Text.lower oracle_text) marker i
         /\ at_word_boundaries (Text.lower oracle_text) marker i)
  /\ (forall c type_line,
        oracle_text <> EmptyString ->
        has_digital_only_oracle_marker oracle_text = true ->
        is_non_playable c type_line (Some oracle_text) = true)
  /\ (forall c type_line,
        silver_border c = false -> acorn c = false ->
        no_legal_format c = false -> non_playable_layout c = false ->
        non_playable_type type_line = false ->
        theme_card (Some oracle_text) = false ->
        is_non_playable c type_line (Some oracle_text)
        = has_digital_only_oracle_marker oracle_text)
  /\ (forall (char_isalpha : N -> bool) (lower : Wide.text -> Wide.text)
             (t : Wide.text),
        Wide.has_digital_only_oracle_marker char_isalpha lower t = true
        <-> exists marker i,
              In marker DIGITAL_ONLY_ORACLE_MARKERS
              /\ Wide.occurs_at (lower t) (Wide.of_string marker) i
              /\ Wide.at_word_boundaries char_isalpha (lower t)
                   (Wide.of_string marker) i).
Proof.
  split; [apply has_marker_spec|].
  split; [|split; [|apply wide_has_marker_spec]].
  - intros c type_line Hne Hmarker. rewrite is_non_playable_rules.
    unfold digital_only. rewrite Hmarker.
    apply truthy_true in Hne. rewrite Hne. by rewrite !orb_true_r.
  - intros c type_line H1 H2 H3 H4 H5 H6. rewrite is_non_playable_rules.
    rewrite H1, H2, H3, H4, H5, H6. cbn [orb]. unfold digital_only.
    destruct oracle_text as [|a s]; [|done].
    symmetry. apply not_true_is_false.
    intros (marker & i & Hin & Hocc & _)%has_marker_spec.
    apply occurs_at_bound in Hocc; [|by apply marker_not_empty].
    apply marker_not_empty in Hin. destruct marker; [done|].
    simpl in Hocc. lia.
Qed.

(** The text ["Seek a card"] triggers the rule by the marker [seek], and
    a record that has it is excluded; the text ["Seeker"] does not
    trigger it. *)
Lemma seek_a_card_excluded :
  has_digital_only_oracle_marker "Seek a card" = true
  /\ is_non_playable bolt (Some "Instant") (Some "Seek a card") = true
  /\ has_digital_only_oracle_marker "Seeker" = false.
Proof.
  assert (H : has_digital_only_oracle_marker "Seek a card" = true).
  { apply (proj1 (marker_exclusion "Seek a card")).
    exists "seek", 0. split; [simpl; tauto|]. split; [reflexivity|].
    split; [by left|].
    intros (c & Hget & Halpha). injection Hget as <-. discriminate Halpha. }
  split; [exact H|]. split; [|vm_compute; reflexivity].
  by apply (proj1 (proj2 (marker_exclusion "Seek a card"))).
Defined.


Lemma all_not_legal_spec (m : gmap string string) :
  all_not_legal m = true
  <-> forall k v, m !! k = Some v -> v = "not_legal".
Proof.
  unfold all_not_legal. rewrite forallb_forall. split.
  - intros H k v Hkv. apply String.eqb_eq, H, list_elem_of_In.
    apply list_elem_of_fmap. exists (k, v). split; [done|].
    by apply elem_of_map_to_list.
  - intros H v Hv. apply list_elem_of_In, list_elem_of_fmap in Hv.
    destruct Hv as ([k v'] & -> & Hkv). apply elem_of_map_to_list in Hkv.
    apply String.eqb_eq. by eapply H.
Qed.

(** C6: the legalities rule applies exactly when the [legalities] mapping
    is present, not empty, and all its values are ["not_legal"]; a record
    it applies to is excluded whatever its other fields and whatever the
    resolved type line and oracle text; a missing or empty mapping never
    triggers it. *)
Theorem legalities_exclusion (c : card) :
  (no_legal_format c = true
   <-> exists m, legalities c = Some m /\ m <> ∅
                 /\ forall k v, m !! k = Some v -> v = "not_legal")
  /\ (no_legal_format c = true ->
      forall type_line oracle_text,
        is_non_playable c type_line oracle_text = true)
  /\ (legalities c = None \/ legalities c = Some ∅ ->
      no_legal_format c = false).
Proof.
  repeat split.
  - unfold no_legal_format. rewrite andb_true_iff, negb_true_iff.
    rewrite bool_decide_eq_false, all_not_legal_spec.
    intros [Hne Hall]. destruct (legalities c) as [m|]; simpl in *; [|done].
    by exists m.
  - intros (m & Hm & Hne & Hall). unfold no_legal_format. rewrite Hm. simpl.
    rewrite andb_true_iff, negb_true_iff, bool_decide_eq_false.
    split; [done|]. by apply all_not_legal_spec.
  - intros H type_line oracle_text. rewrite is_non_playable_rules, H.
    by rewrite !orb_true_r.
  - intros [H|H]; unfold no_legal_format; rewrite H; reflexivity.
Qed.

(** A card whose legalities are all ["not_legal"] is excluded and
    rendered as nothing. *)
Lemma banned_everywhere_excluded :
  is_non_playable banned_everywhere None None = true
  /\ build_block banned_everywhere = None.
Proof.
  split; [|vm_compute; reflexivity].
  apply (proj1 (proj2 (legalities_exclusion banned_everywhere))).
  vm_compute. reflexivity.
Defined.

(** ** The type-line rule *)

Lemma non_playable_type_spec (type_line : string) :
  non_playable_type (Some type_line) = true <-> type_line_excluded type_line.
Proof.
  unfold non_playable_type, type_line_excluded.
  destruct type_line as [|a s].
  - split; [done|]. intros [(label & pre & post & Hin & H)|H]; [|done].
    destruct pre; [|done]. rewrite app_nil_l in H.
    simpl in Hin.
    repeat (destruct Hin as [<-|Hin]; [done|]). done.
  - change (Text.truthy (String a s)) with true. rewrite andb_true_l.
    rewrite orb_true_iff, existsb_exists, String.eqb_eq.
    split; (intros [H|H]; [left|by right]).
    + destruct H as (label & Hin & H). apply contains_spec in H.
      destruct H as (pre & post & H). by exists label, pre, post.
    + destruct H as (label & pre & post & Hin & H). exists label.
      split; [done|]. apply contains_spec. by exists pre, post.
Qed.

(** C5 does not hold as stated: a silver-bordered record is excluded
    although its type line holds no label and is not ["Card"]. *)
Lemma excluded_by_another_rule :
  pick_field silver_instant (first_face silver_instant) "type_line"
    = Some "Instant"
  /\ is_non_playable silver_instant (Some "Instant") None = true
  /\ ~ type_line_excluded "Instant"
  /\ build_block silver_instant = None.
Proof.
  split; [vm_compute; reflexivity|].
  split; [vm_compute; reflexivity|]. split; [|vm_compute; reflexivity].
  rewrite <- non_playable_type_spec. vm_compute. discriminate.
Qed.

(** C5, amended: the type-line test succeeds exactly when the type line
    contains one of the labels or is ["Card"] once trimmed; a record
    with such a type line is excluded whatever its other fields; and a
    record with a type line is excluded exactly when its type line is
    such or one of the other rules (border, acorn, legalities, layout,
    theme text, digital-only marker) applies. *)
Theorem type_line_exclusion (c : card) (type_line : string)
    (oracle_text : option string) :
  (non_playable_type (Some type_line) = true <-> type_line_excluded type_line)
  /\ (type_line_excluded type_line ->
      is_non_playable c (Some type_line) oracle_text = true)
  /\ (is_non_playable c (Some type_line) oracle_text = true
      <-> type_line_excluded type_line
          \/ silver_border c = true \/ acorn c = true
          \/ no_legal_format c = true \/ non_playable_layout c = true
          \/ theme_card oracle_text = true \/ digital_only oracle_text = true).
Proof.
  split; [apply non_playable_type_spec|]. rewrite <- non_playable_type_spec.
  rewrite is_non_playable_rules. split.
  - intros ->. by rewrite !orb_true_r.
  - rewrite !orb_true_iff. tauto.
Qed.

(** ** Rendering *)

Lemma build_block_playable (c : card) (name : string) :
  resolve_name c (first_face c) = Some name ->
  name <> EmptyString ->
  is_non_playable c (pick_field c (first_face c) "type_line")
    (pick_field c (first_face c) "oracle_text") = false ->
  build_block c = Some (String.concat newline (card_lines c name)).
Proof.
  intros Hname Hne Hplay. unfold build_block. rewrite Hname.
  apply truthy_true in Hne. rewrite Hne, Hplay. simpl negb. cbv iota.
  unfold card_lines, block_lines, when_nonempty, when_present, when_both.
  do 2 f_equal.
  destruct (pick_field c (first_face c) "mana_cost") as [m|];
    [destruct (Text.truthy m)|];
  (destruct (pick_field c (first_face c) "type_line") as [t|];
    [destruct (Text.truthy t)|]);
  destruct (pick_field c (first_face c) "power"),
    (pick_field c (first_face c) "toughness"),
    (pick_field c (first_face c) "loyalty"),
    (pick_field c (first_face c) "defense");
  (destruct (pick_field c (first_face c) "oracle_text") as [o|];
    [destruct (Text.truthy o)|]);
  reflexivity.
Qed.

Lemma build_block_Some (c : card) (block : string) :
  build_block c = Some block ->
  exists name,
    resolve_name c (first_face c) = Some name
    /\ name <> EmptyString
    /\ is_non_playable c (pick_field c (first_face c) "type_line")
         (pick_field c (first_face c) "oracle_text") = false
    /\ block = String.concat newline (card_lines c name).
Proof.
  intros H.
  destruct (resolve_name c (first_face c)) as [name|] eqn:Hname.
  2:{ unfold build_block in H. by rewrite Hname in H. }
  destruct (Text.truthy name) eqn:Hne.
  2:{ unfold build_block in H. by rewrite Hname, Hne in H. }
  destruct (is_non_playable c (pick_field c (first_face c) "type_line")
    (pick_field c (first_face c) "oracle_text")) eqn:Hplay.
  { unfold build_block in H. by rewrite Hname, Hne, Hplay in H. }
  apply truthy_true in Hne. exists name. repeat split; try done.
  rewrite (build_block_playable c name Hname Hne Hplay) in H. congruence.
Qed.

(** C7: a playable record whose name resolves is rendered as the name
    line followed, in this order, by the mana cost line (value present
    and not empty), the type line (present and not empty), the
    power/toughness line (both present), the loyalty line (present), the
    defense line (present) and the raw oracle text (present and not
    empty), joined by newlines; a missing value leaves no line. *)
Theorem rendered_block (c : card) (name : string) :
  resolve_name c (first_face c) = Some name ->
  name <> EmptyString ->
  is_non_playable c (pick_field c (first_face c) "type_line")
    (pick_field c (first_face c) "oracle_text") = false ->
  build_block c
  = Some (String.concat newline
            (block_lines name
               (pick_field c (first_face c) "mana_cost")
               (pick_field c (first_face c) "type_line")
               (pick_field c (first_face c) "power")
               (pick_field c (first_face c) "toughness")
               (pick_field c (first_face c) "loyalty")
               (pick_field c (first_face c) "defense")
               (pick_field c (first_face c) "oracle_text"))).
Proof. apply build_block_playable. Qed.

(** The scenario of the specification: the record is playable and its
    block is the four lines. *)
Lemma bolt_block :
  is_non_playable bolt (Some "Instant") (Some "Deal 3 damage.") = false
  /\ build_block bolt
     = Some ("Name: Bolt" +:+ newline +:+ "Mana cost: {R}" +:+ newline
             +:+ "Type: Instant" +:+ newline +:+ "Deal 3 damage.").
Proof.
  split; [vm_compute; reflexivity|].
  rewrite (rendered_block bolt "Bolt");
    [vm_compute; reflexivity | vm_compute; reflexivity | discriminate
    | vm_compute; reflexivity].
Defined.

Example bear_block :
  build_block bear
  = Some ("Name: Bear" +:+ newline +:+ "Type: Creature" +:+ newline
          +:+ "Power/Toughness: 2/3").
Proof. vm_compute. reflexivity. Qed.

(** ** The shape of a block and the loop of [main] *)

Lemma concat_cons (sep x : string) (xs : list string) :
  String.concat sep (x :: xs)
  = x +:+ match xs with
          | [] => EmptyString
          | _ => sep +:+ String.concat sep xs
          end.
Proof. destruct xs; simpl; [by rewrite app_nil_r | done]. Qed.

Lemma print_blocks_cons (c : card) (cards : list card) :
  print_blocks (c :: cards)
  = match build_block c with
    | Some EmptyString | None => print_blocks cards
    | Some block => block :: "---" :: print_blocks cards
    end.
Proof. simpl. by destruct (build_block c) as [[|a s]|]. Qed.

Lemma first_line_app (a b : string) :
  first_line a = a -> first_line (a +:+ b) = a +:+ first_line b.
Proof.
  induction a as [|c a IH]; [done|]. rewrite !app_cons. simpl.
  destruct (Ascii.eqb c _); [done|]. intros [= H]. by rewrite IH.
Qed.

Lemma block_shape (c : card) (block : string) :
  build_block c = Some block ->
  exists name rest,
    resolve_name c (first_face c) = Some name
    /\ name <> EmptyString
    /\ block = "Name: " +:+ name +:+ rest
    /\ (rest = EmptyString \/ exists r, rest = newline +:+ r).
Proof.
  intros (name & Hname & Hne & _ & ->)%build_block_Some.
  unfold card_lines, block_lines. rewrite <- List.app_comm_cons.
  rewrite concat_cons. simpl app at 1.
  set (others := (_ ++ _)%list).
  exists name. destruct others as [|l ls].
  - exists EmptyString. rewrite !app_nil_r. auto.
  - exists (newline +:+ String.concat newline (l :: ls)).
    split; [done|]. split; [done|]. split; [by rewrite app_assoc | eauto].
Qed.

(** The counterexample to C10 as stated: a name that holds a line break
    spreads over two lines of the block, and the first line of the block
    is not the whole name line. *)
Lemma name_with_line_break :
  resolve_name two_line_name (first_face two_line_name)
  = Some ("A" +:+ newline +:+ "B")
  /\ build_block two_line_name = Some ("Name: A" +:+ newline +:+ "B")
  /\ first_line ("Name: A" +:+ newline +:+ "B") = "Name: A"
  /\ "Name: A" <> "Name: " +:+ "A" +:+ newline +:+ "B".
Proof. repeat split; try (vm_compute; reflexivity). by vm_compute. Qed.

(** C10, amended: [build_block] gives either nothing or a text that
    starts with ["Name: "] followed by the resolved name, so never an
    empty text; what follows the name is nothing or starts with a
    newline, and when the name holds no newline the text up to the first
    newline is exactly ["Name: "] and the name.  The test [if not block]
    of [main] therefore skips exactly the records without a block, and a
    playable record whose name resolves is printed, followed by the
    separator. *)
Theorem block_printed_or_skipped (c : card) :
  (build_block c = None
   \/ exists name rest,
        resolve_name c (first_face c) = Some name
        /\ build_block c = Some ("Name: " +:+ name +:+ rest)
        /\ (rest = EmptyString \/ exists r, rest = newline +:+ r)
        /\ (first_line name = name ->
            first_line ("Name: " +:+ name +:+ rest) = "Name: " +:+ name))
  /\ (forall cards,
        print_blocks (c :: cards)
        = match build_block c with
          | Some block => block :: "---" :: print_blocks cards
          | None => print_blocks cards
          end)
  /\ (forall name,
        resolve_name c (first_face c) = Some name ->
        name <> EmptyString ->
        is_non_playable c (pick_field c (first_face c) "type_line")
          (pick_field c (first_face c) "oracle_text") = false ->
        exists block,
          build_block c = Some block
          /\ forall cards,
               print_blocks (c :: cards)
               = block :: "---" :: print_blocks cards).
Proof.
  assert (Hprint : forall cards,
            print_blocks (c :: cards)
            = match build_block c with
              | Some block => block :: "---" :: print_blocks cards
              | None => print_blocks cards
              end).
  { intros cards. rewrite print_blocks_cons.
    destruct (build_block c) as [block|] eqn:Hb; [|done].
    destruct (block_shape c block Hb) as (name & rest & _ & _ & -> & _).
    done. }
  split; [|split; [exact Hprint|]].
  - destruct (build_block c) as [block|] eqn:Hb; [right | by left].
    destruct (block_shape c block Hb) as (name & rest & Hname & _ & -> & Hrest).
    exists name, rest. repeat split; try done.
    intros Hline.
    rewrite <- app_assoc, (first_line_app ("Name: " +:+ name)).
    + destruct Hrest as [->|[r ->]]; apply app_nil_r.
    + by rewrite (first_line_app "Name: " name eq_refl), Hline.
  - intros name Hname Hne Hplay.
    exists (String.concat newline (card_lines c name)).
    assert (Hb := build_block_playable c name Hname Hne Hplay).
    split; [done|]. intros cards. by rewrite Hprint, Hb.
Qed.

(** The scenario of the specification, printed: the block, then the
    separator; a record without a name prints nothing. *)
Lemma bolt_printed :
  print_blocks [bolt; nameless_with_face; bolt]
  = [ "Name: Bolt" +:+ newline +:+ "Mana cost: {R}" +:+ newline
      +:+ "Type: Instant" +:+ newline +:+ "Deal 3 damage.";
      "---";
      "Name: Face";
      "---";
      "Name: Bolt" +:+ newline +:+ "Mana cost: {R}" +:+ newline
      +:+ "Type: Instant" +:+ newline +:+ "Deal 3 damage.";
      "---" ].
Proof.
  rewrite (proj1 (proj2 (block_printed_or_skipped bolt))).
  vm_compute. reflexivity.
Defined.

(** ** Further scenarios of the specification *)

Lemma member_In (x : string) (l : list string) :
  member x l = true <-> In x l.
Proof.
  unfold member. rewrite existsb_exists. split.
  - intros (y & Hy & ->%String.eqb_eq). done.
  - intros H. exists x. by rewrite String.eqb_refl.
Qed.

(** X4: a record whose layout, trimmed and lowered, is one of the excluded
    layouts gets no block, whatever its name and other fields. *)
Theorem excluded_layout_gets_no_block (c : card) (layout : string) :
  get (text_attrs c) "layout" = Some layout ->
  In (Text.lower (Text.strip layout)) NON_PLAYABLE_LAYOUTS ->
  build_block c = None.
Proof.
  intros Hlayout Hin. apply build_block_None. right.
  rewrite is_non_playable_rules.
  assert (H : non_playable_layout c = true).
  { unfold non_playable_layout. rewrite Hlayout. apply member_In.
    unfold or_empty, or_else. simpl.
    destruct layout as [|a s]; [|done].
    simpl in Hin. repeat (destruct Hin as [Hin|Hin]; [done|]). done. }
  rewrite H. by rewrite !orb_true_r.
Qed.

Lemma token_card_gets_no_block : build_block token_card = None.
Proof.
  apply (excluded_layout_gets_no_block token_card " Token ");
    [reflexivity | vm_compute; tauto].
Defined.

(** X5: a record with no top-level name and no face gets no block, whatever
    its other fields. *)
Theorem nameless_gets_no_block (c : card) :
  get (text_attrs c) "name" = None ->
  card_faces c = None \/ card_faces c = Some [] ->
  build_block c = None.
Proof.
  intros Hname Hfaces. apply build_block_None. left.
  unfold resolve_name, or_else, first_face. rewrite Hname.
  by destruct Hfaces as [->| ->].
Qed.

Lemma nameless_card_gets_no_block : build_block nameless_card = None.
Proof.
  apply (nameless_gets_no_block nameless_card); [reflexivity | by left].
Defined.



(** ** The array streamer *)

Section Reading.

Lemma slice_to_from (f : string) (n : nat) :
  Text.slice_to f n +:+ Text.slice_from f n = f.
Proof.
  revert f. induction n as [|n IH]; intros [|c f]; simpl; try done.
  by rewrite app_cons, IH.
Qed.

Lemma length_slice_from (f : string) (n : nat) :
  String.length (Text.slice_from f n) = String.length f - n.
Proof.
  revert f. induction n as [|n IH]; intros [|c f]; simpl; done.
Qed.

Lemma slice_to_app (b f : string) :
  Text.slice_to (b +:+ f) (String.length b) = b.
Proof.
  induction b as [|c b IH]; simpl; [by destruct f|].
  by rewrite ?app_cons, IH.
Qed.

(** A read that returns something leaves a shorter file. *)
Lemma read_shortens (f chunk f' : string) (n : nat) :
  read f n = (chunk, f') -> Text.truthy chunk = true ->
  chunk +:+ f' = f /\ String.length f' < String.length f.
Proof.
  unfold read. intros [= <- <-] Hne. split; [apply slice_to_from|].
  apply truthy_true in Hne.
  rewrite length_slice_from.
  destruct n as [|n]; [by destruct f|]. destruct f; [done | simpl; lia].
Qed.

End Reading.

Section NoParseError.

Context {value : Type}.
Variable raw_decode : string -> result (value * nat).
Variable size : nat.

Lemma drain_swallows (turns : nat) (buf : string) :
  (drain raw_decode turns buf).2 <> Stop (Raised JSONDecodeError).
Proof.
  revert buf. induction turns as [|turns IH]; intros buf; simpl; [done|].
  destruct (Text.truthy (Text.lstrip buf)); simpl; [|done].
  destruct (Text.startswith (Text.lstrip buf) "]"); [done|].
  destruct (Text.startswith (Text.lstrip buf) ","); [apply IH|].
  destruct (raw_decode (Text.lstrip buf)) as [[obj idx]|[]]; try done.
  specialize (IH (Text.slice_from (Text.lstrip buf) idx)).
  by destruct (drain raw_decode turns _).
Qed.

Lemma fill_swallows (turns : nat) (f buf : string) :
  (fill raw_decode size turns f buf).2 <> Raised JSONDecodeError.
Proof.
  revert f buf. induction turns as [|turns IH]; intros f buf; simpl; [done|].
  destruct (Text.truthy (Text.slice_to f size)); simpl; [|done].
  set (buf' := buf +:+ Text.slice_to f size).
  assert (H := drain_swallows (String.length buf' + 1) buf').
  destruct (drain raw_decode (String.length buf' + 1) buf') as [ys [b|e]].
  - specialize (IH (Text.slice_from f size) b).
    by destruct (fill raw_decode size turns _ b).
  - simpl in *. congruence.
Qed.

(** Whatever the file holds, the generator does not end with a parse
    error. *)
Lemma iter_json_array_swallows (f : string) :
  (iter_json_array_sized raw_decode size f).2 <> Raised JSONDecodeError.
Proof.
  unfold iter_json_array_sized.
  destruct (find_array_start f); [apply fill_swallows | done].
Qed.

(** A text that begins with [c], which is no white space, no closing
    bracket and no comma, and whose every beginning the decoder
    rejects. *)
Variables (c : ascii) (rest : string).
Hypothesis c_not_space : Text.char_isspace c = false.
Hypothesis c_not_close : Ascii.eqb c "]" = false.
Hypothesis c_not_comma : Ascii.eqb c "," = false.
Hypothesis rejected :
  forall n, 0 < n ->
    raw_decode (Text.slice_to (String c rest) n) = Raise JSONDecodeError.

Lemma prefix_head (a b : ascii) (s : string) :
  String.prefix (String a EmptyString) (String b s) = Ascii.eqb b a.
Proof.
  simpl. destruct (ascii_dec a b) as [->|Hne].
  - rewrite Ascii.eqb_refl. by destruct s.
  - symmetry. apply Ascii.eqb_neq. congruence.
Qed.

Lemma drain_rejected (buf f : string) :
  buf +:+ f = String c rest -> Text.truthy buf = true ->
  drain raw_decode (String.length buf + 1) buf = ([], Break buf).
Proof.
  intros Htext Hne. rewrite Nat.add_1_r.
  assert (Hrej := rejected (String.length buf)).
  rewrite <- Htext, slice_to_app in Hrej.
  destruct buf as [|a buf]; [done|].
  rewrite app_cons in Htext. injection Htext as -> Htext.
  cbn [drain Text.lstrip]. rewrite c_not_space.
  cbn [Text.truthy negb]. unfold Text.startswith.
  rewrite !prefix_head, c_not_close, c_not_comma.
  rewrite Hrej; [done | simpl; lia].
Qed.

Lemma fill_rejected (turns : nat) (f buf : string) :
  buf +:+ f = String c rest -> String.length f < turns ->
  fill raw_decode size turns f buf = ([], Returned).
Proof.
  revert f buf. induction turns as [|turns IH]; intros f buf Htext Hturns;
    [lia|].
  simpl. destruct (Text.truthy (Text.slice_to f size)) eqn:Hchunk; [|done].
  simpl.
  destruct (read_shortens f _ _ size eq_refl Hchunk) as [Hf Hlen].
  assert (Htext' :
    (buf +:+ Text.slice_to f size) +:+ Text.slice_from f size
    = String c rest) by by rewrite app_assoc, Hf.
  rewrite (drain_rejected _ _ Htext').
  - rewrite IH; [done | done | lia].
  - apply truthy_true. intros Hnil.
    apply truthy_true in Hchunk. apply Hchunk.
    destruct buf; [done|]. by rewrite app_cons in Hnil.
Qed.

End NoParseError.

(** ** The start of the array *)

Section ArrayStart.

Context {value : Type}.
Variable raw_decode : string -> result (value * nat).
Variable size : nat.



End ArrayStart.


(** ** The budgets of the streamer *)

Section Budgets.

Context {value : Type}.
Variable raw_decode : string -> result (value * nat).
Variable size : nat.

(** The decoder takes at least one character for a value. *)
Hypothesis progress :
  forall s obj idx, raw_decode s = Ok (obj, idx) -> 0 < idx.





(** A comma at the head of the buffer, after optional white space, is
    dropped and the loop goes on with what follows it. *)
Lemma drain_drops_comma (turns : nat) (ws buf : string) :
  Text.all_chars Text.char_isspace ws = true ->
  drain raw_decode (S turns) (ws +:+ "," +:+ buf)
  = drain raw_decode turns buf.
Proof.
  intros Hws. cbn [drain].
  assert (Text.lstrip (ws +:+ "," +:+ buf) = String "," buf) as ->.
  { induction ws as [|c ws IH]; [done|].
    simpl in Hws. apply andb_true_iff in Hws as [Hc Hws].
    rewrite app_cons. simpl. rewrite Hc. by apply IH. }
  cbn [Text.truthy negb]. unfold Text.startswith.
  rewrite !prefix_head. by destruct buf.
Qed.

End Budgets.



(** ** The decoder takes characters *)

Section DecoderProgress.

Lemma length_skip_ws (s : string) :
  String.length (skip_ws s) <= String.length s.
Proof.
  induction s as [|c s IH]; simpl; [done|].
  destruct (is_ws c); simpl; lia.
Qed.

Lemma length_span_digits (s d r : string) :
  span_digits s = (d, r) -> String.length r <= String.length s.
Proof.
  revert d r. induction s as [|c s IH]; intros d r; simpl.
  - by intros [= <- <-].
  - destruct (is_digit c); [|by intros [= <- <-]].
    destruct (span_digits s) as [d' r'] eqn:Hs. intros [= <- <-].
    specialize (IH _ _ eq_refl). lia.
Qed.

Lemma length_span_digits_cons (c : ascii) (s d r : string) :
  span_digits (String c s) = (d, r) -> is_digit c = true ->
  String.length r <= String.length s.
Proof.
  cbn [span_digits]. intros H Hd. rewrite Hd in H.
  destruct (span_digits s) as [d' r'] eqn:Hs.
  simplify_eq. by eapply length_span_digits.
Qed.

Lemma length_match_integer (s i r : string) :
  match_integer s = Some (i, r) -> String.length r < String.length s.
Proof.
  unfold match_integer. intros H.
  repeat case_match; simplify_eq; simpl;
    repeat match goal with
           | H : span_digits (String ?c _) = _, Hd : is_digit ?c = true
             |- _ =>
               apply length_span_digits_cons in H; [simpl in H | exact Hd]
           end; lia.
Qed.

Lemma length_match_frac (s f r : string) :
  match_frac s = (f, r) -> String.length r <= String.length s.
Proof.
  unfold match_frac. intros H.
  repeat case_match; simplify_eq; simpl;
    repeat match goal with
           | H : span_digits _ = _ |- _ =>
               apply length_span_digits in H; simpl in H
           end; lia.
Qed.

Lemma length_match_exp (s e r : string) :
  match_exp s = (e, r) -> String.length r <= String.length s.
Proof.
  unfold match_exp. intros H.
  repeat case_match; simplify_eq; simpl;
    repeat match goal with
           | H : span_digits _ = _ |- _ =>
               apply length_span_digits in H; simpl in H
           end; lia.
Qed.

Lemma length_match_number (m : nat) (s : string) (v : result json)
    (r : string) :
  match_number m s = Some (v, r) -> String.length r < String.length s.
Proof.
  unfold match_number. intros H.
  destruct (match_integer s) as [[i r1]|] eqn:Hi; [|done].
  destruct (match_frac r1) as [f r2] eqn:Hf.
  destruct (match_exp r2) as [e r3] eqn:He.
  apply length_match_integer in Hi. apply length_match_frac in Hf.
  apply length_match_exp in He.
  repeat case_match; simplify_eq; lia.
Qed.

Lemma length_keyword (s kw : string) (v v' : json) (r : string) :
  keyword s kw v = Some (v', r) -> 0 < String.length kw ->
  String.length r < String.length s.
Proof.
  unfold keyword, Text.startswith. intros H Hkw.
  destruct (String.prefix kw s) eqn:Hp; [|done]. simplify_eq.
  apply prefix_app in Hp as [post ->].
  rewrite length_slice_from, length_app. lia.
Qed.

Lemma length_scanstring (n : nat) (s : string) (u : ustring) (r : string) :
  String.length s <= n ->
  scanstring s = Ok (u, r) -> String.length r < String.length s.
Proof.
  revert s u r. induction n as [|n IH]; intros s u r Hn.
  - destruct s; [done | simpl in Hn; lia].
  - destruct s as [|c s]; [done|]. cbn [scanstring]. unfold cons_char.
    intros H.
    repeat case_match; simplify_eq; simpl in *;
      repeat match goal with
             | H : scanstring _ = Ok _ |- _ =>
                 apply IH in H; [simpl in H | simpl; lia]
             end; lia.
Qed.

End DecoderProgress.

Ltac decoder_lengths :=
  repeat match goal with
    | H : scanstring ?s = Ok _ |- _ =>
        apply (length_scanstring (String.length s)) in H; [|lia]
    | H : match_number _ _ = Some _ |- _ => apply length_match_number in H
    | H : keyword _ _ _ = Some _ |- _ =>
        apply length_keyword in H; [|simpl; lia]
    | H : skip_ws ?s = _ |- _ =>
        let Hl := fresh "Hl" in
        pose proof (length_skip_ws s) as Hl; rewrite H in Hl; clear H
    | H : context [skip_ws ?s] |- _ =>
        let Hl := fresh "Hl" in
        let w := fresh "w" in
        pose proof (length_skip_ws s) as Hl;
        set (w := skip_ws s) in *; clearbody w
    end.

Lemma scan_atom_progress (m : nat) (s : string) (v : json) (r : string) :
  scan_atom m s = Ok (v, r) -> String.length r < String.length s.
Proof.
  unfold scan_atom. intros H.
  repeat case_match; simplify_eq; decoder_lengths; simpl in *; lia.
Qed.

Section Loops.

(** The loops of the decoder, for any way [scan] of decoding an item
    that takes at least one character. *)
Variable scan : string -> result (json * string).
Hypothesis scan_shortens :
  forall s v r, scan s = Ok (v, r) -> String.length r < String.length s.

Lemma array_items_progress (n : nat) (s : string) (values : list json)
    (v : json) (r : string) :
  array_items scan n s values = Ok (v, r) ->
  String.length r < String.length s.
Proof.
  revert s values. induction n as [|n IH]; intros s values H; [done|].
  cbn [array_items] in H.
  repeat case_match; simplify_eq;
    repeat match goal with
      | H : scan _ = Ok _ |- _ => apply scan_shortens in H
      | H : array_items scan n _ _ = Ok _ |- _ => apply IH in H
      end;
    decoder_lengths; simpl in *; lia.
Qed.

Lemma object_items_progress (n : nat) (s : string)
    (pairs : gmap ustring json) (v : json) (r : string) :
  object_items scan n s pairs = Ok (v, r) ->
  String.length r < String.length s.
Proof.
  revert s pairs. induction n as [|n IH]; intros s pairs H; [done|].
  cbn [object_items] in H.
  repeat case_match; simplify_eq;
    repeat match goal with
      | H : scan _ = Ok _ |- _ => apply scan_shortens in H
      | H : object_items scan n _ _ = Ok _ |- _ => apply IH in H
      end;
    decoder_lengths; simpl in *; lia.
Qed.

End Loops.

(** A decoded value takes at least one character. *)
Lemma scan_progress (depth m : nat) (s : string) (v : json) (r : string) :
  scan_once depth m s = Ok (v, r) -> String.length r < String.length s.
Proof.
  revert s v r. induction depth as [|depth IH]; intros s v r H;
    (destruct s as [|c s]; [done|]); cbn [scan_once] in H.
  - repeat case_match; simplify_eq;
      try (match goal with
           | H : scan_atom _ _ = Ok _ |- _ => apply scan_atom_progress in H
           end);
      decoder_lengths; simpl in *; lia.
  - repeat case_match; simplify_eq;
      try (match goal with
           | H : scan_atom _ _ = Ok _ |- _ => apply scan_atom_progress in H
           | H : array_items _ _ _ _ = Ok _ |- _ =>
               apply (array_items_progress _ IH) in H
           | H : object_items _ _ _ _ = Ok _ |- _ =>
               apply (object_items_progress _ IH) in H
           end);
      decoder_lengths; simpl in *; lia.
Qed.



Lemma scanstring_error (n : nat) (s : string) (e : exn) :
  String.length s <= n -> scanstring s = Raise e -> e = JSONDecodeError.
Proof.
  revert s. induction n as [|n IH]; intros s Hn.
  - destruct s; [by intros [= <-] | simpl in Hn; lia].
  - destruct s as [|c s]; [by intros [= <-]|]. cbn [scanstring].
    unfold cons_char. intros H.
    repeat case_match; simplify_eq; try done;
      match goal with
      | H : scanstring _ = Raise _ |- _ =>
          apply IH in H; [done | simpl in *; lia]
      end.
Qed.

Section Propagation.

Context {value : Type}.
Variable raw_decode : string -> result (value * nat).
Variable size : nat.




End Propagation.

(** No JSON value begins with a closing brace: the decoder rejects every
    text that starts with one. *)
Lemma closing_brace_rejected (s : string) :
  raw_decode (String "}" s) = Raise JSONDecodeError.
Proof. reflexivity. Qed.

(** C1 does not hold as stated: on text that no JSON value starts with,
    the generator returns normally; values that precede the bad text are
    yielded, those that follow it are lost. *)
Lemma invalid_text_ends_silently :
  (forall s, raw_decode (String "}" s) = Raise JSONDecodeError)
  /\ iter_json_array raw_decode "[}" = ([], Returned)
  /\ iter_json_array raw_decode "[1, }, 2]" = ([JInt 1], Returned).
Proof.
  split; [exact closing_brace_rejected|]. split; vm_compute; reflexivity.
Qed.

(** C1, amended: a parse error of the decoder never reaches the caller
    of [iter_json_array], whatever the decoder, the size of the reads
    and the file.  When the decoder reports a parse error on a buffer
    that starts with a character that is neither white space nor a
    closing bracket nor a comma, the inner loop is left by [break] with
    the buffer kept as it is.  When the text after the opening bracket
    starts with such a character and the decoder rejects every beginning
    of that text, as it does for text that no JSON value starts with,
    nothing is yielded and the generator ends normally. *)
Theorem decode_errors_are_swallowed :
  (forall (value : Type) (decoder : string -> result (value * nat))
          (size : nat) (f : string),
     (iter_json_array_sized decoder size f).2 <> Raised JSONDecodeError)
  /\ (forall (value : Type) (decoder : string -> result (value * nat))
             (turns : nat) (c : ascii) (rest : string),
        Text.char_isspace c = false ->
        Ascii.eqb c "]" = false ->
        Ascii.eqb c "," = false ->
        decoder (String c rest) = Raise JSONDecodeError ->
        drain decoder (S turns) (String c rest)
        = ([], Break (String c rest)))
  /\ (forall (value : Type) (decoder : string -> result (value * nat))
             (size : nat) (c : ascii) (rest : string),
        Text.char_isspace c = false ->
        Ascii.eqb c "]" = false ->
        Ascii.eqb c "," = false ->
        (forall n, 0 < n ->
           decoder (Text.slice_to (String c rest) n)
           = Raise JSONDecodeError) ->
        iter_json_array_sized decoder size (String "[" (String c rest))
        = ([], Returned)).
Proof.
  split; [|split].
  - intros value decoder size f. apply iter_json_array_swallows.
  - intros value decoder turns c rest Hspace Hclose Hcomma Hrej.
    cbn [drain Text.lstrip]. rewrite Hspace. cbn [Text.truthy negb].
    unfold Text.startswith. by rewrite !prefix_head, Hclose, Hcomma, Hrej.
  - intros value decoder size c rest Hspace Hclose Hcomma Hrej.
    unfold iter_json_array_sized.
    change (find_array_start (String "[" (String c rest)))
      with (Some (String c rest)).
    apply (fill_rejected decoder size c rest); try done. lia.
Qed.

(** The array text ["[}]"] yields nothing and ends normally. *)
Lemma closing_brace_ends_silently :
  iter_json_array raw_decode "[}]" = ([], Returned).
Proof.
  unfold iter_json_array.
  apply (proj2 (proj2 decode_errors_are_swallowed) json raw_decode CHUNK
           "}"%char "]");
    [reflexivity | reflexivity | reflexivity |].
  intros [|[|[|n]]] Hn; [lia | | |]; vm_compute; reflexivity.
Defined.

(** C2, the failing input: a number that straddles the boundary between
    two reads is yielded as two numbers. *)
Lemma number_split_across_reads :
  iter_json_array raw_decode ("[" +:+ spaces (CHUNK - 1) +:+ "12]")
  = ([JInt 1; JInt 2], Returned)
  /\ loads ("[" +:+ spaces (CHUNK - 1) +:+ "12]") = Ok (JArr [JInt 12])
  /\ iter_json_array_sized raw_decode 1 "[12]" = ([JInt 1; JInt 2], Returned)
  /\ loads "[12]" = Ok (JArr [JInt 12]).
Proof. repeat split; vm_compute; reflexivity. Qed.

(** C9, the failing input: the extra comma moves a number onto the
    boundary between two reads. *)
Lemma extra_comma_moves_the_split :
  iter_json_array raw_decode ("[1,," +:+ spaces (CHUNK - 4) +:+ "23]")
  = ([JInt 1; JInt 2; JInt 3], Returned)
  /\ iter_json_array raw_decode ("[1," +:+ spaces (CHUNK - 4) +:+ "23]")
     = ([JInt 1; JInt 23], Returned)
  /\ iter_json_array raw_decode "[1,,2,]" = ([JInt 1; JInt 2], Returned)
  /\ iter_json_array raw_decode "[1,2]" = ([JInt 1; JInt 2], Returned).
Proof. repeat split; vm_compute; reflexivity. Qed.

(** ** Arrays of self-delimiting values *)

Section Splitting.

(** Two ways of cutting one text in two. *)
Lemma app_eq_app (p f a b : string) :
  p +:+ f = a +:+ b ->
  (exists m, a = p +:+ m /\ f = m +:+ b)
  \/ (exists m, p = a +:+ m /\ b = m +:+ f).
Proof.
  revert a. induction p as [|c p IH]; intros a H.
  - left. by exists a.
  - destruct a as [|c' a].
    + right. by exists (String c p).
    + rewrite !app_cons in H. injection H as -> H.
      destruct (IH a H) as [(m & -> & ->)|(m & -> & ->)].
      * left. by exists m.
      * right. by exists m.
Qed.

Lemma blank_app (a b : string) : blank (a +:+ b) <-> blank a /\ blank b.
Proof.
  unfold blank. induction a as [|c a IH]; simpl; [tauto|].
  rewrite ?app_cons. simpl. rewrite !andb_true_iff, IH. tauto.
Qed.

Lemma lstrip_blank (ws s : string) :
  blank ws -> Text.lstrip (ws +:+ s) = Text.lstrip s.
Proof.
  unfold blank. induction ws as [|c ws IH]; [done|]. simpl.
  intros [Hc Hws]%andb_true_iff. rewrite ?app_cons. simpl.
  rewrite Hc. by apply IH.
Qed.

Lemma lstrip_blank_nil (ws : string) :
  blank ws -> Text.lstrip ws = EmptyString.
Proof.
  intros H. rewrite <- (app_nil_r ws). by rewrite lstrip_blank.
Qed.

Lemma slice_from_app (a b : string) :
  Text.slice_from (a +:+ b) (String.length a) = b.
Proof.
  induction a as [|c a IH]; simpl; [by destruct b|].
  by rewrite ?app_cons.
Qed.

End Splitting.

Section Chunks.

Context {value : Type}.
Variable raw_decode : string -> result (value * nat).
Variable size : nat.
Hypothesis size_pos : 0 < size.

Lemma drain_skip_blank (turns : nat) (ws s : string) :
  blank ws ->
  drain raw_decode (S turns) (ws +:+ s) = drain raw_decode (S turns) s.
Proof. intros Hws. cbn [drain]. by rewrite lstrip_blank. Qed.

Lemma drain_blank (turns : nat) (ws : string) :
  blank ws -> drain raw_decode (S turns) ws = ([], Break EmptyString).
Proof. intros Hws. cbn [drain]. by rewrite lstrip_blank_nil. Qed.

Lemma drain_comma (turns : nat) (s : string) :
  drain raw_decode (S turns) (String "," s) = drain raw_decode turns s.
Proof.
  apply (drain_drops_comma raw_decode turns EmptyString s). reflexivity.
Qed.

Lemma drain_close (turns : nat) (s : string) :
  drain raw_decode (S turns) (String "]" s) = ([], Stop Returned).
Proof.
  cbn [drain Text.lstrip]. change (Text.char_isspace "]") with false.
  cbn [Text.truthy negb]. unfold Text.startswith. by rewrite prefix_head.
Qed.

Lemma drain_token (turns : nat) (c : ascii) (s : string) :
  Text.char_isspace c = false ->
  Ascii.eqb c "]" = false -> Ascii.eqb c "," = false ->
  drain raw_decode (S turns) (String c s)
  = match raw_decode (String c s) with
    | Raise JSONDecodeError => ([], Break (String c s))
    | Raise e => ([], Stop (Raised e))
    | Ok (obj, idx) =>
        let (yielded, exit) :=
          drain raw_decode turns (Text.slice_from (String c s) idx) in
        (obj :: yielded, exit)
    end.
Proof.
  intros Hspace Hclose Hcomma. cbn [drain Text.lstrip]. rewrite Hspace.
  cbn [Text.truthy negb]. unfold Text.startswith.
  by rewrite !prefix_head, Hclose, Hcomma.
Qed.

(** Draining a beginning [p] of a body: either the closing bracket is
    reached, or the loop is left with a buffer that, put back in front
    of the rest of the file, is again a body for the values still to
    come. *)
Lemma drain_body (b : string) (vs : list value) :
  array_body raw_decode b vs ->
  forall p f turns,
    p +:+ f = b -> String.length p < turns ->
    drain raw_decode turns p = (vs, Stop Returned)
    \/ exists ys vs' buf,
         vs = ys ++ vs'
         /\ drain raw_decode turns p = (ys, Break buf)
         /\ array_body raw_decode (buf +:+ f) vs'
         /\ f <> EmptyString.
Proof.
  induction 1 as [ws rest Hws | ws b vs Hws Hb IH | ws t v b vs Hws Ht Hb IH];
    intros p f turns Hsplit Hturns; (destruct turns as [|turns]; [lia|]).
  - apply app_eq_app in Hsplit as [(m & -> & ->)|(m & -> & Hm)].
    + apply blank_app in Hws as [Hp Hm]. right.
      exists [], [], EmptyString. rewrite drain_blank by done.
      repeat split; [by apply body_close | by destruct m].
    + rewrite drain_skip_blank by done. destruct m as [|c m].
      * right. exists [], [], EmptyString.
        rewrite drain_blank by done. rewrite app_nil_l in Hm. subst f.
        repeat split; [|done]. by apply (body_close raw_decode EmptyString).
      * rewrite app_cons in Hm. injection Hm as <- _. left.
        apply drain_close.
  - apply app_eq_app in Hsplit as [(m & -> & ->)|(m & -> & Hm)].
    + apply blank_app in Hws as [Hp Hm]. right.
      exists [], vs, EmptyString. rewrite drain_blank by done.
      repeat split; [by apply body_comma | by destruct m].
    + rewrite drain_skip_blank by done. destruct m as [|c m].
      * right. exists [], vs, EmptyString.
        rewrite drain_blank by done. rewrite app_nil_l in Hm. subst f.
        repeat split; [|done].
        by apply (body_comma raw_decode EmptyString).
      * rewrite app_cons in Hm. injection Hm as <- Hm.
        rewrite drain_comma. apply IH; [done|].
        rewrite !length_app in Hturns. simpl in Hturns. lia.
  - destruct Ht as [(c & t' & -> & Hspace & Hclose & Hcomma) Hwhole Hpart].
    assert (Hvalue : forall m2,
              b = m2 +:+ f -> String.length m2 < turns ->
              drain raw_decode (S turns) (String c t' +:+ m2)
              = (v :: vs, Stop Returned)
              \/ exists ys vs' buf,
                   v :: vs = ys ++ vs'
                   /\ drain raw_decode (S turns) (String c t' +:+ m2)
                      = (ys, Break buf)
                   /\ array_body raw_decode (buf +:+ f) vs'
                   /\ f <> EmptyString).
    { intros m2 Hb2 Hlen. rewrite app_cons, drain_token by done.
      rewrite <- app_cons, Hwhole, slice_from_app.
      destruct (IH m2 f turns (eq_sym Hb2) Hlen)
        as [->|(ys & vs' & buf & -> & -> & Hbody & Hf)]; [by left|].
      right. by exists (v :: ys), vs', buf. }
    assert (Hidle : forall ws', blank ws' ->
              array_body raw_decode (ws' +:+ String c t' +:+ b) (v :: vs)).
    { intros ws' Hws'. apply body_value; [done| |done].
      split; [by exists c, t' | done | done]. }
    apply app_eq_app in Hsplit as [(m & -> & ->)|(m & -> & Hm)].
    + apply blank_app in Hws as [Hp Hm]. right.
      exists [], (v :: vs), EmptyString. rewrite drain_blank by done.
      repeat split; [by apply Hidle | by destruct m].
    + rewrite drain_skip_blank by done.
      symmetry in Hm. apply app_eq_app in Hm as [(m2 & Ht & ->)|(m2 & -> & ->)].
      * destruct m as [|c' m].
        { right. exists [], (v :: vs), EmptyString.
          rewrite drain_blank by done. rewrite app_nil_l in Ht. subst m2.
          repeat split; [|done]. by apply (Hidle EmptyString). }
        destruct m2 as [|c2 m2].
        { rewrite app_nil_r in Ht. rewrite <- Ht.
          rewrite <- (app_nil_r (String c t')). apply Hvalue; [done|].
          rewrite !length_app in Hturns. rewrite <- Ht in Hturns.
          simpl in *. lia. }
        rewrite app_cons in Ht. injection Ht as <- Ht.
        right. exists [], (v :: vs), (String c m).
        rewrite drain_token by done.
        assert (Hcut : String c m = Text.slice_to (String c t')
                                      (String.length (String c m))).
        { rewrite Ht, <- app_cons. by rewrite slice_to_app. }
        rewrite Hcut at 1. rewrite Hpart.
        -- repeat split; [|done].
           replace (String c m +:+ String c2 m2 +:+ b)
             with (EmptyString +:+ String c t' +:+ b);
             [by apply Hidle|].
           by rewrite Ht, app_nil_l, !app_cons, app_assoc.
        -- simpl. rewrite Ht, length_app. simpl. lia.
      * apply Hvalue; [done|].
        rewrite !length_app in Hturns. simpl in Hturns. lia.
Qed.

Lemma array_body_not_empty (b : string) (vs : list value) :
  array_body raw_decode b vs -> b <> EmptyString.
Proof.
  intros [ws rest _ | ws b' vs' _ _ | ws t v b' vs' _ Ht _]; intros Hnil.
  - by destruct ws.
  - by destruct ws.
  - destruct Ht as [(c & t' & -> & _) _ _]. by destruct ws.
Qed.

Lemma fill_body (turns : nat) (f buf : string) (vs : list value) :
  array_body raw_decode (buf +:+ f) vs -> f <> EmptyString ->
  String.length f < turns ->
  fill raw_decode size turns f buf = (vs, Returned).
Proof.
  revert f buf vs.
  induction turns as [|turns IH]; intros f buf vs Hbody Hf Hturns; [lia|].
  cbn [fill]. unfold read.
  assert (Hchunk : Text.truthy (Text.slice_to f size) = true).
  { destruct f; [done|]. destruct size; [lia | done]. }
  rewrite Hchunk. cbn [negb].
  destruct (read_shortens f _ _ size eq_refl Hchunk) as [Hread Hlen].
  set (p := buf +:+ Text.slice_to f size).
  assert (Hsplit : p +:+ Text.slice_from f size = buf +:+ f)
    by (unfold p; by rewrite app_assoc, Hread).
  destruct (drain_body _ _ Hbody p _ (String.length p + 1) Hsplit)
    as [->|(ys & vs' & buf' & -> & -> & Hbody' & Hf')]; [lia | done |].
  rewrite (IH _ _ vs' Hbody' Hf'); [done | lia].
Qed.

(** Whatever the size of the reads, an array of self-delimiting values
    is yielded value by value, and the generator returns at the closing
    bracket. *)
Lemma array_body_streamed (b : string) (vs : list value) :
  array_body raw_decode b vs ->
  iter_json_array_sized raw_decode size (String "[" b) = (vs, Returned).
Proof.
  intros Hbody. unfold iter_json_array_sized.
  change (find_array_start (String "[" b)) with (Some b).
  apply fill_body; [done | by eapply array_body_not_empty | lia].
Qed.

End Chunks.

(** The text ["[12]"] is self-delimiting: its closing bracket ends it. *)
Lemma delimited_array_12 : delimited raw_decode "[12]" (JArr [JInt 12]).
Proof.
  split.
  - by exists "["%char, "12]".
  - intros rest. unfold raw_decode, raw_decode_with.
    change ("[12]" +:+ rest)
      with (String "[" (String "1" (String "2" (String "]" rest)))).
    set (s := String "[" _).
    assert (Hscan : scan_once RECURSION_LEFT INT_MAX_STR_DIGITS s
                    = Ok (JArr [JInt 12], rest))
      by (unfold s; vm_compute; reflexivity).
    rewrite Hscan. unfold s. simpl. do 2 f_equal. lia.
  - intros [|[|[|[|n]]]] Hn; simpl in Hn; try lia; vm_compute; reflexivity.
Qed.

(** So is the literal ["true"]. *)
Lemma delimited_true : delimited raw_decode "true" (JBool true).
Proof.
  split.
  - by exists "t"%char, "rue".
  - intros rest. unfold raw_decode, raw_decode_with.
    change ("true" +:+ rest)
      with (String "t" (String "r" (String "u" (String "e" rest)))).
    set (s := String "t" _).
    assert (Hscan : scan_once RECURSION_LEFT INT_MAX_STR_DIGITS s
                    = Ok (JBool true, rest))
      by (unfold s; destruct rest; vm_compute; reflexivity).
    rewrite Hscan. unfold s. simpl. do 2 f_equal. lia.
  - intros [|[|[|[|n]]]] Hn; simpl in Hn; try lia; vm_compute; reflexivity.
Qed.

(** A number is not: the beginning ["1"] of ["12"] decodes by itself. *)
Lemma number_not_delimited : ~ delimited raw_decode "12" (JInt 12).
Proof.
  intros [_ _ Hpart]. specialize (Hpart 1). simpl in Hpart.
  assert (H : 0 < 1 < 2) by lia. apply Hpart in H. by vm_compute in H.
Qed.

(** X1: for every positive read size and every body of self-delimiting
    values, commas and white space that reaches a closing bracket, the
    generator yields the values of the body, in order, and returns. *)
Theorem streamed_whatever_the_split {value : Type}
    (decoder : string -> result (value * nat)) (size : nat)
    (b : string) (vs : list value) :
  0 < size ->
  array_body decoder b vs ->
  iter_json_array_sized decoder size (String "[" b) = (vs, Returned).
Proof. intros Hsize Hbody. by apply array_body_streamed. Qed.

(** Read one character at a time, an array that holds an array of a
    number and a literal is yielded whole. *)
Lemma nested_number_streamed :
  iter_json_array_sized raw_decode 1 "[[12], true]"
  = ([JArr [JInt 12]; JBool true], Returned)
  /\ loads "[[12], true]" = Ok (JArr [JArr [JInt 12]; JBool true]).
Proof.
  split; [|vm_compute; reflexivity].
  apply (streamed_whatever_the_split raw_decode 1 "[12], true]"); [lia|].
  apply (body_value raw_decode EmptyString "[12]" _ ", true]");
    [done | exact delimited_array_12 |].
  apply (body_comma raw_decode EmptyString " true]"); [done|].
  apply (body_value raw_decode " " "true" _ "]");
    [done | exact delimited_true |].
  by apply (body_close raw_decode EmptyString EmptyString).
Defined.

(** X2: extra commas between self-delimiting values change nothing: with a
    comma (and white space before it) put in front of a body, the same
    values are yielded and the generator returns at the closing
    bracket. *)
Theorem extra_commas_dropped {value : Type}
    (decoder : string -> result (value * nat)) (size : nat)
    (ws b : string) (vs : list value) :
  0 < size ->
  blank ws ->
  array_body decoder b vs ->
  iter_json_array_sized decoder size (String "[" (ws +:+ String "," b))
  = iter_json_array_sized decoder size (String "[" b)
  /\ iter_json_array_sized decoder size (String "[" b) = (vs, Returned).
Proof.
  intros Hsize Hws Hbody.
  rewrite !(array_body_streamed decoder size Hsize _ vs);
    [done | done | by apply body_comma].
Qed.

Lemma extra_commas_around_arrays :
  iter_json_array_sized raw_decode 2 "[ ,[12]]"
  = iter_json_array_sized raw_decode 2 "[[12]]"
  /\ iter_json_array_sized raw_decode 2 "[[12]]"
     = ([JArr [JInt 12]], Returned).
Proof.
  apply (extra_commas_dropped raw_decode 2 " " "[12]]"); [lia | done |].
  apply (body_value raw_decode EmptyString "[12]" _ "]");
    [done | exact delimited_array_12 |].
  by apply (body_close raw_decode EmptyString EmptyString).
Defined.



(** ** What build_block reads *)

Lemma is_non_playable_same_reads (c c' : card)
    (type_line oracle_text : option string) :
  same_reads c c' ->
  is_non_playable c type_line oracle_text
  = is_non_playable c' type_line oracle_text.
Proof.
  intros (Hget & Hacorn & Hlegal & _).
  rewrite !is_non_playable_rules.
  unfold silver_border, no_legal_format, non_playable_layout.
  rewrite Hacorn, Hlegal.
  rewrite (Hget "border_color"), (Hget "layout") by (simpl; tauto).
  reflexivity.
Qed.

(** X7: [build_block] reads ten text attributes, the truth value of the
    acorn flag, the legalities and the first face, and nothing else: two
    records that agree on these get the same block. *)
Theorem build_block_reads_only (c c' : card) :
  same_reads c c' -> build_block c = build_block c'.
Proof.
  intros Hsame. pose proof Hsame as (Hget & _ & _ & Hface).
  unfold build_block, resolve_name, pick_field.
  rewrite (is_non_playable_same_reads c c' _ _ Hsame).
  rewrite Hface.
  rewrite (Hget "name"), (Hget "mana_cost"), (Hget "type_line"),
    (Hget "oracle_text"), (Hget "power"), (Hget "toughness"),
    (Hget "loyalty"), (Hget "defense") by (simpl; tauto).
  reflexivity.
Qed.

Lemma bolt_with_more_same_block :
  build_block bolt_with_more = build_block bolt.
Proof.
  apply build_block_reads_only. split; [|by repeat split].
  intros key Hin. simpl in Hin.
  repeat (destruct Hin as [<-|Hin]; [vm_compute; reflexivity|]). done.
Defined.

(** X8: a record that has only faces is rendered as its first face would
    be as a record of its own, as long as that face carries no border
    colour and no layout. *)
Theorem faces_only_card (f : face) (rest : list face)
    (flag : option bool) (legal : option (gmap string string)) :
  get f "border_color" = None ->
  get f "layout" = None ->
  build_block (Card ∅ flag legal (Some (f :: rest)))
  = build_block (Card f flag legal None).
Proof.
  intros Hborder Hlayout.
  set (c1 := Card ∅ flag legal (Some (f :: rest))).
  set (c2 := Card f flag legal None).
  assert (Hpick : forall key,
            pick_field c1 (first_face c1) key
            = pick_field c2 (first_face c2) key).
  { intros key. unfold pick_field, get, first_face, c1, c2. simpl.
    rewrite lookup_empty.
    repeat case_match; congruence. }
  assert (Hplay : forall tl ot,
            is_non_playable c1 tl ot = is_non_playable c2 tl ot).
  { intros tl ot. rewrite !is_non_playable_rules.
    unfold silver_border, non_playable_layout, acorn, no_legal_format, get,
      c1, c2.
    simpl. unfold get in *. by rewrite !lookup_empty, Hborder, Hlayout. }
  unfold build_block. rewrite !Hpick, Hplay.
  assert (Hname : resolve_name c1 (first_face c1)
                  = resolve_name c2 (first_face c2)
                  \/ (resolve_name c1 (first_face c1) = Some EmptyString
                      /\ resolve_name c2 (first_face c2) = None)).
  { unfold resolve_name, or_else, get, first_face, c1, c2. simpl.
    rewrite !lookup_empty. simpl.
    unfold face in *. rewrite ?lookup_empty.
    destruct (f !! "name") as [[|a s]|]; simpl; auto. }
  destruct Hname as [-> | [-> ->]]; done.
Qed.

Lemma front_face_alone :
  build_block (Card ∅ None None (Some [front_face; {[ "name" := "Back" ]}]))
  = Some ("Name: Delver" +:+ newline +:+ "Mana cost: {U}").
Proof.
  rewrite (faces_only_card front_face); [vm_compute; reflexivity | done | done].
Defined.

(** ** The end of the generator *)



(** ** What the loop of main prints *)

Lemma print_blocks_separated (cards : list card) :
  print_blocks cards = separated (omap build_block cards).
Proof.
  induction cards as [|c cards IH]; [done|].
  rewrite print_blocks_cons. cbn [omap list_omap].
  destruct (build_block c) as [block|] eqn:Hb; [|done].
  destruct (block_shape c block Hb) as (name & rest & _ & _ & -> & _).
  unfold separated in *. cbn [flat_map]. by rewrite IH.
Qed.

Lemma blocks_open_with_name (cards : list card) :
  Forall opens_with_name (omap build_block cards).
Proof.
  induction cards as [|c cards IH]; [by constructor|].
  cbn [omap list_omap].
  destruct (build_block c) as [block|] eqn:Hb; [|done].
  constructor; [|done].
  destruct (block_shape c block Hb) as (name & rest & _ & Hne & -> & _).
  by exists name, rest.
Qed.

(** X10: for the records handed to the loop of [main], what is printed
    is, in their order, the block of each record that has one, each
    followed by the separator line, also the last one; records without
    a block leave no trace.  Every block opens with a name line, at
    most two texts are printed for a record, and what is printed for
    records that come in two parts is what is printed for the first
    part and then for the second. *)
Theorem printed_output (cards more : list card) :
  print_blocks cards = separated (omap build_block cards)
  /\ Forall opens_with_name (omap build_block cards)
  /\ length (print_blocks cards) <= 2 * length cards
  /\ print_blocks (cards ++ more) = print_blocks cards ++ print_blocks more.
Proof.
  split; [apply print_blocks_separated|].
  split; [apply blocks_open_with_name|]. split.
  - rewrite print_blocks_separated.
    induction cards as [|c cards IH]; [done|].
    cbn [omap list_omap]. destruct (build_block c); simpl in *; lia.
  - rewrite !print_blocks_separated. unfold separated.
    induction cards as [|c cards IH]; [done|].
    rewrite <- List.app_comm_cons. cbn [omap list_omap].
    destruct (build_block c); [|done].
    cbn [flat_map]. rewrite IH. done.
Qed.

(** ** Records excluded by a rule get no block *)

Lemma excluded_no_block (c : card) :
  is_non_playable c (pick_field c (first_face c) "type_line")
    (pick_field c (first_face c) "oracle_text") = true ->
  build_block c = None.
Proof. intros H. apply build_block_None. by right. Qed.

(** X11: each rule of [is_non_playable], applied to the values
    [build_block] resolves, takes the block away: a silver border
    (letter case and surrounding white space aside), the acorn flag, a
    non-empty legalities table that says "not_legal" everywhere, and,
    for the type line and the oracle text taken from the record or else
    from its first face, an excluded type line, the theme-card text, or a
    digital-only marker between word boundaries. *)
Theorem excluded_gets_no_block (c : card) :
  (forall border,
     get (text_attrs c) "border_color" = Some border ->
     Text.lower (Text.strip border) = "silver" -> build_block c = None)
  /\ (has_acorn c = Some true -> build_block c = None)
  /\ (forall m,
        legalities c = Some m -> m <> ∅ ->
        (forall k v, m !! k = Some v -> v = "not_legal") ->
        build_block c = None)
  /\ (forall type_line,
        pick_field c (first_face c) "type_line" = Some type_line ->
        type_line_excluded type_line -> build_block c = None)
  /\ (forall oracle_text,
        pick_field c (first_face c) "oracle_text" = Some oracle_text ->
        Text.contains oracle_text "Theme color" = true ->
        build_block c = None)
  /\ (forall oracle_text marker i,
        pick_field c (first_face c) "oracle_text" = Some oracle_text ->
        In marker DIGITAL_ONLY_ORACLE_MARKERS ->
        Text.lower (String.substring i (String.length marker) oracle_text)
        = marker ->
        at_word_boundaries oracle_text marker i ->
        build_block c = None).
Proof.
  repeat split.
  - intros border Hborder Hsilver. apply excluded_no_block.
    rewrite is_non_playable_rules.
    assert (H : silver_border c = true).
    { unfold silver_border. rewrite Hborder. unfold or_empty, or_else. simpl.
      destruct border as [|a s]; [done|]. simpl Text.truthy. cbv iota.
      by rewrite Hsilver. }
    by rewrite H.
  - intros Hacorn. apply excluded_no_block. rewrite is_non_playable_rules.
    assert (H : acorn c = true) by (unfold acorn; by rewrite Hacorn).
    rewrite H. by rewrite orb_true_r.
  - intros m Hm Hne Hall. apply excluded_no_block.
    rewrite is_non_playable_rules.
    assert (H : no_legal_format c = true).
    { unfold no_legal_format. rewrite Hm. simpl.
      rewrite bool_decide_eq_false_2 by done.
      by apply all_not_legal_spec. }
    rewrite H. by rewrite !orb_true_r.
  - intros type_line Htype Hexcl. apply excluded_no_block.
    rewrite is_non_playable_rules, Htype.
    apply non_playable_type_spec in Hexcl. rewrite Hexcl.
    by rewrite !orb_true_r.
  - intros oracle_text Horacle Htheme. apply excluded_no_block.
    rewrite is_non_playable_rules, Horacle.
    assert (H : theme_card (Some oracle_text) = true).
    { unfold theme_card. rewrite Htheme.
      destruct oracle_text; [by vm_compute in Htheme | done]. }
    rewrite H. by rewrite !orb_true_r.
  - intros oracle_text marker i Horacle Hin Hocc Hb. apply excluded_no_block.
    rewrite is_non_playable_rules, Horacle.
    assert (H : digital_only (Some oracle_text) = true).
    { apply digital_only_spec. exists marker. split; [done|].
      apply contains_marker_with_boundaries_spec;
        [by apply marker_not_empty|].
      exists i. unfold occurs_at.
      by rewrite <- lower_substring, at_word_boundaries_lower. }
    rewrite H. by rewrite !orb_true_r.
Qed.

Lemma seeker_faces_excluded : build_block seeker_faces = None.
Proof.
  apply (proj2 (proj2 (proj2 (proj2 (proj2
           (excluded_gets_no_block seeker_faces)))))
           "Seek a card." "seek" 0).
  - reflexivity.
  - simpl. tauto.
  - reflexivity.
  - split; [by left|].
    intros (ch & Hget & Halpha). injection Hget as <-. discriminate Halpha.
Defined.

(** ** The marker search on any text *)

Lemma substring_split (s : string) (i n : nat) :
  i + n <= String.length s ->
  s = Text.slice_to s i +:+ String.substring i n s
      +:+ Text.slice_from s (i + n).
Proof.
  revert s n. induction i as [|i IH]; intros s n Hlen.
  - assert (Text.slice_to s 0 = EmptyString) as -> by by destruct s.
    cbn [Nat.add]. rewrite app_nil_l.
    revert s Hlen. induction n as [|n IHn]; intros s Hlen.
    + by destruct s.
    + destruct s as [|c s]; [simpl in Hlen; lia|].
      cbn [String.substring Text.slice_from]. rewrite app_cons.
      f_equal. apply IHn. simpl in Hlen. lia.
  - destruct s as [|c s]; [simpl in Hlen; lia|].
    cbn [Nat.add Text.slice_to String.substring Text.slice_from].
    rewrite app_cons. f_equal. apply IH. simpl in Hlen. lia.
Qed.

(** X12: on every text and for every non-empty marker, the search loop
    comes to an answer within its budget, the answer is yes exactly when
    the marker occurs somewhere with no letter right before and no
    letter right after it, and a yes implies that the marker is a
    substring of the text. *)
Theorem marker_search (text marker : string) :
  marker <> EmptyString ->
  marker_loop (String.length text + 2) text marker (Text.find text marker 0)
  = Some (contains_marker_with_boundaries text marker)
  /\ (contains_marker_with_boundaries text marker = true
      <-> exists i, occurs_at text marker i
                    /\ at_word_boundaries text marker i)
  /\ (contains_marker_with_boundaries text marker = true ->
      Text.contains text marker = true).
Proof.
  intros Hne.
  assert (Hspec := contains_marker_with_boundaries_spec text marker Hne).
  split; [|split; [exact Hspec|]].
  - assert (Hret := marker_loop_returns text marker Hne).
    unfold contains_marker_with_boundaries.
    by destruct (marker_loop _ _ _ _).
  - intros (i & Hocc & _)%Hspec.
    assert (Hbound := occurs_at_bound text marker i Hne Hocc).
    apply contains_spec.
    exists (Text.slice_to text i),
           (Text.slice_from text (i + String.length marker)).
    rewrite (substring_split text i (String.length marker) Hbound) at 1.
    by rewrite Hocc.
Qed.

Lemma marker_search_second_hit :
  contains_marker_with_boundaries "unseeking; seek" "seek" = true
  /\ Text.contains "unseeking; seek" "seek" = true.
Proof.
  destruct (marker_search "unseeking; seek" "seek") as (_ & Hiff & Hsub);
    [done|].
  assert (H : contains_marker_with_boundaries "unseeking; seek" "seek" = true).
  { apply Hiff. exists 11. split; [reflexivity|]. split.
    - right. intros (ch & Hget & Halpha). injection Hget as <-.
      discriminate Halpha.
    - intros (ch & Hget & _). discriminate Hget. }
  split; [exact H | exact (Hsub H)].
Defined.

(** ** Files that end before the closing bracket *)

Section CutShort.

Context {value : Type}.
Variable raw_decode : string -> result (value * nat).
Variable size : nat.
Hypothesis size_pos : 0 < size.





End CutShort.





(** ** The decoder on a text that goes on

    A value that opens with a quote, a brace or a bracket is decoded the
    same whatever follows its text; so is any value that is followed by
    white space, a comma or a closing bracket or brace. *)

Ltac case_hyps :=
  match goal with
  | H : context [match ?x with _ => _ end] |- _ =>
      lazymatch x with
      | context [match _ with _ => _ end] => fail
      | _ => destruct x eqn:?
      end
  end.

Lemma skip_ws_ext (s r x : string) (c : ascii) :
  skip_ws s = String c r -> skip_ws (s +:+ x) = String c (r +:+ x).
Proof.
  induction s as [|a s IH]; [done|]. rewrite app_cons. cbn [skip_ws].
  destruct (is_ws a); [done|]. intros [= -> ->]. done.
Qed.

Lemma skip_ws_ext' (s x : string) :
  skip_ws s <> EmptyString -> skip_ws (s +:+ x) = skip_ws s +:+ x.
Proof.
  intros H. destruct (skip_ws s) as [|c r] eqn:Hs; [done|].
  by apply skip_ws_ext.
Qed.

Lemma skip_ws_stop (r r' : string) (c : ascii) :
  skip_ws r = String c r' -> stops c = true -> stop_head r = true.
Proof.
  destruct r as [|a r0]; [done|]. cbn [skip_ws stop_head].
  destruct (is_ws a) eqn:Ha.
  - intros _ _. unfold stops. by rewrite Ha.
  - by intros [= -> ->].
Qed.

Lemma span_digits_ext (s d r x : string) :
  span_digits s = (d, r) -> r <> EmptyString ->
  span_digits (s +:+ x) = (d, r +:+ x).
Proof.
  revert d. induction s as [|c s IH]; intros d.
  - by intros [= <- <-].
  - rewrite app_cons. cbn [span_digits].
    destruct (is_digit c).
    + destruct (span_digits s) as [d' r'] eqn:Hs. intros [= <- <-] Hr.
      by rewrite (IH d').
    + intros [= <- <-] _. by rewrite app_cons.
Qed.

Lemma stop_head_not_nil (r : string) : stop_head r = true -> r <> EmptyString.
Proof. by destruct r. Qed.

Lemma length_pos_not_nil (r : string) : r <> EmptyString <-> 0 < String.length r.
Proof. destruct r; simpl; split; (done || lia). Qed.

Lemma match_integer_ext (s i r x : string) :
  match_integer s = Some (i, r) -> r <> EmptyString ->
  match_integer (s +:+ x) = Some (i, r +:+ x).
Proof.
  unfold match_integer. intros H Hr.
  repeat case_hyps; simplify_eq; rewrite ?app_cons;
    cbn -[span_digits is_digit]; rewrite ?app_cons;
    cbn -[span_digits is_digit]; try done.
  all: match goal with
       | H : span_digits _ = _, Hd : is_digit _ = true |- _ =>
           apply (span_digits_ext _ _ _ x) in H; [|done];
           rewrite app_cons in H; by rewrite Hd, H
       end.
Qed.

Lemma match_frac_ext (s f r x : string) :
  match_frac s = (f, r) -> r <> EmptyString -> r <> "." ->
  match_frac (s +:+ x) = (f, r +:+ x).
Proof.
  unfold match_frac. intros H Hr Hdot.
  repeat case_hyps; simplify_eq; rewrite ?app_cons;
    cbn -[span_digits is_digit]; rewrite ?app_cons;
    cbn -[span_digits is_digit]; try done.
  - match goal with
    | H : span_digits ?s = _ |- _ =>
        destruct s as [|c s']; [done|]; rewrite app_cons;
        cbn [span_digits] in H |- *; destruct (is_digit c); [|done];
        by destruct (span_digits s')
    end.
  - match goal with
    | H : span_digits _ = _ |- _ =>
        apply (span_digits_ext _ _ _ x) in H; [by rewrite H | done]
    end.
Qed.

Lemma exp_not_stop (a : ascii) :
  Ascii.eqb a "e" || Ascii.eqb a "E" = true -> stops a = false.
Proof.
  by intros [->%Ascii.eqb_eq| ->%Ascii.eqb_eq]%orb_true_iff.
Qed.

Ltac rewrite_tests :=
  repeat match goal with
         | H : ?b = _ |- context [if ?b then _ else _] => rewrite H
         end.

Ltac extend_digits x :=
  match goal with
  | H : span_digits _ = (_, ?r), Hr : stop_head ?r = true |- _ =>
      apply (span_digits_ext _ _ _ x) in H;
      [rewrite ?app_cons in H; rewrite H | by apply stop_head_not_nil]
  end.

Lemma match_exp_ext (s e r x : string) :
  match_exp s = (e, r) -> stop_head r = true ->
  match_exp (s +:+ x) = (e, r +:+ x).
Proof.
  unfold match_exp. intros H Hr.
  repeat case_hyps; simplify_eq; rewrite ?app_cons;
    cbn -[span_digits is_digit]; rewrite ?app_cons;
    cbn -[span_digits is_digit]; try done.
  all: try (match goal with
            | H : _ || _ = true, Hr : stop_head (String ?a _) = true |- _ =>
                apply exp_not_stop in H; cbn [stop_head] in Hr; congruence
            end).
  all: rewrite_tests; try done; extend_digits x; done.
Qed.

Lemma match_number_ext (m : nat) (s : string) (v : result json)
    (r x : string) :
  match_number m s = Some (v, r) -> stop_head r = true ->
  match_number m (s +:+ x) = Some (v, r +:+ x).
Proof.
  unfold match_number. intros H Hr.
  destruct (match_integer s) as [[i r1]|] eqn:Hi; [|done].
  destruct (match_frac r1) as [f r2] eqn:Hf.
  destruct (match_exp r2) as [e r3] eqn:He.
  assert (r3 = r) as ->.
  { destruct (_ || _); [by simplify_eq|].
    destruct (int_of_literal m i); by simplify_eq. }
  assert (Hr2 : r2 <> EmptyString /\ r2 <> ".").
  { revert He. unfold match_exp. intros He.
    repeat case_hyps; simplify_eq; try done.
    all: split; intros ?; simplify_eq; done. }
  destruct Hr2 as [Hr2 Hdot].
  assert (Hr1 : r1 <> EmptyString).
  { apply length_match_frac in Hf. apply length_pos_not_nil.
    apply length_pos_not_nil in Hr2. lia. }
  rewrite (match_integer_ext _ _ _ x Hi Hr1).
  rewrite (match_frac_ext _ _ _ x Hf Hr2 Hdot).
  rewrite (match_exp_ext _ _ _ x He Hr).
  destruct (_ || _); [by simplify_eq|].
  destruct (int_of_literal m i); by simplify_eq.
Qed.

Lemma keyword_Some (s kw : string) (v : json) (p : json * string) :
  keyword s kw v = Some p -> exists post, s = kw +:+ post /\ p = (v, post).
Proof.
  unfold keyword, Text.startswith.
  destruct (String.prefix kw s) eqn:Hp; [|done]. intros [= <-].
  apply prefix_app in Hp as [post ->]. exists post.
  by rewrite slice_from_app.
Qed.

Lemma keyword_hit (kw post : string) (v : json) :
  keyword (kw +:+ post) kw v = Some (v, post).
Proof.
  unfold keyword, Text.startswith.
  rewrite (proj2 (prefix_app kw (kw +:+ post))) by by exists post.
  by rewrite slice_from_app.
Qed.

Lemma keyword_miss (c k : ascii) (s kw : string) (v : json) :
  Ascii.eqb c k = false -> keyword (String c s) (String k kw) v = None.
Proof.
  intros H. unfold keyword, Text.startswith. rewrite prefix_cons.
  destruct (ascii_dec k c) as [->|]; [|done].
  by rewrite Ascii.eqb_refl in H.
Qed.

Lemma number_head (m : nat) (c k : ascii) (s : string)
    (p : result json * string) :
  match_number m (String c s) = Some p ->
  is_digit k = false -> Ascii.eqb k "-" = false -> Ascii.eqb c k = false.
Proof.
  intros H Hk Hminus. apply Ascii.eqb_neq. intros ->.
  unfold match_number, match_integer in H.
  repeat case_hyps; simplify_eq; done.
Qed.

Lemma scan_atom_ext (m : nat) (s : string) (v : json) (r x : string) :
  scan_atom m s = Ok (v, r) -> stop_head r = true ->
  scan_atom m (s +:+ x) = Ok (v, r +:+ x).
Proof.
  unfold scan_atom at 1. intros H Hr.
  destruct (keyword s "null" JNull) as [p|] eqn:K1.
  { apply keyword_Some in K1 as (post & -> & ->). simplify_eq.
    unfold scan_atom. by rewrite app_assoc, keyword_hit. }
  destruct (keyword s "true" (JBool true)) as [p|] eqn:K2.
  { apply keyword_Some in K2 as (post & -> & ->). simplify_eq.
    unfold scan_atom. rewrite app_assoc, keyword_hit. reflexivity. }
  destruct (keyword s "false" (JBool false)) as [p|] eqn:K3.
  { apply keyword_Some in K3 as (post & -> & ->). simplify_eq.
    unfold scan_atom. rewrite app_assoc, keyword_hit. reflexivity. }
  destruct (match_number m s) as [[[v'|e] r']|] eqn:K4; [|done|].
  { simplify_eq. destruct s as [|c s]; [done|].
    unfold scan_atom. rewrite app_cons.
    rewrite !keyword_miss by by eapply number_head.
    rewrite <- app_cons. by rewrite (match_number_ext _ _ _ _ x K4 Hr). }
  destruct (keyword s "NaN" (JFloat "NaN")) as [p|] eqn:K5.
  { apply keyword_Some in K5 as (post & -> & ->). simplify_eq.
    unfold scan_atom. rewrite app_assoc, keyword_hit. reflexivity. }
  destruct (keyword s "Infinity" (JFloat "Infinity")) as [p|] eqn:K6.
  { apply keyword_Some in K6 as (post & -> & ->). simplify_eq.
    unfold scan_atom. rewrite app_assoc, keyword_hit. reflexivity. }
  destruct (keyword s "-Infinity" (JFloat "-Infinity")) as [p|] eqn:K7.
  { apply keyword_Some in K7 as (post & -> & ->). simplify_eq.
    unfold scan_atom. rewrite app_assoc, keyword_hit. reflexivity. }
  done.
Qed.

Lemma cons_char_Ok (c : N) (res : result (ustring * string))
    (u : ustring) (r : string) :
  cons_char c res = Ok (u, r) ->
  exists u', res = Ok (u', r) /\ u = c :: u'.
Proof.
  destruct res as [[u' r']|e]; [|done]. intros [= <- <-]. by exists u'.
Qed.

Lemma match_u_ext (s : string) (u : N) (r x : string) :
  match_u s = Some (u, r) -> match_u (s +:+ x) = Some (u, r +:+ x).
Proof.
  unfold match_u. intros H.
  repeat case_hyps; simplify_eq. rewrite !app_cons. cbn.
  match goal with H : hex4 _ _ _ _ = _ |- _ => by rewrite H end.
Qed.

Lemma match_u_miss (s : string) (p : ustring * string) (x : string) :
  match_u s = None -> scanstring s = Ok p -> match_u (s +:+ x) = None.
Proof.
  unfold match_u. intros H Hs.
  repeat case_hyps; simplify_eq; rewrite ?app_cons; cbn; try done.
  all: try (match goal with H : hex4 _ _ _ _ = _ |- _ => by rewrite H end).

Qed.

Lemma scanstring_ext (n : nat) (s : string) (u : ustring) (r x : string) :
  String.length s <= n ->
  scanstring s = Ok (u, r) -> scanstring (s +:+ x) = Ok (u, r +:+ x).
Proof.
  revert s u r. induction n as [|n IH]; intros s u r Hn.
  { destruct s; [done | simpl in Hn; lia]. }
  destruct s as [|c s]; [done|]. rewrite app_cons. cbn [scanstring].
  destruct (Ascii.eqb c "034"); [by intros [= <- <-]|].
  destruct (Ascii.eqb c "\").
  - destruct s as [|esc s]; [done|]. rewrite app_cons.
    destruct (Ascii.eqb esc "u").
    + destruct s as [|h1 [|h2 [|h3 [|h4 s4]]]]; try done.
      rewrite !app_cons. destruct (hex4 h1 h2 h3 h4) as [uni|]; [|done].
      destruct (Text.between 55296 56319 uni).
      * destruct (match_u s4) as [[uni2 r2]|] eqn:Hu.
        -- rewrite (match_u_ext _ _ _ x Hu).
           destruct (Text.between 56320 57343 uni2).
           ++ destruct s4 as [|c1 [|c2 [|c3 [|c4 [|c5 [|c6 s10]]]]]]; try done.
              rewrite !app_cons.
              intros (u' & Hs & ->)%cons_char_Ok.
              apply IH in Hs; [|simpl in *; lia]. by rewrite Hs.
           ++ intros (u' & Hs & ->)%cons_char_Ok.
              apply IH in Hs; [|simpl in *; lia]. by rewrite Hs.
        -- intros (u' & Hs & ->)%cons_char_Ok.
           rewrite (match_u_miss _ _ x Hu Hs).
           apply IH in Hs; [|simpl in *; lia]. by rewrite Hs.
      * intros (u' & Hs & ->)%cons_char_Ok.
        apply IH in Hs; [|simpl in *; lia]. by rewrite Hs.
    + destruct (unescape esc) as [ch|]; [|done].
      intros (u' & Hs & ->)%cons_char_Ok.
      apply IH in Hs; [|simpl in *; lia]. by rewrite Hs.
  - destruct (Text.code c <? 32)%N; [done|].
    intros (u' & Hs & ->)%cons_char_Ok.
    apply IH in Hs; [|simpl in *; lia]. by rewrite Hs.
Qed.

(** [scan_once] by the first character of the text. *)
Lemma scan_once_string (d m : nat) (s : string) :
  scan_once d m (String "034" s)
  = match scanstring s with
    | Ok (str, r) => Ok (JStr str, r)
    | Raise e => Raise e
    end.
Proof. by destruct d. Qed.

Lemma scan_once_atom (d m : nat) (c : ascii) (s : string) :
  opens_container (String c s) = false ->
  scan_once d m (String c s) = scan_atom m (String c s).
Proof.
  cbn [opens_container].
  intros [[Hq Hb]%orb_false_iff Ha]%orb_false_iff.
  destruct d; cbn [scan_once]; by rewrite Hq, Hb, Ha.
Qed.

Lemma scan_once_object (d m : nat) (s : string) :
  scan_once (S d) m (String "{" s)
  = match skip_ws s with
    | String "}" r => Ok (JObj ∅, r)
    | String "034" r => object_items (scan_once d m) (String.length r) r ∅
    | _ => Raise JSONDecodeError
    end.
Proof. reflexivity. Qed.

Lemma scan_once_array (d m : nat) (s : string) :
  scan_once (S d) m (String "[" s)
  = match skip_ws s with
    | String "]" r => Ok (JArr [], r)
    | r => array_items (scan_once d m) (String.length r) r []
    end.
Proof. reflexivity. Qed.

Lemma scan_once_array_item (d m : nat) (s r : string) (c : ascii) :
  skip_ws s = String c r -> Ascii.eqb c "]" = false ->
  scan_once (S d) m (String "[" s)
  = array_items (scan_once d m) (String.length (String c r))
      (String c r) [].
Proof.
  intros Hw Hc. rewrite scan_once_array, Hw.
  destruct c as [[] [] [] [] [] [] [] []]; try reflexivity.
  discriminate Hc.
Qed.

Lemma scan_once_array_close (d m : nat) (s r : string) :
  skip_ws s = String "]" r ->
  scan_once (S d) m (String "[" s) = Ok (JArr [], r).
Proof. intros Hw. by rewrite scan_once_array, Hw. Qed.

Lemma scan_once_array_nil (d m : nat) (s : string) :
  skip_ws s = EmptyString ->
  scan_once (S d) m (String "[" s) = Raise JSONDecodeError.
Proof. intros Hw. by rewrite scan_once_array, Hw. Qed.

Lemma scan_once_deep (m : nat) (c : ascii) (s : string) :
  Ascii.eqb c "{" || Ascii.eqb c "[" = true ->
  scan_once 0 m (String c s) = Raise RecursionError.
Proof.
  by intros [->%Ascii.eqb_eq| ->%Ascii.eqb_eq]%orb_true_iff.
Qed.

Lemma opens_container_cases (c : ascii) (s : string) :
  opens_container (String c s) = true ->
  c = "034"%char \/ c = "{"%char \/ c = "["%char.
Proof.
  cbn [opens_container].
  intros [[H|H]%orb_true_iff|H]%orb_true_iff;
    apply Ascii.eqb_eq in H; auto.
Qed.

Section LoopsExtended.

(** The loops on a longer text, with [scan'] for [scan]: the decoder
    with more levels of recursion on a text that goes on with [x]. *)
Variables scan scan' : string -> result (json * string).
Variable x : string.
Hypothesis scan_shortens :
  forall s v r, scan s = Ok (v, r) -> String.length r < String.length s.
Hypothesis scan_extends :
  forall s v r,
    scan s = Ok (v, r) -> stop_head r = true ->
    scan' (s +:+ x) = Ok (v, r +:+ x).

Lemma array_items_nil (n : nat) (values : list json) (p : json * string) :
  array_items scan n EmptyString values <> Ok p.
Proof.
  destruct p as [v r]. intros H.
  apply (array_items_progress scan scan_shortens) in H. simpl in H. lia.
Qed.

Lemma scan_nil (p : json * string) : scan EmptyString <> Ok p.
Proof.
  destruct p as [v r]. intros H. apply scan_shortens in H. simpl in H. lia.
Qed.

Lemma array_items_ext (n n' : nat) (s : string) (values : list json)
    (v : json) (r : string) :
  n <= n' ->
  array_items scan n s values = Ok (v, r) ->
  array_items scan' n' (s +:+ x) values = Ok (v, r +:+ x).
Proof.
  revert n' s values. induction n as [|n IH]; intros [|n'] s values Hn H;
    try done; [lia|].
  cbn [array_items] in H |- *.
  destruct (scan s) as [[value r0]|] eqn:Hv; [|done].
  destruct (skip_ws r0) as [|c0 r1] eqn:Hw; [done|]. cbn in H.
  repeat case_hyps; simplify_eq.
  all: rewrite (scan_extends _ _ _ Hv) by by eapply skip_ws_stop.
  all: rewrite (skip_ws_ext _ _ x _ Hw); cbn; try done.
  rewrite skip_ws_ext' by (intros Hnil; rewrite Hnil in H;
                            by apply array_items_nil in H).
  apply IH; [lia | done].
Qed.

Lemma object_items_ext (n n' : nat) (s : string)
    (pairs : gmap ustring json) (v : json) (r : string) :
  n <= n' ->
  object_items scan n s pairs = Ok (v, r) ->
  object_items scan' n' (s +:+ x) pairs = Ok (v, r +:+ x).
Proof.
  revert n' s pairs. induction n as [|n IH]; intros [|n'] s pairs Hn H;
    try done; [lia|].
  cbn [object_items] in H |- *.
  destruct (scanstring s) as [[key r0]|] eqn:Hk; [|done].
  rewrite (scanstring_ext _ _ _ _ x (le_n _) Hk).
  destruct (skip_ws r0) as [|c0 r1] eqn:Hw; [done|].
  rewrite (skip_ws_ext _ _ x _ Hw). cbn in H.
  destruct (scan (skip_ws r1)) as [[value r2]|] eqn:Hv.
  2:{ repeat case_hyps; simplify_eq. }
  destruct (skip_ws r2) as [|c2 r3] eqn:Hw2.
  { repeat case_hyps; simplify_eq. }
  assert (Hnil : skip_ws r1 <> EmptyString).
  { intros Hnil. rewrite Hnil in Hv. by apply scan_nil in Hv. }
  rewrite skip_ws_ext' by done.
  repeat case_hyps; simplify_eq; cbn.
  all: rewrite (scan_extends _ _ _ Hv) by by eapply skip_ws_stop.
  all: rewrite (skip_ws_ext _ _ x _ Hw2); cbn; try done.
  match goal with
  | Hq : skip_ws r3 = String _ _ |- _ => rewrite (skip_ws_ext _ _ x _ Hq)
  end.
  cbn. apply IH; [lia | done].
Qed.

End LoopsExtended.

(** A string, an object or an array decodes the same whatever follows
    its text, and so does a value that is followed by white space, a
    comma or a closing bracket or brace; more levels of recursion change
    nothing. *)
Lemma scan_ext (d d' m : nat) (s : string) (v : json) (r x : string) :
  d <= d' ->
  scan_once d m s = Ok (v, r) ->
  opens_container s = true \/ stop_head r = true ->
  scan_once d' m (s +:+ x) = Ok (v, r +:+ x).
Proof.
  revert d' s v r. induction d as [|d IH]; intros d' s v r Hd H Hst;
    (destruct s as [|c s]; [by destruct d'|]);
    (destruct (opens_container (String c s)) eqn:Hopen;
     [|rewrite scan_once_atom in H by done;
       rewrite app_cons, scan_once_atom, <- app_cons by done;
       apply scan_atom_ext; [done | by destruct Hst]]);
    clear Hst; rewrite app_cons;
    apply opens_container_cases in Hopen as [->|[->| ->]].
  - rewrite scan_once_string in H |- *.
    destruct (scanstring s) as [[str r0]|] eqn:Hs; [|done]. simplify_eq.
    by rewrite (scanstring_ext _ _ _ _ x (le_n _) Hs).
  - done.
  - done.
  - rewrite scan_once_string in H |- *.
    destruct (scanstring s) as [[str r0]|] eqn:Hs; [|done]. simplify_eq.
    by rewrite (scanstring_ext _ _ _ _ x (le_n _) Hs).
  - destruct d' as [|d']; [lia|]. rewrite scan_once_object in H |- *.
    destruct (skip_ws s) as [|c0 r0] eqn:Hw; [done|].
    rewrite (skip_ws_ext _ _ x _ Hw). cbn in H.
    repeat case_hyps; simplify_eq; cbn; [done|].
    eapply (object_items_ext (scan_once d m) (scan_once d' m) x);
      [intros s0 v0 r1; apply scan_progress
      |intros s0 v0 r1 H0 Hstop; apply IH; [lia | done | by right]
      | |exact H].
    rewrite length_app. lia.
  - destruct d' as [|d']; [lia|].
    destruct (skip_ws s) as [|c0 r0] eqn:Hw.
    { by rewrite scan_once_array_nil in H. }
    assert (Hw' := skip_ws_ext _ _ x _ Hw).
    destruct (Ascii.eqb c0 "]") eqn:Hc.
    { apply Ascii.eqb_eq in Hc as ->.
      rewrite (scan_once_array_close _ _ _ _ Hw) in H.
      rewrite (scan_once_array_close _ _ _ _ Hw'). by simplify_eq. }
    rewrite (scan_once_array_item _ _ _ _ _ Hw Hc) in H.
    rewrite (scan_once_array_item _ _ _ _ _ Hw' Hc), <- app_cons.
    eapply (array_items_ext (scan_once d m) (scan_once d' m) x);
      [intros s0 v0 r1; apply scan_progress
      |intros s0 v0 r1 H0 Hstop; apply IH; [lia | done | by right]
      | |exact H].
    rewrite length_app. lia.
Qed.

(** ** The two limits on the beginning of a text *)

Lemma match_number_error (m : nat) (s r : string) (e : exn) :
  match_number m s = Some (Raise e, r) -> e = ValueError.
Proof.
  unfold match_number, int_of_literal. intros H.
  repeat case_match; by simplify_eq.
Qed.

Lemma scan_atom_error (m : nat) (s : string) (e : exn) :
  scan_atom m s = Raise e -> e = JSONDecodeError \/ e = ValueError.
Proof.
  unfold scan_atom. intros H.
  repeat case_match; simplify_eq; auto.
  right. by eapply match_number_error.
Qed.

Lemma scan_once_empty (d m : nat) :
  scan_once d m EmptyString = Raise JSONDecodeError.
Proof. by destruct d. Qed.

Section LoopsDeep.

(** A text on which the loops run out of recursion runs out of it
    whatever follows. *)
Variable scan : string -> result (json * string).
Variable x : string.
Hypothesis scan_extends :
  forall s v r,
    scan s = Ok (v, r) -> stop_head r = true ->
    scan (s +:+ x) = Ok (v, r +:+ x).
Hypothesis scan_empty : scan EmptyString = Raise JSONDecodeError.
Hypothesis scan_deep :
  forall s,
    scan s = Raise RecursionError -> scan (s +:+ x) = Raise RecursionError.

Lemma array_items_empty (n : nat) (values : list json) :
  array_items scan n EmptyString values = Raise JSONDecodeError.
Proof. destruct n; [done|]. cbn [array_items]. by rewrite scan_empty. Qed.

Lemma array_items_deep (n n' : nat) (s : string) (values : list json) :
  n <= n' ->
  array_items scan n s values = Raise RecursionError ->
  array_items scan n' (s +:+ x) values = Raise RecursionError.
Proof.
  revert n' s values. induction n as [|n IH]; intros [|n'] s values Hn H;
    try done; [lia|].
  cbn [array_items] in H |- *.
  destruct (scan s) as [[value r0]|e] eqn:Hv.
  2:{ simplify_eq. by rewrite (scan_deep _ Hv). }
  destruct (skip_ws r0) as [|c0 r1] eqn:Hw; [done|]. cbn in H.
  repeat case_hyps; simplify_eq.
  rewrite (scan_extends _ _ _ Hv) by by eapply skip_ws_stop.
  rewrite (skip_ws_ext _ _ x _ Hw). cbn.
  rewrite skip_ws_ext' by (intros Hnil; rewrite Hnil in H;
                            by rewrite array_items_empty in H).
  apply IH; [lia | done].
Qed.

Lemma object_items_deep (n n' : nat) (s : string)
    (pairs : gmap ustring json) :
  n <= n' ->
  object_items scan n s pairs = Raise RecursionError ->
  object_items scan n' (s +:+ x) pairs = Raise RecursionError.
Proof.
  revert n' s pairs. induction n as [|n IH]; intros [|n'] s pairs Hn H;
    try done; [lia|].
  cbn [object_items] in H |- *.
  destruct (scanstring s) as [[key r0]|e] eqn:Hk.
  2:{ simplify_eq. by apply (scanstring_error _ _ _ (le_n _)) in Hk. }
  rewrite (scanstring_ext _ _ _ _ x (le_n _) Hk).
  destruct (skip_ws r0) as [|c0 r1] eqn:Hw; [done|].
  rewrite (skip_ws_ext _ _ x _ Hw). cbn in H.
  assert (Hnil : skip_ws r1 = EmptyString ->
                 scan (skip_ws r1) = Raise JSONDecodeError)
    by (intros ->; exact scan_empty).
  destruct (scan (skip_ws r1)) as [[value r2]|e] eqn:Hv.
  - destruct (skip_ws r2) as [|c2 r3] eqn:Hw2.
    { repeat case_hyps; simplify_eq. }
    rewrite skip_ws_ext' by (intros E; by apply Hnil in E).
    repeat case_hyps; simplify_eq; cbn.
    rewrite (scan_extends _ _ _ Hv) by by eapply skip_ws_stop.
    rewrite (skip_ws_ext _ _ x _ Hw2). cbn.
    match goal with
    | Hq : skip_ws r3 = String _ _ |- _ => rewrite (skip_ws_ext _ _ x _ Hq)
    end.
    cbn. apply IH; [lia | done].
  - assert (e = RecursionError) as -> by (repeat case_hyps; by simplify_eq).
    rewrite skip_ws_ext' by (intros E; by apply Hnil in E).
    repeat case_hyps; simplify_eq; cbn. by rewrite (scan_deep _ Hv).
Qed.

End LoopsDeep.

(** Running out of recursion does not depend on what follows the text
    that has been read. *)
Lemma scan_deep (d m : nat) (s x : string) :
  scan_once d m s = Raise RecursionError ->
  scan_once d m (s +:+ x) = Raise RecursionError.
Proof.
  revert s. induction d as [|d IH]; intros s H;
    (destruct s as [|c s]; [by rewrite scan_once_empty in H|]);
    (destruct (opens_container (String c s)) eqn:Hopen;
     [|rewrite scan_once_atom in H by done;
       by apply scan_atom_error in H as [?|?]]);
    rewrite app_cons;
    apply opens_container_cases in Hopen as [->|[->| ->]];
    try done.
  - rewrite scan_once_string in H.
    destruct (scanstring s) as [[str r0]|e] eqn:Hs; [done|]. simplify_eq.
    by apply (scanstring_error _ _ _ (le_n _)) in Hs.
  - rewrite scan_once_string in H.
    destruct (scanstring s) as [[str r0]|e] eqn:Hs; [done|]. simplify_eq.
    by apply (scanstring_error _ _ _ (le_n _)) in Hs.
  - rewrite scan_once_object in H |- *.
    destruct (skip_ws s) as [|c0 r0] eqn:Hw; [done|].
    rewrite (skip_ws_ext _ _ x _ Hw). cbn in H.
    repeat case_hyps; simplify_eq; cbn.
    eapply (object_items_deep (scan_once d m) x);
      [intros s0 v0 r1 H0 Hstop; apply (scan_ext d d); [lia | done | by right]
      |apply scan_once_empty
      |exact (IH)
      | |exact H].
    rewrite length_app. lia.
  - destruct (skip_ws s) as [|c0 r0] eqn:Hw.
    { by rewrite scan_once_array_nil in H. }
    assert (Hw' := skip_ws_ext _ _ x _ Hw).
    destruct (Ascii.eqb c0 "]") eqn:Hc.
    { apply Ascii.eqb_eq in Hc as ->.
      by rewrite (scan_once_array_close _ _ _ _ Hw) in H. }
    rewrite (scan_once_array_item _ _ _ _ _ Hw Hc) in H.
    rewrite (scan_once_array_item _ _ _ _ _ Hw' Hc), <- app_cons.
    eapply (array_items_deep (scan_once d m) x);
      [intros s0 v0 r1 H0 Hstop; apply (scan_ext d d); [lia | done | by right]
      |apply scan_once_empty
      |exact (IH)
      | |exact H].
    rewrite length_app. lia.
Qed.

(** What the decoder leaves is the end of the text it was given. *)

Lemma tail_refl (r : string) : exists p, r = p +:+ r.
Proof. by exists EmptyString. Qed.

Lemma tail_cons (c : ascii) (s r : string) :
  (exists p, s = p +:+ r) -> exists p, String c s = p +:+ r.
Proof. intros [p ->]. by exists (String c p). Qed.

Lemma tail_trans (s t r : string) :
  (exists p, s = p +:+ t) -> (exists p, t = p +:+ r) ->
  exists p, s = p +:+ r.
Proof. intros [p ->] [q ->]. exists (p +:+ q). by rewrite app_assoc. Qed.

Ltac tails :=
  repeat first [ eassumption | apply tail_refl | apply tail_cons ].

Lemma skip_ws_tail (s : string) : exists p, s = p +:+ skip_ws s.
Proof.
  induction s as [|c s IH]; [apply tail_refl|]. cbn [skip_ws].
  destruct (is_ws c); tails.
Qed.

Lemma slice_from_tail (s : string) (n : nat) :
  exists p, s = p +:+ Text.slice_from s n.
Proof. exists (Text.slice_to s n). by rewrite slice_to_from. Qed.

Lemma span_digits_split (s d r : string) :
  span_digits s = (d, r) -> s = d +:+ r /\ String.length d = digit_run s.
Proof.
  revert d r. induction s as [|c s IH]; intros d r.
  - by intros [= <- <-].
  - cbn [span_digits digit_run]. destruct (is_digit c).
    + destruct (span_digits s) as [d' r'] eqn:Hs. intros [= <- <-].
      destruct (IH _ _ eq_refl) as [-> <-]. by rewrite app_cons.
    + by intros [= <- <-].
Qed.

Lemma span_digits_tail (s d r : string) :
  span_digits s = (d, r) -> exists p, s = p +:+ r.
Proof. intros [-> _]%span_digits_split. by exists d. Qed.

Lemma match_integer_tail (s i r : string) :
  match_integer s = Some (i, r) -> exists p, s = p +:+ r.
Proof.
  unfold match_integer. intros H.
  repeat case_hyps; simplify_eq;
    try (match goal with
         | H : span_digits _ = _ |- _ => apply span_digits_tail in H
         end);
    tails.
Qed.

Lemma match_frac_tail (s f r : string) :
  match_frac s = (f, r) -> exists p, s = p +:+ r.
Proof.
  unfold match_frac. intros H.
  repeat case_hyps; simplify_eq;
    try (match goal with
         | H : span_digits _ = _ |- _ => apply span_digits_tail in H
         end);
    tails.
Qed.

Lemma match_exp_tail (s e r : string) :
  match_exp s = (e, r) -> exists p, s = p +:+ r.
Proof.
  unfold match_exp. intros H.
  repeat case_hyps; simplify_eq;
    try (match goal with
         | H : span_digits _ = _ |- _ => apply span_digits_tail in H
         end);
    tails.
Qed.

Lemma match_number_tail (m : nat) (s : string) (v : result json)
    (r : string) :
  match_number m s = Some (v, r) -> exists p, s = p +:+ r.
Proof.
  unfold match_number. intros H.
  destruct (match_integer s) as [[i r1]|] eqn:Hi; [|done].
  destruct (match_frac r1) as [f r2] eqn:Hf.
  destruct (match_exp r2) as [e r3] eqn:He.
  assert (r3 = r) as ->.
  { destruct (_ || _); [by simplify_eq|].
    destruct (int_of_literal m i); by simplify_eq. }
  apply match_integer_tail in Hi. apply match_frac_tail in Hf.
  apply match_exp_tail in He.
  eapply tail_trans; [exact Hi|]. by eapply tail_trans.
Qed.

Lemma scanstring_tail (n : nat) (s : string) (u : ustring) (r : string) :
  String.length s <= n ->
  scanstring s = Ok (u, r) -> exists p, s = p +:+ r.
Proof.
  revert s u r. induction n as [|n IH]; intros s u r Hn.
  - destruct s; [done | simpl in Hn; lia].
  - destruct s as [|c s]; [done|]. cbn [scanstring]. unfold cons_char.
    intros H.
    repeat case_match; simplify_eq; simpl in *;
      repeat match goal with
             | H : scanstring _ = Ok _ |- _ =>
                 apply IH in H; [|simpl; lia]
             end;
      tails.
Qed.

Lemma scan_atom_tail (m : nat) (s : string) (v : json) (r : string) :
  scan_atom m s = Ok (v, r) -> exists p, s = p +:+ r.
Proof.
  unfold scan_atom. intros H.
  repeat case_match; simplify_eq;
    try (match goal with
         | H : keyword _ _ _ = Some _ |- _ =>
             apply keyword_Some in H as (post & -> & ?); simplify_eq;
             by eexists
         | H : match_number _ _ = Some _ |- _ =>
             by apply match_number_tail in H
         end).
Qed.

Section LoopsTail.

Variable scan : string -> result (json * string).
Hypothesis scan_tail :
  forall s v r, scan s = Ok (v, r) -> exists p, s = p +:+ r.

Lemma array_items_tail (n : nat) (s : string) (values : list json)
    (v : json) (r : string) :
  array_items scan n s values = Ok (v, r) -> exists p, s = p +:+ r.
Proof.
  revert s values. induction n as [|n IH]; intros s values H; [done|].
  cbn [array_items] in H.
  destruct (scan s) as [[value r0]|] eqn:Hv; [|done].
  apply scan_tail in Hv. eapply tail_trans; [exact Hv|].
  eapply tail_trans; [apply skip_ws_tail|].
  destruct (skip_ws r0) as [|c0 r1]; [done|]. cbn in H.
  repeat case_hyps; simplify_eq; [tails|].
  apply tail_cons. eapply tail_trans; [apply skip_ws_tail|].
  by eapply IH.
Qed.

Lemma object_items_tail (n : nat) (s : string)
    (pairs : gmap ustring json) (v : json) (r : string) :
  object_items scan n s pairs = Ok (v, r) -> exists p, s = p +:+ r.
Proof.
  revert s pairs. induction n as [|n IH]; intros s pairs H; [done|].
  cbn [object_items] in H.
  destruct (scanstring s) as [[key r0]|] eqn:Hk; [|done].
  apply (scanstring_tail _ _ _ _ (le_n _)) in Hk.
  eapply tail_trans; [exact Hk|].
  eapply tail_trans; [apply skip_ws_tail|].
  destruct (skip_ws r0) as [|c0 r1]; [done|]. cbn in H.
  destruct (scan (skip_ws r1)) as [[value r2]|] eqn:Hv.
  2:{ repeat case_hyps; simplify_eq. }
  apply scan_tail in Hv.
  apply tail_cons. eapply tail_trans; [apply skip_ws_tail|].
  eapply tail_trans; [exact Hv|].
  eapply tail_trans; [apply skip_ws_tail|].
  destruct (skip_ws r2) as [|c2 r3].
  { repeat case_hyps; simplify_eq. }
  repeat case_hyps; simplify_eq; [tails|].
  apply tail_cons. eapply tail_trans; [apply skip_ws_tail|].
  match goal with
  | Hq : skip_ws r3 = String _ _ |- _ => rewrite Hq
  end.
  apply tail_cons. by eapply IH.
Qed.

End LoopsTail.

Lemma scan_tail (d m : nat) (s : string) (v : json) (r : string) :
  scan_once d m s = Ok (v, r) -> exists p, s = p +:+ r.
Proof.
  revert s v r. induction d as [|d IH]; intros s v r H;
    (destruct s as [|c s]; [by rewrite scan_once_empty in H|]);
    (destruct (opens_container (String c s)) eqn:Hopen;
     [|rewrite scan_once_atom in H by done; by eapply scan_atom_tail]);
    apply opens_container_cases in Hopen as [->|[->| ->]];
    try done.
  - rewrite scan_once_string in H.
    destruct (scanstring s) as [[str r0]|] eqn:Hs; [|done]. simplify_eq.
    apply tail_cons. by eapply scanstring_tail.
  - rewrite scan_once_string in H.
    destruct (scanstring s) as [[str r0]|] eqn:Hs; [|done]. simplify_eq.
    apply tail_cons. by eapply scanstring_tail.
  - rewrite scan_once_object in H. apply tail_cons.
    eapply tail_trans; [apply skip_ws_tail|].
    destruct (skip_ws s) as [|c0 r0]; [done|]. cbn in H.
    repeat case_hyps; simplify_eq; [tails|].
    apply tail_cons. by eapply (object_items_tail _ IH).
  - apply tail_cons. eapply tail_trans; [apply skip_ws_tail|].
    destruct (skip_ws s) as [|c0 r0] eqn:Hw.
    { by rewrite scan_once_array_nil in H. }
    destruct (Ascii.eqb c0 "]") eqn:Hc.
    { apply Ascii.eqb_eq in Hc as ->.
      rewrite (scan_once_array_close _ _ _ _ Hw) in H. simplify_eq. tails. }
    rewrite (scan_once_array_item _ _ _ _ _ Hw Hc) in H.
    by eapply (array_items_tail _ IH).
Qed.

(** ** Integer literals within the limit of the conversion *)

Lemma fits_app_r (m : nat) (p r : string) :
  numbers_fit m (p +:+ r) = true -> numbers_fit m r = true.
Proof.
  unfold numbers_fit. destruct (m =? 0)%nat; [done|]. cbn [orb].
  induction p as [|c p IH]; [done|]. rewrite app_cons.
  cbn [digit_runs_within]. intros [_ H]%andb_true_iff. by apply IH.
Qed.

Lemma fits_tail (m : nat) (s r : string) :
  (exists p, s = p +:+ r) -> numbers_fit m s = true ->
  numbers_fit m r = true.
Proof. intros [p ->]. apply fits_app_r. Qed.



Lemma fits_run (m : nat) (s : string) :
  numbers_fit m s = true -> m = 0 \/ digit_run s <= m.
Proof.
  unfold numbers_fit. destruct (Nat.eqb_spec m 0) as [->|_]; [by left|].
  cbn [orb]. destruct s as [|c s]; [simpl; lia|].
  cbn [digit_runs_within]. intros [H _]%andb_true_iff.
  apply Nat.leb_le in H. by right.
Qed.

Lemma int_of_literal_fits (m : nat) (lit : string) :
  m = 0 \/ String.length (int_digits lit) <= m ->
  exists z, int_of_literal m lit = Ok z.
Proof.
  intros H. unfold int_of_literal.
  assert ((INT_MAX_STR_DIGITS_THRESHOLD
           <? String.length (int_digits lit))%nat
          && (0 <? m)%nat && (m <? String.length (int_digits lit))%nat
          = false) as ->; [|by eexists].
  destruct H as [->|H]; [by rewrite andb_false_r|].
  apply andb_false_iff. right. apply Nat.ltb_ge. lia.
Qed.

Lemma int_digits_span (s d r : string) :
  span_digits s = (d, r) -> int_digits d = d.
Proof.
  destruct s as [|c s]; [by intros [= <- <-]|]. cbn [span_digits].
  destruct (is_digit c) eqn:Hc; [|by intros [= <- <-]].
  destruct (span_digits s) as [d' r']. intros [= <- <-].
  by destruct c as [[] [] [] [] [] [] [] []].
Qed.

Lemma match_integer_fits (m : nat) (s i r : string) :
  match_integer s = Some (i, r) -> numbers_fit m s = true ->
  m = 0 \/ String.length (int_digits i) <= m.
Proof.
  intros H Hfit.
  destruct (Nat.eq_dec m 0) as [->|Hm]; [by left | right].
  assert (Hruns : forall t, (exists p, s = p +:+ t) -> digit_run t <= m).
  { intros t Ht. destruct (fits_run m t); [by eapply fits_tail | lia | done]. }
  unfold match_integer in H.
  repeat case_hyps; simplify_eq;
    rewrite ?app_cons, ?app_nil_l; cbn [int_digits];
    try (cbn [String.length]; lia);
    match goal with
    | H : span_digits ?t = (_, _) |- _ =>
        rewrite ?(int_digits_span _ _ _ H);
        apply span_digits_split in H as [_ ->]; apply Hruns; tails
    end.
Qed.

Lemma match_number_fits (m : nat) (s : string) (e : exn) (r : string) :
  numbers_fit m s = true -> match_number m s <> Some (Raise e, r).
Proof.
  intros Hfit H. unfold match_number in H.
  destruct (match_integer s) as [[i r0]|] eqn:Hi; [|done].
  destruct (int_of_literal_fits m i (match_integer_fits _ _ _ _ Hi Hfit))
    as [z Hz].
  rewrite Hz in H. repeat case_hyps; simplify_eq.
Qed.

Lemma scan_atom_fits (m : nat) (s : string) :
  numbers_fit m s = true -> scan_atom m s <> Raise ValueError.
Proof.
  intros Hfit H. unfold scan_atom in H.
  repeat case_hyps; simplify_eq.
  by eapply match_number_fits.
Qed.

Section LoopsFit.

Variable scan : string -> result (json * string).
Variable m : nat.
Hypothesis scan_tail :
  forall s v r, scan s = Ok (v, r) -> exists p, s = p +:+ r.
Hypothesis scan_fits :
  forall s, numbers_fit m s = true -> scan s <> Raise ValueError.

Lemma array_items_fits (n : nat) (s : string) (values : list json) :
  numbers_fit m s = true -> array_items scan n s values <> Raise ValueError.
Proof.
  revert s values. induction n as [|n IH]; intros s values Hfit H; [done|].
  cbn [array_items] in H.
  destruct (scan s) as [[value r0]|e] eqn:Hv.
  2:{ simplify_eq. by apply scan_fits in Hv. }
  apply scan_tail in Hv. apply (fits_tail m) in Hv; [|done].
  assert (Hw := fits_tail m _ _ (skip_ws_tail r0) Hv).
  destruct (skip_ws r0) as [|c0 r1]; [done|]. cbn in H.
  repeat case_hyps; simplify_eq.
  apply IH in H; [done|].
  eapply fits_tail; [|exact Hw]. apply tail_cons, skip_ws_tail.
Qed.

Lemma object_items_fits (n : nat) (s : string) (pairs : gmap ustring json) :
  numbers_fit m s = true -> object_items scan n s pairs <> Raise ValueError.
Proof.
  revert s pairs. induction n as [|n IH]; intros s pairs Hfit H; [done|].
  cbn [object_items] in H.
  destruct (scanstring s) as [[key r0]|e] eqn:Hk.
  2:{ simplify_eq. by apply (scanstring_error _ _ _ (le_n _)) in Hk. }
  apply (scanstring_tail _ _ _ _ (le_n _)) in Hk.
  apply (fits_tail m) in Hk; [|done].
  assert (Hw := fits_tail m _ _ (skip_ws_tail r0) Hk).
  destruct (skip_ws r0) as [|c0 r1]; [done|]. cbn in H.
  assert (Hw1 : numbers_fit m (skip_ws r1) = true).
  { eapply fits_tail; [|exact Hw]. apply tail_cons, skip_ws_tail. }
  destruct (scan (skip_ws r1)) as [[value r2]|e] eqn:Hv.
  2:{ repeat case_hyps; simplify_eq. by apply scan_fits in Hv. }
  apply scan_tail in Hv. apply (fits_tail m) in Hv; [|done].
  assert (Hw2 := fits_tail m _ _ (skip_ws_tail r2) Hv).
  destruct (skip_ws r2) as [|c2 r3].
  { repeat case_hyps; simplify_eq. }
  repeat case_hyps; simplify_eq.
  apply IH in H; [done|].
  eapply fits_tail; [|exact Hw2]. apply tail_cons.
  eapply tail_trans; [apply skip_ws_tail|].
  match goal with
  | Hq : skip_ws r3 = String _ _ |- _ => rewrite Hq
  end.
  tails.
Qed.

End LoopsFit.

(** With its integer literals within the limit, a text makes the
    decoder raise no [ValueError]. *)
Lemma scan_fits (d m : nat) (s : string) :
  numbers_fit m s = true -> scan_once d m s <> Raise ValueError.
Proof.
  revert s. induction d as [|d IH]; intros s Hfit H;
    (destruct s as [|c s]; [by rewrite scan_once_empty in H|]);
    (destruct (opens_container (String c s)) eqn:Hopen;
     [|rewrite scan_once_atom in H by done; by eapply scan_atom_fits]);
    apply opens_container_cases in Hopen as [->|[->| ->]];
    try done.
  - rewrite scan_once_string in H.
    destruct (scanstring s) as [[str r0]|e] eqn:Hs; [done|]. simplify_eq.
    by apply (scanstring_error _ _ _ (le_n _)) in Hs.
  - rewrite scan_once_string in H.
    destruct (scanstring s) as [[str r0]|e] eqn:Hs; [done|]. simplify_eq.
    by apply (scanstring_error _ _ _ (le_n _)) in Hs.
  - rewrite scan_once_object in H.
    assert (Hw : numbers_fit m (skip_ws s) = true).
    { eapply fits_tail; [|exact Hfit]. apply tail_cons, skip_ws_tail. }
    destruct (skip_ws s) as [|c0 r0]; [done|]. cbn in H.
    repeat case_hyps; simplify_eq.
    eapply (object_items_fits _ m (scan_tail d m) IH); [|exact H].
    eapply fits_tail; [|exact Hw]. tails.
  - assert (Hw : numbers_fit m (skip_ws s) = true).
    { eapply fits_tail; [|exact Hfit]. apply tail_cons, skip_ws_tail. }
    destruct (skip_ws s) as [|c0 r0] eqn:Hs.
    { by rewrite scan_once_array_nil in H. }
    destruct (Ascii.eqb c0 "]") eqn:Hc.
    { apply Ascii.eqb_eq in Hc as ->.
      by rewrite (scan_once_array_close _ _ _ _ Hs) in H. }
    rewrite (scan_once_array_item _ _ _ _ _ Hs Hc) in H.
    by eapply (array_items_fits _ m (scan_tail d m) IH); [|exact H].
Qed.

(** ** The budgets of the loops of the decoder *)

Section LoopsBudget.

Variable scan : string -> result (json * string).
Hypothesis scan_shortens :
  forall s v r, scan s = Ok (v, r) -> String.length r < String.length s.
Hypothesis scan_empty : scan EmptyString = Raise JSONDecodeError.

(** A budget that is at least the length of the text is never spent
    before the loop ends: any two such budgets give the same result. *)
Lemma array_items_budget (n n' : nat) (s : string) (values : list json) :
  String.length s <= n -> String.length s <= n' ->
  array_items scan n s values = array_items scan n' s values.
Proof.
  revert n' s values.
  induction n as [|n IH]; intros [|n'] s values Hn Hn'; [done| | |].
  - destruct s; [|simpl in Hn; lia]. cbn [array_items]. by rewrite scan_empty.
  - destruct s; [|simpl in Hn'; lia]. cbn [array_items]. by rewrite scan_empty.
  - cbn [array_items].
    destruct (scan s) as [[value r0]|] eqn:Hv; [|done].
    apply scan_shortens in Hv.
    assert (Hw := length_skip_ws r0).
    destruct (skip_ws r0) as [|c0 r1]; [done|]. simpl in Hw.
    assert (Hw1 := length_skip_ws r1).
    repeat case_match; simplify_eq; try done.
    apply IH; lia.
Qed.

Lemma object_items_budget (n n' : nat) (s : string)
    (pairs : gmap ustring json) :
  String.length s <= n -> String.length s <= n' ->
  object_items scan n s pairs = object_items scan n' s pairs.
Proof.
  revert n' s pairs.
  induction n as [|n IH]; intros [|n'] s pairs Hn Hn'; [done| | |].
  - by destruct s; [|simpl in Hn; lia].
  - by destruct s; [|simpl in Hn'; lia].
  - cbn [object_items].
    destruct (scanstring s) as [[key r0]|] eqn:Hk; [|done].
    apply (length_scanstring _ _ _ _ (le_n _)) in Hk.
    assert (Hw := length_skip_ws r0).
    destruct (skip_ws r0) as [|c0 r1]; [done|]. simpl in Hw.
    assert (Hw1 := length_skip_ws r1).
    destruct (Ascii.eqb c0 ":") eqn:Hc;
      [apply Ascii.eqb_eq in Hc as ->
      |by destruct c0 as [[] [] [] [] [] [] [] []]].
    destruct (scan (skip_ws r1)) as [[value r2]|] eqn:Hv; [|done].
    apply scan_shortens in Hv.
    assert (Hw2 := length_skip_ws r2).
    destruct (skip_ws r2) as [|c2 r3]; [done|]. simpl in Hw2.
    assert (Hw3 := length_skip_ws r3).
    destruct (Ascii.eqb c2 ",") eqn:Hc2;
      [apply Ascii.eqb_eq in Hc2 as ->
      |by destruct c2 as [[] [] [] [] [] [] [] []]].
    destruct (skip_ws r3) as [|c3 r4]; [done|]. simpl in Hw3.
    destruct (Ascii.eqb c3 "034") eqn:Hc3;
      [apply Ascii.eqb_eq in Hc3 as ->
      |by destruct c3 as [[] [] [] [] [] [] [] []]].
    apply IH; lia.
Qed.

End LoopsBudget.

(** ** Strings, objects and arrays delimit themselves *)







(** ** The generator and decoding the text at once *)

Lemma is_ws_isspace (c : ascii) : is_ws c = true -> Text.char_isspace c = true.
Proof.
  unfold is_ws. intros H. repeat case_hyps; simplify_eq; done.
Qed.

Lemma json_blank_blank (ws : string) : json_blank ws -> blank ws.
Proof.
  unfold json_blank, blank. induction ws as [|c ws IH]; [done|]. simpl.
  intros [Hc Hws]%andb_true_iff. by rewrite (is_ws_isspace c Hc), IH.
Qed.

Lemma skip_ws_blank (ws s : string) :
  json_blank ws -> skip_ws (ws +:+ s) = skip_ws s.
Proof.
  unfold json_blank. induction ws as [|c ws IH]; [done|].
  cbn [Text.all_chars]. intros [Hc Hws]%andb_true_iff.
  rewrite app_cons. cbn [skip_ws]. rewrite Hc. by apply IH.
Qed.









(** ** Records cut short *)





(** ** Commas that are not there *)



(** ** Integers across a read boundary *)

Lemma digit_cases (c : ascii) :
  is_digit c = true ->
  In c ["0"; "1"; "2"; "3"; "4"; "5"; "6"; "7"; "8"; "9"]%char.
Proof.
  destruct c as [[] [] [] [] [] [] [] []]; intros H; vm_compute in H;
    try discriminate H; clear H; simpl; auto 12.
Qed.

Ltac each_digit c H :=
  apply digit_cases in H; simpl in H;
  repeat (destruct H as [<-|H]; [|]); [..|destruct H].

Lemma span_digits_all (d rest : string) :
  Text.all_chars is_digit d = true ->
  rest = EmptyString \/ (exists r, rest = String "]" r) ->
  span_digits (d +:+ rest) = (d, rest).
Proof.
  intros Hd Hrest. induction d as [|c d IH].
  - rewrite app_nil_l. by destruct Hrest as [->|[r ->]].
  - cbn [Text.all_chars] in Hd. apply andb_true_iff in Hd as [Hc Hd].
    rewrite app_cons. cbn [span_digits]. by rewrite Hc, IH.
Qed.

Lemma positive_literal_app (d1 d2 : string) :
  positive_literal d1 = true -> positive_literal d2 = true ->
  positive_literal (d1 +:+ d2) = true.
Proof.
  destruct d1 as [|c1 d1]; [done|]. destruct d2 as [|c2 d2]; [done|].
  rewrite app_cons. cbn [positive_literal].
  intros [[-> ->]%andb_true_iff H1]%andb_true_iff
         [[H2 _]%andb_true_iff H3]%andb_true_iff.
  cbn [andb]. induction d1 as [|a d1 IH].
  - rewrite app_nil_l. cbn [Text.all_chars]. by rewrite H2, H3.
  - cbn [Text.all_chars] in H1. apply andb_true_iff in H1 as [Ha H1].
    rewrite app_cons. cbn [Text.all_chars]. by rewrite Ha, IH.
Qed.

Lemma literal_fits_app (m : nat) (d1 d2 : string) :
  literal_fits m (d1 +:+ d2) = true ->
  literal_fits m d1 = true /\ literal_fits m d2 = true.
Proof.
  unfold literal_fits. destruct (m =? 0)%nat; [done|]. cbn [orb].
  rewrite length_app. intros H%Nat.leb_le.
  split; apply Nat.leb_le; lia.
Qed.

Lemma int_of_literal_positive (m : nat) (d : string) :
  positive_literal d = true -> literal_fits m d = true ->
  int_of_literal m d = Ok (digits_value 0 d).
Proof.
  intros Hd Hfit.
  assert (Hdigits : int_digits d = d).
  { destruct d as [|c d]; [done|]. cbn [positive_literal] in Hd.
    apply andb_true_iff in Hd as [[Hc _]%andb_true_iff _].
    by each_digit c Hc. }
  unfold int_of_literal. rewrite Hdigits.
  assert ((INT_MAX_STR_DIGITS_THRESHOLD <? String.length d)%nat
          && (0 <? m)%nat && (m <? String.length d)%nat = false) as ->.
  { unfold literal_fits in Hfit.
    apply orb_true_iff in Hfit as [->%Nat.eqb_eq|Hfit%Nat.leb_le].
    - by rewrite andb_false_r.
    - apply andb_false_iff. right. apply Nat.ltb_ge. lia. }
  f_equal. destruct d as [|c d]; [done|]. cbn [positive_literal] in Hd.
  apply andb_true_iff in Hd as [[Hc _]%andb_true_iff _].
  by each_digit c Hc.
Qed.

Lemma match_number_positive (m : nat) (d rest : string) :
  positive_literal d = true -> literal_fits m d = true ->
  rest = EmptyString \/ (exists r, rest = String "]" r) ->
  match_number m (d +:+ rest) = Some (Ok (JInt (digits_value 0 d)), rest).
Proof.
  intros Hd Hfit Hrest.
  assert (Hint := int_of_literal_positive m d Hd Hfit).
  destruct d as [|c d]; [done|]. cbn [positive_literal] in Hd.
  apply andb_true_iff in Hd as [[Hc Hzero]%andb_true_iff Hd].
  assert (Hspan : span_digits (String c d +:+ rest) = (String c d, rest)).
  { apply span_digits_all; [|done]. cbn [Text.all_chars]. by rewrite Hc, Hd. }
  rewrite app_cons in Hspan |- *.
  unfold match_number, match_integer.
  each_digit c Hc; try done; rewrite Hspan, app_nil_l;
    destruct Hrest as [->|[r ->]];
    match goal with
    | |- context [is_digit ?a] => change (is_digit a) with true
    end;
    cbn -[int_of_literal digits_value]; by rewrite Hint.
Qed.

Lemma scan_positive (depth m : nat) (d rest : string) :
  positive_literal d = true -> literal_fits m d = true ->
  rest = EmptyString \/ (exists r, rest = String "]" r) ->
  scan_once depth m (d +:+ rest) = Ok (JInt (digits_value 0 d), rest).
Proof.
  intros Hd Hfit Hrest.
  assert (Hnum := match_number_positive m d rest Hd Hfit Hrest).
  destruct d as [|c d]; [done|]. rewrite app_cons in Hnum |- *.
  cbn [positive_literal] in Hd.
  apply andb_true_iff in Hd as [[Hc _]%andb_true_iff _].
  each_digit c Hc; rewrite scan_once_atom by done;
    unfold scan_atom; cbn -[match_number]; by rewrite Hnum.
Qed.

Lemma raw_decode_positive (depth m : nat) (d rest : string) :
  positive_literal d = true -> literal_fits m d = true ->
  rest = EmptyString \/ (exists r, rest = String "]" r) ->
  raw_decode_with depth m (d +:+ rest)
  = Ok (JInt (digits_value 0 d), String.length d).
Proof.
  intros Hd Hfit Hrest. unfold raw_decode_with.
  rewrite scan_positive by done. f_equal. f_equal.
  rewrite length_app. lia.
Qed.

Lemma length_spaces (n : nat) : String.length (spaces n) = n.
Proof. induction n as [|n IH]; simpl; congruence. Qed.

Lemma json_blank_spaces (n : nat) : json_blank (spaces n).
Proof. unfold json_blank. by induction n as [|n IH]. Qed.

Lemma slice_to_all (s : string) (n : nat) :
  String.length s <= n -> Text.slice_to s n = s.
Proof.
  revert n. induction s as [|c s IH]; intros [|n] Hn; try done.
  - simpl in Hn. lia.
  - cbn [Text.slice_to]. rewrite IH; [done | simpl in Hn; lia].
Qed.

Lemma slice_from_all (s : string) (n : nat) :
  String.length s <= n -> Text.slice_from s n = EmptyString.
Proof.
  revert n. induction s as [|c s IH]; intros [|n] Hn; try done.
  - simpl in Hn. lia.
  - cbn [Text.slice_from]. apply IH. simpl in Hn. lia.
Qed.

Lemma drain_positive (depth m turns : nat) (d rest : string) :
  positive_literal d = true -> literal_fits m d = true ->
  rest = EmptyString \/ (exists r, rest = String "]" r) ->
  drain (raw_decode_with depth m) (S turns) (d +:+ rest)
  = let (yielded, exit) := drain (raw_decode_with depth m) turns rest in
    (JInt (digits_value 0 d) :: yielded, exit).
Proof.
  intros Hd Hfit Hrest.
  assert (Hdec := raw_decode_positive depth m d rest Hd Hfit Hrest).
  destruct d as [|c d]; [done|]. rewrite app_cons in Hdec |- *.
  cbn [positive_literal] in Hd.
  apply andb_true_iff in Hd as [[Hc _]%andb_true_iff _].
  rewrite drain_token, Hdec.
  - rewrite <- app_cons. by rewrite slice_from_app.
  - by each_digit c Hc.
  - by each_digit c Hc.
  - by each_digit c Hc.
Qed.

Lemma fill_step {value : Type} (decoder : string -> result (value * nat))
    (size turns : nat) (chunk rest buf : string) :
  chunk <> EmptyString ->
  String.length chunk = size
  \/ (rest = EmptyString /\ String.length chunk <= size) ->
  fill decoder size (S turns) (chunk +:+ rest) buf
  = match drain decoder (String.length (buf +:+ chunk) + 1) (buf +:+ chunk)
    with
    | (yielded, Break buf') =>
        let (more, e) := fill decoder size turns rest buf' in
        (yielded ++ more, e)
    | (yielded, Stop e) => (yielded, e)
    end.
Proof.
  intros Hchunk Hsize. cbn [fill]. unfold read.
  assert (Hcut : Text.slice_to (chunk +:+ rest) size = chunk
                 /\ Text.slice_from (chunk +:+ rest) size = rest).
  { destruct Hsize as [<-|[-> Hle]].
    - by rewrite slice_to_app, slice_from_app.
    - rewrite app_nil_r. by rewrite slice_to_all, slice_from_all. }
  destruct Hcut as [-> ->].
  apply truthy_true in Hchunk. by rewrite Hchunk.
Qed.

(** X18: an integer that straddles a read boundary is yielded as two
    integers.  When a read of any size ends after the digits [d1] of an
    integer literal [d1 d2] (the digits [d2] not starting with a zero
    and, with the bracket, fitting in the next read) that is within the
    limit on the digits of an integer, the generator yields the integers
    [d1] and [d2], where decoding the whole text at once, with a level
    of recursion for the array, gives the one integer [d1 d2]. *)
Theorem integer_split_by_read (depth max_digits size : nat)
    (d1 d2 : string) :
  positive_literal d1 = true -> positive_literal d2 = true ->
  String.length d1 <= size -> String.length d2 < size ->
  literal_fits max_digits (d1 +:+ d2) = true ->
  0 < depth ->
  iter_json_array_sized (raw_decode_with depth max_digits) size
    (String "[" (spaces (size - String.length d1) +:+ d1 +:+ d2 +:+ "]"))
  = ([JInt (digits_value 0 d1); JInt (digits_value 0 d2)], Returned)
  /\ loads_with depth max_digits
       (String "[" (spaces (size - String.length d1) +:+ d1 +:+ d2 +:+ "]"))
     = Ok (JArr [JInt (digits_value 0 (d1 +:+ d2))]).
Proof.
  intros Hd1 Hd2 Hlen1 Hlen2 Hfit Hdepth.
  destruct (literal_fits_app _ _ _ Hfit) as [Hfit1 Hfit2].
  set (pad := spaces (size - String.length d1)).
  assert (Hpad : String.length pad = size - String.length d1)
    by apply length_spaces.
  assert (Hblank : json_blank pad) by apply json_blank_spaces.
  clearbody pad.
  assert (Hpos1 : d1 <> EmptyString) by by destruct d1.
  assert (Hpos2 : d2 <> EmptyString) by by destruct d2.
  split.
  - unfold iter_json_array_sized.
    change (find_array_start (String "[" ?b)) with (Some b). cbv iota beta.
    rewrite Nat.add_1_r, <- (app_assoc pad d1).
    rewrite fill_step.
    2:{ intros Hnil. apply (f_equal String.length) in Hnil.
        rewrite length_app in Hnil. apply length_pos_not_nil in Hpos1.
        simpl in Hnil. lia. }
    2:{ left. apply length_pos_not_nil in Hpos1. rewrite length_app. lia. }
    rewrite app_nil_l, Nat.add_1_r.
    rewrite drain_skip_blank by by apply json_blank_blank.
    rewrite <- (app_nil_r d1) at 2. rewrite drain_positive by auto.
    assert (Hturns : exists n, String.length (pad +:+ d1) = S n).
    { apply length_pos_not_nil in Hpos1. rewrite length_app.
      destruct (String.length d1); [lia|]. exists (String.length pad + n).
      lia. }
    destruct Hturns as [n ->].
    rewrite (drain_blank _ n EmptyString) by done.
    assert (Hturns : exists n, String.length (d2 +:+ "]") = S n).
    { rewrite length_app. simpl. exists (String.length d2). lia. }
    destruct Hturns as [k Hk]. rewrite length_app, Hk.
    rewrite <- (app_nil_r (d2 +:+ "]")) at 1.
    rewrite Nat.add_succ_r, fill_step.
    2:{ intros Hnil. apply (f_equal String.length) in Hnil.
        rewrite Hk in Hnil. done. }
    2:{ right. split; [done|]. rewrite length_app. simpl. lia. }
    rewrite app_nil_l, Nat.add_1_r, Hk.
    rewrite drain_positive by eauto.
    destruct k as [|k].
    { rewrite length_app in Hk. apply length_pos_not_nil in Hpos2.
      simpl in Hk. lia. }
    by rewrite drain_close.
  - destruct depth as [|depth]; [lia|]. unfold loads_with.
    change (skip_ws (String "[" ?s)) with (String "[" s).
    assert (Hloop : forall n,
              array_items (scan_once depth max_digits) (S n)
                (d1 +:+ d2 +:+ "]") []
              = Ok (JArr [JInt (digits_value 0 (d1 +:+ d2))], EmptyString)).
    { intros n. cbn [array_items]. rewrite <- app_assoc.
      rewrite scan_positive; [done | by apply positive_literal_app | done
                             | eauto]. }
    assert (Hw : skip_ws (pad +:+ d1 +:+ d2 +:+ "]") = d1 +:+ d2 +:+ "]").
    { rewrite skip_ws_blank by done.
      destruct d1 as [|c d1]; [done|]. rewrite app_cons.
      cbn [positive_literal] in Hd1.
      apply andb_true_iff in Hd1 as [[Hc _]%andb_true_iff _].
      by each_digit c Hc. }
    destruct d1 as [|c d1]; [done|]. rewrite app_cons in Hw, Hloop.
    rewrite (scan_once_array_item _ _ _ _ _ Hw).
    + cbn [String.length]. by rewrite Hloop.
    + cbn [positive_literal] in Hd1.
      apply andb_true_iff in Hd1 as [[Hc _]%andb_true_iff _].
      by each_digit c Hc.
Qed.

Lemma integer_1234_split :
  iter_json_array raw_decode ("[" +:+ spaces (CHUNK - 2) +:+ "1234]")
  = ([JInt 12; JInt 34], Returned)
  /\ loads ("[" +:+ spaces (CHUNK - 2) +:+ "1234]") = Ok (JArr [JInt 1234]).
Proof.
  apply (integer_split_by_read RECURSION_LEFT INT_MAX_STR_DIGITS
           CHUNK "12" "34");
    [reflexivity | reflexivity | apply Nat.leb_le; vm_compute; reflexivity
    | apply Nat.ltb_lt; vm_compute; reflexivity | reflexivity
    | unfold RECURSION_LEFT; lia].
Defined.


(** ** Exceptions that are no parse errors *)

Section OtherExceptions.

Context {value : Type}.
Variable raw_decode : string -> result (value * nat).
Variable size : nat.
Hypothesis size_pos : 0 < size.

Variable c : ascii.
Variable rest : string.
Hypothesis c_not_space : Text.char_isspace c = false.
Hypothesis c_not_close : Ascii.eqb c "]" = false.
Hypothesis c_not_comma : Ascii.eqb c "," = false.

Variable e : exn.
Variable k : nat.
Hypothesis e_other : e <> JSONDecodeError.
Hypothesis k_inside : k <= String.length (String c rest).
Hypothesis incomplete :
  forall n, 0 < n < k ->
    raw_decode (Text.slice_to (String c rest) n) = Raise JSONDecodeError.
Hypothesis raises :
  forall n, k <= n -> raw_decode (Text.slice_to (String c rest) n) = Raise e.

(** The buffer grows read by read; the first time it holds [k]
    characters of the text, the exception leaves the generator. *)
Lemma fill_raises (turns : nat) (f buf : string) :
  buf +:+ f = String c rest -> String.length buf < k ->
  String.length f < turns ->
  fill raw_decode size turns f buf = ([], Raised e).
Proof.
  revert f buf. induction turns as [|turns IH]; intros f buf Htext Hbuf Hturns;
    [lia|].
  assert (Hlen : String.length buf + String.length f
                 = String.length (String c rest))
    by by rewrite <- length_app, Htext.
  cbn [fill]. unfold read.
  destruct (Text.truthy (Text.slice_to f size)) eqn:Hchunk.
  2:{ apply truthy_false in Hchunk.
      destruct f; [simpl in *; lia|]. by destruct size; [lia|]. }
  cbn [negb].
  destruct (read_shortens f _ _ size eq_refl Hchunk) as [Hf Hshort].
  remember (buf +:+ Text.slice_to f size) as buf' eqn:Hbuf'.
  assert (Htext' : buf' +:+ Text.slice_from f size = String c rest)
    by (subst buf'; by rewrite app_assoc, Hf).
  assert (Hcut : buf' = Text.slice_to (String c rest) (String.length buf'))
    by by rewrite <- Htext', slice_to_app.
  assert (Hne : buf' <> EmptyString).
  { subst buf'. intros Hnil. apply truthy_true in Hchunk. apply Hchunk.
    destruct buf; [done|]. by rewrite app_cons in Hnil. }
  clear Hbuf'. destruct buf' as [|a b]; [done|].
  assert (a = c) as ->.
  { rewrite app_cons in Htext'. by injection Htext'. }
  rewrite Nat.add_1_r, drain_token by done.
  destruct (Nat.lt_ge_cases (String.length (String c b)) k) as [Hlt|Hge].
  - rewrite Hcut at 1. rewrite incomplete by (simpl in *; lia).
    rewrite IH; [done | done | done | lia].
  - rewrite Hcut at 1. rewrite raises by done.
    by destruct e.
Qed.

Lemma other_exception_leaves :
  0 < k ->
  iter_json_array_sized raw_decode size (String "[" (String c rest))
  = ([], Raised e).
Proof.
  intros Hk. unfold iter_json_array_sized.
  change (find_array_start (String "[" (String c rest)))
    with (Some (String c rest)).
  apply fill_raises; [done | simpl; lia | lia].
Qed.

End OtherExceptions.

(** *** Arrays nested beyond the levels of recursion *)

Lemma skip_ws_brackets (n : nat) (x : string) :
  skip_ws (brackets (S n) +:+ x) = brackets (S n) +:+ x.
Proof. reflexivity. Qed.

Lemma brackets_incomplete (m n depth : nat) :
  0 < n <= depth ->
  scan_once depth m (brackets n) = Raise JSONDecodeError.
Proof.
  revert depth. induction n as [|n IH]; intros depth Hn; [lia|].
  destruct depth as [|depth]; [lia|]. cbn [brackets].
  destruct n as [|n].
  - by apply scan_once_array_nil.
  - rewrite (scan_once_array_item depth m (brackets (S n)) (brackets n) "[")
      by done.
    cbn [String.length array_items].
    change (String "[" (brackets n)) with (brackets (S n)).
    by rewrite IH by lia.
Qed.

Lemma brackets_too_deep (m depth : nat) (x : string) :
  scan_once depth m (brackets (S depth) +:+ x) = Raise RecursionError.
Proof.
  induction depth as [|depth IH].
  - cbn [brackets]. rewrite app_cons. by apply scan_once_deep.
  - change (brackets (S (S depth))) with (String "[" (brackets (S depth))).
    rewrite app_cons.
    rewrite (scan_once_array_item depth m _
               (brackets depth +:+ x) "[") by done.
    rewrite <- app_cons.
    change (String "[" (brackets depth)) with (brackets (S depth)).
    destruct (String.length (brackets (S depth) +:+ x)) as [|n] eqn:Hlen.
    { rewrite length_app in Hlen. simpl in Hlen. lia. }
    cbn [array_items]. by rewrite IH.
Qed.

Lemma length_brackets (n : nat) : String.length (brackets n) = n.
Proof. induction n as [|n IH]; simpl; congruence. Qed.

Lemma slice_to_brackets (k n : nat) (x : string) :
  Text.slice_to (brackets k +:+ x) n
  = if (n <=? k)%nat then brackets n
    else brackets k +:+ Text.slice_to x (n - k).
Proof.
  revert n. induction k as [|k IH]; intros n.
  - rewrite app_nil_l. destruct n as [|n]; [by destruct x|].
    cbn [Nat.leb brackets]. by rewrite app_nil_l, Nat.sub_0_r.
  - destruct n as [|n]; [done|].
    cbn [brackets]. rewrite !app_cons. cbn [Text.slice_to].
    rewrite IH. cbn [Nat.leb Nat.sub].
    by destruct (n <=? k)%nat.
Qed.

(** X19: an item nested deeper than the decoder has levels of recursion
    ends the generator with the [RecursionError] of the decoder, whatever
    the size of the reads and whatever follows: the generator only
    catches parse errors.  As long as the buffer holds no more opening
    brackets than there are levels, the decoder reports a parse error
    and more input is read. *)
Theorem nesting_beyond_the_depth (depth max_digits size : nat) (x : string) :
  0 < size ->
  iter_json_array_sized (raw_decode_with depth max_digits) size
    (String "[" (brackets (S depth) +:+ x))
  = ([], Raised RecursionError).
Proof.
  intros Hsize. cbn [brackets]. rewrite app_cons.
  apply (other_exception_leaves _ size Hsize "[" (brackets depth +:+ x)
           eq_refl eq_refl eq_refl RecursionError (S depth));
    [done | | | | lia].
  - cbn [String.length]. rewrite length_app, length_brackets. lia.
  - intros n Hn. rewrite <- app_cons.
    change (String "[" (brackets depth)) with (brackets (S depth)).
    rewrite slice_to_brackets.
    destruct (Nat.leb_spec n (S depth)) as [_|Hgt]; [|lia].
    unfold raw_decode_with. by rewrite brackets_incomplete by lia.
  - intros n Hn. rewrite <- app_cons.
    change (String "[" (brackets depth)) with (brackets (S depth)).
    rewrite slice_to_brackets.
    destruct (Nat.leb_spec n (S depth)) as [Hle|Hgt].
    + assert (n = S depth) as -> by lia.
      unfold raw_decode_with.
      by rewrite <- (app_nil_r (brackets (S depth))), brackets_too_deep.
    + unfold raw_decode_with. by rewrite brackets_too_deep.
Qed.

Lemma nesting_beyond_the_default :
  iter_json_array raw_decode
    ("[" +:+ brackets (S RECURSION_LEFT) +:+ "1" +:+ "]")
  = ([], Raised RecursionError)
  /\ raw_decode (brackets RECURSION_LEFT) = Raise JSONDecodeError.
Proof.
  split; [|vm_compute; reflexivity].
  apply (nesting_beyond_the_depth RECURSION_LEFT INT_MAX_STR_DIGITS CHUNK
           ("1" +:+ "]")).
  apply Nat.ltb_lt. vm_compute. reflexivity.
Defined.

(** *** Integers beyond the limit of the conversion *)

Lemma int_of_literal_too_long (m : nat) (d : string) :
  positive_literal d = true ->
  0 < m -> m < String.length d ->
  INT_MAX_STR_DIGITS_THRESHOLD < String.length d ->
  int_of_literal m d = Raise ValueError.
Proof.
  intros Hd Hm Hlen Hthreshold.
  assert (Hdigits : int_digits d = d).
  { destruct d as [|c d]; [done|]. cbn [positive_literal] in Hd.
    apply andb_true_iff in Hd as [[Hc _]%andb_true_iff _].
    by each_digit c Hc. }
  unfold int_of_literal. rewrite Hdigits.
  assert ((INT_MAX_STR_DIGITS_THRESHOLD <? String.length d)%nat
          && (0 <? m)%nat && (m <? String.length d)%nat = true) as ->;
    [|done].
  rewrite !andb_true_iff. repeat split; by apply Nat.ltb_lt.
Qed.

Lemma raw_decode_too_long (depth m : nat) (d y : string) :
  positive_literal d = true ->
  0 < m -> m < String.length d ->
  INT_MAX_STR_DIGITS_THRESHOLD < String.length d ->
  y = EmptyString \/ (exists r, y = String "]" r) ->
  raw_decode_with depth m (d +:+ y) = Raise ValueError.
Proof.
  intros Hd Hm Hlen Hthreshold Hy.
  assert (Hint := int_of_literal_too_long m d Hd Hm Hlen Hthreshold).
  assert (Hnum : match_number m (d +:+ y) = Some (Raise ValueError, y)).
  { destruct d as [|c d]; [done|]. cbn [positive_literal] in Hd.
    apply andb_true_iff in Hd as [[Hc Hzero]%andb_true_iff Hd].
    assert (Hspan : span_digits (String c d +:+ y) = (String c d, y)).
    { apply span_digits_all; [|done]. cbn [Text.all_chars].
      by rewrite Hc, Hd. }
    rewrite app_cons in Hspan |- *.
    unfold match_number, match_integer.
    each_digit c Hc; try done; rewrite Hspan, app_nil_l;
      destruct Hy as [->|[r ->]];
      match goal with
      | |- context [is_digit ?a] => change (is_digit a) with true
      end;
      cbn -[int_of_literal digits_value]; by rewrite Hint. }
  unfold raw_decode_with.
  destruct d as [|c d]; [done|]. rewrite app_cons in Hnum |- *.
  cbn [positive_literal] in Hd.
  apply andb_true_iff in Hd as [[Hc _]%andb_true_iff _].
  each_digit c Hc; rewrite scan_once_atom by done;
    unfold scan_atom; cbn -[match_number]; by rewrite Hnum.
Qed.

(** X20: an integer literal with more digits than the conversion allows
    ends the generator with the [ValueError] of the decoder, when a read
    takes in all its digits: the generator only catches parse errors. *)
Theorem integer_beyond_the_limit (depth max_digits size : nat)
    (d x : string) :
  positive_literal d = true ->
  0 < max_digits -> max_digits < String.length d ->
  INT_MAX_STR_DIGITS_THRESHOLD < String.length d ->
  String.length d <= size ->
  iter_json_array_sized (raw_decode_with depth max_digits) size
    (String "[" (d +:+ String "]" x))
  = ([], Raised ValueError).
Proof.
  intros Hd Hm Hlen Hthreshold Hsize.
  set (t := d +:+ String "]" x).
  assert (Hchunk : exists y,
            Text.slice_to t size = d +:+ y
            /\ (y = EmptyString \/ exists r, y = String "]" r)).
  { unfold t. clear -Hsize. revert size Hsize.
    induction d as [|c d IH]; intros size Hsize.
    - rewrite app_nil_l. destruct size as [|size].
      + exists EmptyString. by split; [|left].
      + exists (String "]" (Text.slice_to x size)). split; [done|eauto].
    - destruct size as [|size]; [simpl in Hsize; lia|].
      rewrite app_cons. cbn [Text.slice_to].
      destruct (IH size) as (y & -> & Hy); [simpl in Hsize; lia|].
      exists y. by rewrite app_cons. }
  destruct Hchunk as (y & Hchunk & Hy).
  assert (Hdec := raw_decode_too_long depth max_digits d y Hd Hm Hlen
                    Hthreshold Hy).
  unfold iter_json_array_sized.
  change (find_array_start (String "[" t)) with (Some t). cbv iota beta.
  rewrite Nat.add_1_r. cbn [fill]. unfold read. rewrite Hchunk.
  destruct d as [|c d]; [done|]. rewrite app_cons in Hdec |- *.
  cbn [Text.truthy negb String.append]. rewrite app_nil_l.
  cbn [positive_literal] in Hd.
  apply andb_true_iff in Hd as [[Hc _]%andb_true_iff _].
  rewrite Nat.add_1_r, drain_token, Hdec; [done|..]; by each_digit c Hc.
Qed.

Lemma integer_beyond_the_default :
  iter_json_array raw_decode
    ("[" +:+ ones (S INT_MAX_STR_DIGITS) +:+ "]")
  = ([], Raised ValueError)
  /\ iter_json_array raw_decode ("[" +:+ ones INT_MAX_STR_DIGITS +:+ "]")
     = ([JInt (digits_value 0 (ones INT_MAX_STR_DIGITS))], Returned).
Proof.
  split; [|vm_compute; reflexivity].
  apply (integer_beyond_the_limit RECURSION_LEFT INT_MAX_STR_DIGITS CHUNK
           (ones (S INT_MAX_STR_DIGITS)) EmptyString);
    [vm_compute; reflexivity
    | unfold INT_MAX_STR_DIGITS; lia
    | apply Nat.ltb_lt; vm_compute; reflexivity
    | apply Nat.ltb_lt; vm_compute; reflexivity
    | apply Nat.leb_le; vm_compute; reflexivity].
Defined.
